(** * Benchmark position extraction: a shallow embedding

    The Python converters under [research/rook-clf-demo] turn CSV puzzle
    rows into evaluation positions.  This development embeds

    - [convert_gdm_correct.process_fen_rook_style]  (the canonical encoder),
    - [get_difficulty_from_rating] and the rating default,
    - the replay loops of [convert_lichess.convert_lichess_puzzles] and
      [convert_gdm_correct.convert_gdm_puzzles_correct],
    - the per-row accounting of [seen_puzzles] with the [>= 1000] cut-off,
    - the decompression step of the two Lichess converters,
    - the first-move loops of [convert_benchmarks] and [convert_gdm_action]
      and the loop of [convert_bigbench_checkmate],

    and proves the properties stated for them.

    Conventions.  Python [str] values are Rocq [string]s; the functions that
    walk over characters work on [list ascii] ([chars]/[text] convert).  The
    inputs considered are ASCII text, as the CSV sources are.  A Python
    exception is an explicit error value; a [dict] row is a [gmap]; the
    [set] of seen puzzle ids is a [gset string].  The python-chess library is
    not part of the repository: it is an interface ([ChessEngine], and
    [SanNotation] for moves in algebraic notation). *)

From Stdlib Require Import ZArith Lia Ascii String List Bool.
From stdpp Require Import base gmap strings list fin_maps.

Local Open Scope Z_scope.
Local Open Scope nat_scope.

(** ** Text helpers (Python [str] methods) *)

Module Text.

Definition chars (s : string) : list ascii := String.list_ascii_of_string s.
Definition text (l : list ascii) : string := String.string_of_list_ascii l.

Definition ch (s : string) : ascii :=
  match s with String c _ => c | EmptyString => Ascii.zero end.

Definition FILL : ascii := ch ".".
Definition SLASH : ascii := ch "/".
Definition SPACE : ascii := ch " ".

(** [s.split(sep)] for a one-character separator: every occurrence cuts,
    empty pieces are kept, and the empty string yields one empty piece. *)
Fixpoint split_on (sep : ascii) (s : list ascii) : list (list ascii) :=
  match s with
  | [] => [[]]
  | c :: s' =>
      if Ascii.eqb c sep then [] :: split_on sep s'
      else match split_on sep s' with
           | [] => [[c]]
           | w :: ws => (c :: w) :: ws
           end
  end.

(** [sep.join(pieces)]. *)
Fixpoint join (sep : ascii) (pieces : list (list ascii)) : list ascii :=
  match pieces with
  | [] => []
  | [w] => w
  | w :: ws => w ++ sep :: join sep ws
  end.

(** Python's [str.isspace] on ASCII: tab, LF, VT, FF, CR, FS..US, space. *)
Definition is_space (c : ascii) : bool :=
  let n := nat_of_ascii c in
  ((9 <=? n) && (n <=? 13)) || ((28 <=? n) && (n <=? 32)).

(** [s.split()] without argument: cut at runs of whitespace, drop empty
    pieces.  [cur] is the piece being read, reversed. *)
Fixpoint split_ws_aux (cur : list ascii) (s : list ascii) : list (list ascii) :=
  match s with
  | [] => match cur with [] => [] | _ => [rev cur] end
  | c :: s' =>
      if is_space c
      then match cur with
           | [] => split_ws_aux [] s'
           | _ => rev cur :: split_ws_aux [] s'
           end
      else split_ws_aux (c :: cur) s'
  end.

Definition split_ws (s : string) : list string :=
  map text (split_ws_aux [] (chars s)).

Definition is_digit (c : ascii) : bool :=
  let n := nat_of_ascii c in (48 <=? n) && (n <=? 57).

Definition digit_value (c : ascii) : nat := nat_of_ascii c - 48.

Definition digit_char (n : nat) : ascii := ascii_of_nat (48 + n).

(** [s.isdigit()]: non-empty and every character a decimal digit. *)
Definition isdigit (s : string) : bool :=
  match chars s with
  | [] => false
  | l => forallb is_digit l
  end.

(** [int(s)] on a string of decimal digits. *)
Definition int_of_digits (s : string) : Z :=
  fold_left (fun acc c => (10 * acc + Z.of_nat (digit_value c))%Z) (chars s) 0%Z.

(** [s.ljust(width, ".")]: pad on the right, never cut. *)
Definition ljust (width : nat) (s : list ascii) : list ascii :=
  s ++ repeat FILL (width - length s).

End Text.
Import Text.

(** ** Python exceptions that the embedded code can raise *)

Inductive PyError : Type :=
| ValueError_not_enough_values (expected got : nat)
| ValueError_too_many_values (expected : nat)
| CalledProcessError (returncode : Z)
| FileNotFoundError.

Inductive result (A : Type) : Type :=
| Ok (a : A)
| Raise (e : PyError).
Arguments Ok {A} a.
Arguments Raise {A} e.

(** ** The canonical encoder: [convert_gdm_correct.process_fen_rook_style] *)

(** The replacement function of [re.sub(r'\d', lambda m: '.' * int(m.group()), _)]. *)
Definition expand_digit (c : ascii) : list ascii :=
  if is_digit c then repeat FILL (digit_value c) else [c].

Definition sub_digits (position : list ascii) : list ascii :=
  flat_map expand_digit position.

(** [position.replace("/", empty)]: every separator is dropped. *)
Definition remove_slashes (position : list ascii) : list ascii :=
  List.filter (fun c => negb (Ascii.eqb c SLASH)) position.

Definition encode_placement (position : list ascii) : list ascii :=
  remove_slashes (sub_digits position).

Definition encode_fields
    (position turn castling en_passant halfmove fullmove : list ascii) : list ascii :=
  let position := encode_placement position in
  let castling := ljust 4 castling in
  let en_passant := ljust 2 en_passant in
  let halfmove := ljust 2 halfmove ++ [FILL] in
  let fullmove := ljust 3 fullmove in
  concat [position; turn; castling; en_passant; halfmove; fullmove].

(** The tuple unpacking of [fen.split(" ")] needs exactly six pieces. *)
Definition process_fen_rook_style (fen : string) : result string :=
  match split_on SPACE (chars fen) with
  | [position; turn; castling; en_passant; halfmove; fullmove] =>
      Ok (text (encode_fields position turn castling en_passant halfmove fullmove))
  | pieces =>
      if length pieces <? 6
      then Raise (ValueError_not_enough_values 6 (length pieces))
      else Raise (ValueError_too_many_values 6)
  end.

(** ** Position notation: syntax of the six fields *)

Module Fen.

Definition is_piece (c : ascii) : bool :=
  existsb (Ascii.eqb c) (chars "pnbrqkPNBRQK").

(** a digit that may stand in a rank: 1 to 8 *)
Definition is_gap (c : ascii) : bool :=
  is_digit c && (1 <=? digit_value c) && (digit_value c <=? 8).

Definition starts_with_digit (r : list ascii) : bool :=
  match r with c :: _ => is_digit c | [] => false end.

(** pieces and gap digits, never two digits in a row *)
Fixpoint rank_wf (r : list ascii) : bool :=
  match r with
  | [] => true
  | c :: r' =>
      if is_piece c then rank_wf r'
      else is_gap c && negb (starts_with_digit r') && rank_wf r'
  end.

Fixpoint rank_squares (r : list ascii) : nat :=
  match r with
  | [] => 0
  | c :: r' => (if is_digit c then digit_value c else 1) + rank_squares r'
  end.

Definition valid_rank (r : list ascii) : bool :=
  rank_wf r && (rank_squares r =? 8).

Definition valid_placement (p : list ascii) : bool :=
  let ranks := split_on SLASH p in
  (length ranks =? 8) && forallb valid_rank ranks.

Definition valid_turn (t : list ascii) : bool :=
  existsb (String.eqb (text t)) ["w"; "b"]%string.

Definition castling_fields : list string :=
  ["-"; "K"; "Q"; "k"; "q"; "KQ"; "Kk"; "Kq"; "Qk"; "Qq"; "kq";
   "KQk"; "KQq"; "Kkq"; "Qkq"; "KQkq"]%string.

Definition valid_castling (c : list ascii) : bool :=
  existsb (String.eqb (text c)) castling_fields.

Definition valid_en_passant (e : list ascii) : bool :=
  match e with
  | [d] => Ascii.eqb d (ch "-")
  | [f; r] =>
      existsb (Ascii.eqb f) (chars "abcdefgh") && existsb (Ascii.eqb r) (chars "36")
  | _ => false
  end.

(** a clock or move number: a non-empty run of decimal digits *)
Definition valid_number (n : list ascii) : bool :=
  match n with [] => false | _ => forallb is_digit n end.

Definition valid_fields (p t c e h f : list ascii) : bool :=
  valid_placement p && valid_turn t && valid_castling c &&
  valid_en_passant e && valid_number h && valid_number f.

(** *** The inverse decoder

    The inverse is not part of the repository; it is written here after
    the description "regroup by the fixed widths 64/1/4/2/3/3, strip the
    filler characters, re-compress runs of filler in the placement into
    digits and put the rank separators back". *)

Definition strip_fill (s : list ascii) : list ascii :=
  List.filter (fun c => negb (Ascii.eqb c FILL)) s.

Definition flush (run : nat) : list ascii :=
  match run with 0 => [] | _ => [digit_char run] end.

(** [run] counts the filler characters read since the last piece *)
Fixpoint compress (run : nat) (squares : list ascii) : list ascii :=
  match squares with
  | [] => flush run
  | c :: rest =>
      if Ascii.eqb c FILL then compress (S run) rest
      else flush run ++ c :: compress 0 rest
  end.

Fixpoint chunks (n : nat) (width : nat) (l : list ascii) : list (list ascii) :=
  match n with
  | 0 => []
  | S n' => firstn width l :: chunks n' width (skipn width l)
  end.

Definition decode_placement (squares : list ascii) : list ascii :=
  join SLASH (map (compress 0) (chunks 8 8 squares)).

Definition decode_rook_style (encoded : string) : list (list ascii) :=
  let s := chars encoded in
  let position := firstn 64 s in
  let turn := firstn 1 (skipn 64 s) in
  let castling := firstn 4 (skipn 65 s) in
  let en_passant := firstn 2 (skipn 69 s) in
  let halfmove := firstn 3 (skipn 71 s) in
  let fullmove := firstn 3 (skipn 74 s) in
  [decode_placement position; strip_fill turn; strip_fill castling;
   strip_fill en_passant; strip_fill halfmove; strip_fill fullmove].

Definition START_FEN : string :=
  "rnbqkbnr/pppppppp/8/8/8/8/PPPPPPPP/RNBQKBNR w KQkq - 0 1".

(** a position with a long game behind it: 100 half-moves without a
    capture or pawn move, move 120 *)
Definition LONG_CLOCK_FEN : string := "4k3/8/8/8/8/8/8/4K2R w K - 100 120".

Definition fields_of (fen : string) : list (list ascii) :=
  split_on SPACE (chars fen).

(** six space-separated fields, each well formed *)
Definition valid_fen (fen : string) : bool :=
  match fields_of fen with
  | [p; t; c; e; h; f] => valid_fields p t c e h f
  | _ => false
  end.

(** the halfmove clock has at most two digits and the fullmove number at
    most three: the widths of their columns *)
Definition clocks_fit (fen : string) : bool :=
  match fields_of fen with
  | [_; _; _; _; h; f] => (length h <=? 2) && (length f <=? 3)
  | _ => false
  end.

Definition no_fill (s : list ascii) : bool :=
  forallb (fun c => negb (Ascii.eqb c FILL)) s.

(** neither a rank separator nor a digit *)
Definition clean (c : ascii) : Prop :=
  Ascii.eqb c SLASH = false /\ is_digit c = false.

(** the [width] characters of [out] from offset [start] *)
Definition column (start width : nat) (out : string) : list ascii :=
  firstn width (skipn start (chars out)).

End Fen.

(** ** Ratings *)

Definition get_difficulty_from_rating (rating : Z) : string :=
  if (rating <? 1000)%Z then "beginner"
  else if (rating <? 1500)%Z then "easy"
  else if (rating <? 2000)%Z then "medium"
  else if (rating <? 2500)%Z then "hard"
  else "expert".

(** [int(s) if s.isdigit() else default] *)
Definition int_or (default : Z) (s : string) : Z :=
  if isdigit s then int_of_digits s else default.

(** the five names in the order of the tests; any other text ranks last *)
Definition difficulty_rank (name : string) : nat :=
  if String.eqb name "beginner" then 0
  else if String.eqb name "easy" then 1
  else if String.eqb name "medium" then 2
  else if String.eqb name "hard" then 3
  else 4.

(** ** The board library (python-chess) as an interface

    [None] stands for a raised exception, which every caller catches. *)

Class ChessEngine : Type := {
  Board : Type;
  Move : Type;
  (** [chess.Board(fen)] *)
  Board_of_fen : string -> option Board;
  (** [chess.Move.from_uci(mv)] *)
  from_uci : string -> option Move;
  (** [move in board.legal_moves] *)
  is_legal : Board -> Move -> bool;
  (** [board.push(move)], returning the board after the move *)
  push : Board -> Move -> option Board;
  (** [board.fen()] *)
  fen : Board -> string;
  (** [chess.pgn.read_game], [game.board()] and the pushes of
      [game.mainline_moves()] *)
  read_game_end : string -> option Board
}.

(** What [convert_bigbench_checkmate] needs besides: reading a move in
    standard algebraic notation on a board, and writing a move out. *)
Class SanNotation (E : ChessEngine) : Type := {
  (** [board.parse_san(san)] *)
  parse_san : Board -> string -> option Move;
  (** [move.uci()] *)
  uci : Move -> string
}.

(** ** Emitted records *)

Record Metadata : Type := {
  puzzle_id : string;
  rating : Z;
  puzzle_type : string;
  difficulty : string;
  source : string;
  themes : option (list string);
  popularity : option Z;
  solution_sequence : option (list string);
  move_index_in_sequence : option nat;
  total_moves_in_sequence : option nat;
  solution_description : option string
}.

(** one entry of ["positions"]: the keys ["fen"], ["correct_move"], ["metadata"] *)
Record EvalPosition : Type := {
  position_fen : string;
  correct_move : string;
  metadata : Metadata
}.

(** a [csv.DictReader] row: the columns that hold a text in this row.  An
    absent key is a column that the header of the file does not have.  In a
    column read with [row[...]] this also stands for a row shorter than
    the header, which has [None] there: that raises at the first [str]
    method call, inside the same [try] as a missing key does.  In the
    columns Themes and Popularity, read with [row.get], the two differ (a
    missing key gives the default, [None] raises and the row is passed
    over): there an absent key is a missing column only. *)
Abbreviation Row := (gmap string string).

(** the stored rating is not negative and the stored difficulty is its bucket *)
Definition rating_in_order (p : EvalPosition) : Prop :=
  (0 <= rating (metadata p))%Z /\
  difficulty (metadata p) = get_difficulty_from_rating (rating (metadata p)).

(** the record repeats the FEN column and the first word of the Moves column *)
Definition first_move_of (row : Row) (p : EvalPosition) : Prop :=
  exists moves_s,
    row !! "FEN" = Some (position_fen p) /\
    row !! "Moves" = Some moves_s /\
    head (split_ws moves_s) = Some (correct_move p).

(** the record carries its solution, the length of the solution and an
    odd index below that length at which the solution has the expected move *)
Definition self_describing (p : EvalPosition) : Prop :=
  exists (moves : list string) (i : nat),
    solution_sequence (metadata p) = Some moves /\
    total_moves_in_sequence (metadata p) = Some (length moves) /\
    move_index_in_sequence (metadata p) = Some i /\
    i mod 2 = 1 /\ i < length moves /\
    moves !! i = Some (correct_move p).

(** how the body of the [for ... in enumerate(reader)] loop ends *)
Inductive RowOutcome : Type :=
| Continue                                          (* a [continue] statement *)
| Fallthrough (id : string) (puzzle_positions : list EvalPosition).

Definition row_positions (o : RowOutcome) : list EvalPosition :=
  match o with
  | Continue => []
  | Fallthrough _ ps => ps
  end.

Record Acc : Type := {
  positions : list EvalPosition;
  seen_puzzles : gset string
}.

Definition acc0 : Acc := {| positions := []; seen_puzzles := ∅ |}.

(** [if puzzle_positions: positions.extend(puzzle_positions); seen_puzzles.add(puzzle_id)] *)
Definition record_puzzle (id : string) (puzzle_positions : list EvalPosition) (acc : Acc) : Acc :=
  match puzzle_positions with
  | [] => acc
  | _ => {| positions := positions acc ++ puzzle_positions;
            seen_puzzles := seen_puzzles acc ∪ {[ id ]} |}
  end.

(** The row loop shared by both converters: a [continue] goes to the next
    row at once; otherwise the row's positions are recorded and the loop
    leaves when [len(seen_puzzles) >= cap]. *)
Fixpoint for_rows (body : Row -> RowOutcome) (cap : nat) (rows : list Row) (acc : Acc) : Acc :=
  match rows with
  | [] => acc
  | row :: rest =>
      match body row with
      | Continue => for_rows body cap rest acc
      | Fallthrough id ps =>
          let acc' := record_puzzle id ps acc in
          if cap <=? size (seen_puzzles acc') then acc'
          else for_rows body cap rest acc'
      end
  end.

(** the literal [1000] of both converters *)
Definition PUZZLE_LIMIT : nat := 1000.

Definition ids_of (ps : list EvalPosition) : gset string :=
  list_to_set (map (fun p => puzzle_id (metadata p)) ps).

Section Converters.
Context {E : ChessEngine}.

(** *** [convert_lichess.py] *)

Definition is_plausible_uci (mv : string) : bool :=
  let files := chars "abcdefgh" in
  let ranks := chars "12345678" in
  let promos := chars "nbrq" in
  let mem c l := existsb (Ascii.eqb c) l in
  match chars mv with
  | [f0; f1; t0; t1] =>
      mem f0 files && mem f1 ranks && mem t0 files && mem t1 ranks
  | [f0; f1; t0; t1; promo] =>
      mem f0 files && mem f1 ranks && mem t0 files && mem t1 ranks && mem promo promos
  | _ => false
  end.

Definition lichess_position (puzzle_id : string) (rating : Z)
    (themes : list string) (popularity : Z) (moves : list string)
    (idx : nat) (board_fen mv : string) : EvalPosition :=
  {| position_fen := board_fen;
     correct_move := mv;
     metadata := {| puzzle_id := puzzle_id;
                    rating := rating;
                    puzzle_type := "lichess_puzzle";
                    difficulty := get_difficulty_from_rating rating;
                    source := "lichess";
                    themes := Some (firstn 3 themes);
                    popularity := Some popularity;
                    solution_sequence := Some moves;
                    move_index_in_sequence := Some idx;
                    total_moves_in_sequence := Some (length moves);
                    solution_description := None |} |}.

Definition lichess_fallback_position (puzzle_id : string) (rating : Z)
    (themes : list string) (popularity : Z) (fen mv : string) : EvalPosition :=
  {| position_fen := fen;
     correct_move := mv;
     metadata := {| puzzle_id := puzzle_id;
                    rating := rating;
                    puzzle_type := "lichess_puzzle";
                    difficulty := get_difficulty_from_rating rating;
                    source := "lichess";
                    themes := Some (firstn 3 themes);
                    popularity := Some popularity;
                    solution_sequence := None;
                    move_index_in_sequence := None;
                    total_moves_in_sequence := None;
                    solution_description := None |} |}.

(** [board.push(chess.Move.from_uci(mv))] inside [try]; [None] is the
    [break] of the handler *)
Definition advance (board : Board) (mv : string) : option Board :=
  match from_uci mv with
  | Some move => push board move
  | None => None
  end.

(** the board after the pushes of a whole prefix *)
Fixpoint advance_all (board : Board) (prefix : list string) : option Board :=
  match prefix with
  | [] => Some board
  | mv :: rest =>
      match advance board mv with
      | Some board' => advance_all board' rest
      | None => None
      end
  end.

(** The [for idx, mv in enumerate(moves)] loop from index [idx] on;
    [mk idx fen mv] builds the record appended to [puzzle_positions]. *)
Fixpoint lichess_replay (mk : nat -> string -> string -> EvalPosition)
    (board : Board) (idx : nat) (moves : list string) : list EvalPosition :=
  match moves with
  | [] => []
  | mv :: rest =>
      let emitted :=
        if idx mod 2 =? 1 then
          match from_uci mv with
          | Some move_obj => if is_legal board move_obj then [mk idx (fen board) mv] else []
          | None => []                                  (* except Exception: pass *)
          end
        else [] in
      emitted ++
      match advance board mv with
      | Some board' => lichess_replay mk board' (S idx) rest
      | None => []                                      (* break *)
      end
  end.

Definition row_get (row : Row) (key default : string) : string :=
  match row !! key with Some v => v | None => default end.

(** the body of the row loop; [have_chess] is the module flag [HAVE_CHESS] *)
Definition lichess_row (have_chess : bool) (row : Row) : RowOutcome :=
  match row !! "FEN", row !! "Moves" with
  | Some fen_s, Some moves_s =>
      match split_ws moves_s with
      | [] => Continue                                  (* if not moves: continue *)
      | (first_move :: _) as moves =>
          match row !! "Rating", row !! "PuzzleId" with
          | Some rating_s, Some puzzle_id =>
              let rating := int_or 1500 rating_s in
              let themes := split_ws (row_get row "Themes" EmptyString) in
              let popularity := int_or 0 (row_get row "Popularity" EmptyString) in
              if have_chess then
                match Board_of_fen fen_s with
                | Some board =>
                    Fallthrough puzzle_id
                      (lichess_replay
                         (lichess_position puzzle_id rating themes popularity moves)
                         board 0 moves)
                | None => Fallthrough puzzle_id []      (* except Exception: pass *)
                end
              else if is_plausible_uci first_move then
                Fallthrough puzzle_id
                  [lichess_fallback_position puzzle_id rating themes popularity
                     fen_s first_move]
              else Fallthrough puzzle_id []
          | _, _ => Continue                            (* KeyError *)
          end
      end
  | _, _ => Continue                                    (* KeyError *)
  end.

(** the accumulated [positions] and [seen_puzzles] after the row loop *)
Definition lichess_rows (have_chess : bool) (cap : nat) (rows : list Row) : Acc :=
  for_rows (lichess_row have_chess) cap rows acc0.

(** *** [convert_gdm_correct.py] *)

Definition gdm_position (puzzle_id : string) (rating : Z) (solution : string)
    (moves_sequence : list string) (move_idx : nat) (board_fen move_uci : string)
    : EvalPosition :=
  {| position_fen := board_fen;
     correct_move := move_uci;
     metadata := {| puzzle_id := puzzle_id;
                    rating := rating;
                    puzzle_type := "tactical_sequence";
                    difficulty := get_difficulty_from_rating rating;
                    source := "gdm_searchless";
                    themes := None;
                    popularity := None;
                    solution_sequence := Some moves_sequence;
                    move_index_in_sequence := Some move_idx;
                    total_moves_in_sequence := Some (length moves_sequence);
                    solution_description := Some solution |} |}.

(** The [for move_idx, move_uci in enumerate(moves_sequence)] loop.  In the
    evaluation branch a move that does not parse runs [continue], which
    skips the push (and its [break]) for that index. *)
Fixpoint gdm_replay (mk : nat -> string -> string -> EvalPosition)
    (current_board : Board) (move_idx : nat) (moves : list string) : list EvalPosition :=
  match moves with
  | [] => []
  | move_uci :: rest =>
      let pushed emitted :=
        emitted ++
        match advance current_board move_uci with
        | Some board' => gdm_replay mk board' (S move_idx) rest
        | None => []                                    (* break *)
        end in
      if move_idx mod 2 =? 1 then
        let eval_position := mk move_idx (fen current_board) move_uci in
        match from_uci move_uci with
        | Some move =>
            pushed (if is_legal current_board move then [eval_position] else [])
        | None => gdm_replay mk current_board (S move_idx) rest   (* except: continue *)
        end
      else pushed []
  end.

Definition gdm_row (row : Row) : RowOutcome :=
  match row !! "PuzzleId", row !! "Rating", row !! "PGN",
        row !! "Solution", row !! "FEN", row !! "Moves" with
  | Some puzzle_id, Some rating_s, Some pgn_text,
    Some solution, Some base_fen, Some moves_s =>
      let rating := int_or 1500 rating_s in
      let moves_sequence := split_ws moves_s in
      match read_game_end pgn_text with
      | None => Continue                                (* except Exception *)
      | Some board =>
          if negb (String.eqb (fen board) base_fen) then Continue   (* FEN mismatch *)
          else
            match Board_of_fen base_fen with
            | None => Continue                          (* except Exception *)
            | Some current_board =>
                Fallthrough puzzle_id
                  (gdm_replay (gdm_position puzzle_id rating solution moves_sequence)
                     current_board 0 moves_sequence)
            end
      end
  | _, _, _, _, _, _ => Continue                        (* KeyError *)
  end.

Definition gdm_rows (cap : nat) (rows : list Row) : Acc :=
  for_rows gdm_row cap rows acc0.

(** every move parses and can be pushed, and every move at an odd index
    is legal on the board it is played on *)
Fixpoint replays_legally (board : Board) (idx : nat) (moves : list string) : bool :=
  match moves with
  | [] => true
  | mv :: rest =>
      match from_uci mv with
      | None => false
      | Some move =>
          (if idx mod 2 =? 1 then is_legal board move else true) &&
          match push board move with
          | Some board' => replays_legally board' (S idx) rest
          | None => false
          end
      end
  end.

(** the expected move is legal, for the board library, in the board the
    position was rendered from or parsed into *)
Definition legal_at_creation (p : EvalPosition) : Prop :=
  exists (board : Board) (move : Move),
    (fen board = position_fen p \/ Board_of_fen (position_fen p) = Some board) /\
    from_uci (correct_move p) = Some move /\
    is_legal board move = true.

(** the same for a position text and a move text, whatever record holds
    them: [legal_at_creation p] is
    [legal_move_at (position_fen p) (correct_move p)] *)
Definition legal_move_at (fen_text mv : string) : Prop :=
  exists (board : Board) (move : Move),
    (fen board = fen_text \/ Board_of_fen fen_text = Some board) /\
    from_uci mv = Some move /\
    is_legal board move = true.

(** what is known of a record that a replay loop appends at an index
    [j >= i] of the move list [all]; [mk] builds the record *)
Definition emitted_at (mk : nat -> string -> string -> EvalPosition)
    (all : list string) (i : nat) (p : EvalPosition) : Prop :=
  exists (j : nat) (mv : string) (board : Board) (move : Move),
    p = mk j (fen board) mv /\ i <= j /\ j mod 2 = 1 /\ all !! j = Some mv /\
    from_uci mv = Some move /\ is_legal board move = true.

(** the record stores the rating read from [rating_s] and its bucket *)
Definition rated (rating_s : string) (p : EvalPosition) : Prop :=
  rating (metadata p) = int_or 1500 rating_s /\
  difficulty (metadata p) = get_difficulty_from_rating (int_or 1500 rating_s).

(** the record stores an odd index of [moves] and the move found there *)
Definition at_odd_index (moves : list string) (p : EvalPosition) : Prop :=
  exists i : nat,
    move_index_in_sequence (metadata p) = Some i /\
    i mod 2 = 1 /\
    moves !! i = Some (correct_move p).

End Converters.

(** ** The runs: decompression, row loop, artifact

    Files are a finite map from paths to contents.  [print] calls leave
    the files untouched and are not modelled.  Of the directories only
    [benchmarks/] matters: [convert_lichess] creates it before it opens the
    artifact ([mkdir(exist_ok=True)]), [convert_benchmarks] creates it in its
    [__main__] block only, so for its functions the directory is there or
    not, as the caller left it. *)

Record BenchmarkArtifact : Type := {
  name : string;
  description : string;
  target_accuracy : Z;
  citation : string;
  source_url : string;
  evaluation_methodology : option string;
  artifact_positions : list EvalPosition
}.

Inductive FileData : Type :=
| CsvFile (rows : list Row)
| JsonFile (artifact : BenchmarkArtifact).

Abbreviation Files := (gmap string FileData).

(** what [subprocess.run(['zstd', '-d', '-f', archive, '-o', temp])] does:
    the tool runs to an exit code, leaving [written] in the output file, or
    it cannot be started at all *)
Inductive ZstdRun : Type :=
| ZstdExited (returncode : Z) (written : list Row)
| ZstdNotStarted.

Definition decompression_failed (z : ZstdRun) : Prop :=
  match z with
  | ZstdExited returncode _ => returncode <> 0%Z
  | ZstdNotStarted => True
  end.

Module ConvertLichess.
Section Run.
Context {E : ChessEngine}.

Definition OUTPUT : string := "benchmarks/lichess_puzzles.json".

Definition benchmark_data (positions : list EvalPosition) : BenchmarkArtifact :=
  {| name := "Lichess Puzzle Benchmark";
     description := "Tactical puzzle positions from Lichess.org, evaluated at model turns";
     target_accuracy := 65;
     citation := "Lichess.org puzzle database";
     source_url := "https://database.lichess.org/";
     evaluation_methodology := None;
     artifact_positions := positions |}.

(** [temp_filename] is the name [tempfile.NamedTemporaryFile] picked; the
    [finally] clause deletes it on every way out of the [try]. *)
Definition convert_lichess_puzzles (have_chess : bool) (temp_filename : string)
    (zstd : ZstdRun) (files : Files) : result nat * Files :=
  let files := <[temp_filename := CsvFile []]> files in
  match zstd with
  | ZstdNotStarted => (Raise FileNotFoundError, delete temp_filename files)
  | ZstdExited returncode written =>
      let files := <[temp_filename := CsvFile written]> files in
      if negb (returncode =? 0)%Z then (Ok 0, delete temp_filename files)   (* return 0 *)
      else
        let acc := lichess_rows have_chess PUZZLE_LIMIT written in
        let files := delete temp_filename files in
        (Ok (length (positions acc)),
         <[OUTPUT := JsonFile (benchmark_data (positions acc))]> files)
  end.

End Run.
End ConvertLichess.

Module ConvertGdmCorrect.
Section Run.
Context {E : ChessEngine}.

Definition convert_gdm_puzzles_correct (rows : list Row) : Acc :=
  gdm_rows PUZZLE_LIMIT rows.

End Run.
End ConvertGdmCorrect.

(** *** [convert_gdm_action.py] *)

Module ConvertGdmAction.

(** the keys of ["metadata"] *)
Record ActionMetadata : Type := {
  action_puzzle_id : string;
  action_rating : Z;
  action_puzzle_type : string;
  action_difficulty : string;
  action_source : string;
  evaluation_type : string;
  original_sequence : list string
}.

(** one entry of ["positions"]: the keys ["fen"], ["correct_move"], ["metadata"] *)
Record ActionPosition : Type := {
  action_fen : string;
  action_correct_move : string;
  action_metadata : ActionMetadata
}.

Section Run.
Context {E : ChessEngine}.

Definition action_position (puzzle_id : string) (rating : Z)
    (base_fen first_move : string) (moves_sequence : list string) : ActionPosition :=
  {| action_fen := base_fen;
     action_correct_move := first_move;
     action_metadata := {| action_puzzle_id := puzzle_id;
                           action_rating := rating;
                           action_puzzle_type := "action_accuracy";
                           action_difficulty := get_difficulty_from_rating rating;
                           action_source := "gdm_searchless_action";
                           evaluation_type := "single_move_accuracy";
                           original_sequence := moves_sequence |} |}.

(** the body of the row loop: [None] is a [continue], [Some ps] reaches
    the [len(positions) >= 1000] test with [ps] appended *)
Definition action_row (row : Row) : option (list ActionPosition) :=
  match row !! "PuzzleId", row !! "Rating", row !! "FEN", row !! "Moves" with
  | Some puzzle_id, Some rating_s, Some base_fen, Some moves_s =>
      let rating := int_or 1500 rating_s in
      match split_ws moves_s with
      | [] => Some []                                   (* if moves_sequence: *)
      | (first_move :: _) as moves_sequence =>
          match Board_of_fen base_fen with
          | None => None                                (* except Exception *)
          | Some board =>
              match from_uci first_move with
              | None => None                            (* except: continue *)
              | Some move =>
                  if is_legal board move
                  then Some [action_position puzzle_id rating base_fen first_move
                               moves_sequence]
                  else Some []
              end
          end
      end
  | _, _, _, _ => None                                  (* KeyError *)
  end.

Fixpoint action_rows (rows : list Row) (positions : list ActionPosition)
    : list ActionPosition :=
  match rows with
  | [] => positions
  | row :: rest =>
      match action_row row with
      | None => action_rows rest positions
      | Some ps =>
          let positions := positions ++ ps in
          if 1000 <=? length positions then positions
          else action_rows rest positions
      end
  end.

(** the [positions] that [convert_gdm_action] writes for the rows of the file *)
Definition convert_gdm_action (rows : list Row) : list ActionPosition :=
  action_rows rows [].

End Run.
End ConvertGdmAction.

Module ConvertBenchmarks.
Section Run.
Context {E : ChessEngine}.

Definition OUTPUT : string := "benchmarks/lichess_puzzles.json".

Definition lichess_position (row_fen correct_move puzzle_id : string) (rating : Z)
    (themes : list string) (popularity : Z) : EvalPosition :=
  {| position_fen := row_fen;
     correct_move := correct_move;
     metadata := {| puzzle_id := puzzle_id;
                    rating := rating;
                    puzzle_type := "lichess_puzzle";
                    difficulty := get_difficulty_from_rating rating;
                    source := "lichess";
                    themes := Some (firstn 3 themes);
                    popularity := Some popularity;
                    solution_sequence := None;
                    move_index_in_sequence := None;
                    total_moves_in_sequence := None;
                    solution_description := None |} |}.

(** the body of the row loop: [None] is a [continue], [Some ps] reaches
    the [len(positions) >= 1000] test with [ps] appended *)
Definition lichess_row (row : Row) : option (list EvalPosition) :=
  match row !! "FEN", row !! "Moves" with
  | Some fen_s, Some moves_s =>
      match split_ws moves_s with
      | [] => Some []
      | correct_move :: _ =>
          match Board_of_fen fen_s with
          | None => None
          | Some board =>
              match from_uci correct_move with
              | None => None
              | Some move =>
                  if is_legal board move then
                    match row !! "Rating", row !! "PuzzleId" with
                    | Some rating_s, Some puzzle_id =>
                        Some [lichess_position fen_s correct_move puzzle_id
                                (int_or 1500 rating_s)
                                (split_ws (row_get row "Themes" EmptyString))
                                (int_or 0 (row_get row "Popularity" EmptyString))]
                    | _, _ => None
                    end
                  else Some []
              end
          end
      end
  | _, _ => None
  end.

(** [convert_gdm_puzzles]: the stored rating falls back to 0, the rating
    given to [get_difficulty_from_rating] to 1500 *)
Definition gdm_position (row_fen correct_move puzzle_id rating_s solution : string)
    : EvalPosition :=
  {| position_fen := row_fen;
     correct_move := correct_move;
     metadata := {| puzzle_id := puzzle_id;
                    rating := int_or 0 rating_s;
                    puzzle_type := "tactical_puzzle";
                    difficulty := get_difficulty_from_rating (int_or 1500 rating_s);
                    source := "gdm_searchless";
                    themes := None;
                    popularity := None;
                    solution_sequence := None;
                    move_index_in_sequence := None;
                    total_moves_in_sequence := None;
                    solution_description := Some solution |} |}.

Definition gdm_row (row : Row) : option (list EvalPosition) :=
  match row !! "FEN", row !! "Moves" with
  | Some fen_s, Some moves_s =>
      match split_ws moves_s with
      | [] => Some []
      | correct_move :: _ =>
          match Board_of_fen fen_s with
          | None => None
          | Some board =>
              match from_uci correct_move with
              | None => None
              | Some move =>
                  if is_legal board move then
                    match row !! "PuzzleId", row !! "Rating", row !! "Solution" with
                    | Some puzzle_id, Some rating_s, Some solution =>
                        Some [gdm_position fen_s correct_move puzzle_id rating_s solution]
                    | _, _, _ => None
                    end
                  else Some []
              end
          end
      end
  | _, _ => None
  end.

Fixpoint lichess_rows (rows : list Row) (positions : list EvalPosition)
    : list EvalPosition :=
  match rows with
  | [] => positions
  | row :: rest =>
      match lichess_row row with
      | None => lichess_rows rest positions
      | Some ps =>
          let positions := positions ++ ps in
          if 1000 <=? length positions then positions
          else lichess_rows rest positions
      end
  end.

Definition benchmark_data (positions : list EvalPosition) : BenchmarkArtifact :=
  {| name := "Lichess Puzzle Benchmark";
     description := "Tactical puzzle positions from Lichess.org for evaluating chess tactical ability";
     target_accuracy := 65;
     citation := "Lichess.org puzzle database";
     source_url := "https://database.lichess.org/";
     evaluation_methodology := None;
     artifact_positions := positions |}.

(** the row loop of [convert_gdm_puzzles], with the same test on
    [len(positions)] *)
Fixpoint gdm_rows (rows : list Row) (positions : list EvalPosition)
    : list EvalPosition :=
  match rows with
  | [] => positions
  | row :: rest =>
      match gdm_row row with
      | None => gdm_rows rest positions
      | Some ps =>
          let positions := positions ++ ps in
          if 1000 <=? length positions then positions
          else gdm_rows rest positions
      end
  end.

(** [subprocess.run(..., check=True)] raises on a non-zero exit code.
    [benchmarks_dir] tells whether the directory [benchmarks/] exists when
    the artifact is opened, after the [finally] clause has deleted the
    temporary file: the function does not create the directory, and
    [open(..., 'w')] in a directory that is missing raises
    [FileNotFoundError] and writes nothing. *)
Definition convert_lichess_puzzles (benchmarks_dir : bool) (temp_filename : string)
    (zstd : ZstdRun) (files : Files) : result nat * Files :=
  let files := <[temp_filename := CsvFile []]> files in
  match zstd with
  | ZstdNotStarted => (Raise FileNotFoundError, delete temp_filename files)
  | ZstdExited returncode written =>
      let files := <[temp_filename := CsvFile written]> files in
      if negb (returncode =? 0)%Z
      then (Raise (CalledProcessError returncode), delete temp_filename files)
      else
        let positions := lichess_rows written [] in
        let files := delete temp_filename files in
        if benchmarks_dir
        then (Ok (length positions),
              <[OUTPUT := JsonFile (benchmark_data positions)]> files)
        else (Raise FileNotFoundError, files)
  end.

End Run.

(** *** [convert_bigbench_checkmate] *)

(** the keys of ["metadata"] *)
Record CheckmateMetadata : Type := {
  checkmate_puzzle_type : string;
  checkmate_difficulty : string;
  checkmate_source : string;
  target_san : string
}.

(** one entry of ["positions"]: the keys ["fen"], ["correct_move"], ["metadata"] *)
Record CheckmatePosition : Type := {
  checkmate_fen : string;
  checkmate_correct_move : string;
  checkmate_metadata : CheckmateMetadata
}.

Section Checkmate.
Context {E : ChessEngine} {S : SanNotation E}.

(** The body of [for example in data['examples']].  An example is a JSON
    object, here the map of its members that are strings: a member that is
    missing or is no string raises inside the [try], as a game or a target
    that cannot be read does, and [None] is the [continue] of the handler. *)
Definition checkmate_example (example : gmap string string) : option CheckmatePosition :=
  match example !! "input" with
  | None => None
  | Some input =>
      match read_game_end input with
      | None => None
      | Some board =>
          match example !! "target" with
          | None => None
          | Some target =>
              match parse_san board target with
              | None => None
              | Some target_move =>
                  Some {| checkmate_fen := fen board;
                          checkmate_correct_move := uci target_move;
                          checkmate_metadata :=
                            {| checkmate_puzzle_type := "checkmate_in_one";
                               checkmate_difficulty := "varies";
                               checkmate_source := "big_bench";
                               target_san := target |} |}
              end
          end
      end
  end.

(** the [positions] list after the loop; there is no limit here *)
Fixpoint bigbench_examples (examples : list (gmap string string))
    : list CheckmatePosition :=
  match examples with
  | [] => []
  | example :: rest =>
      match checkmate_example example with
      | Some position => position :: bigbench_examples rest
      | None => bigbench_examples rest
      end
  end.

End Checkmate.
End ConvertBenchmarks.

(** ** A small engine to run the converters on concrete rows

    It tracks the piece placement and the side to move only.  A move is
    accepted when it takes a piece of the side to move to a square that this
    side does not hold, which every legal move in the usual move text does;
    a move text from a square to itself is no move, as in python-chess. *)

Module Placement.

Record board : Type := {
  squares : list ascii;          (* 64 squares, a8 first, h1 last *)
  white_to_move : bool;
  other_fields : list (list ascii)
}.

(** origin, target, promotion piece *)
Definition move : Type := nat * nat * option ascii.

Definition square (file rank : ascii) : option nat :=
  let f := nat_of_ascii file - 97 in
  let r := nat_of_ascii rank - 48 in
  if (97 <=? nat_of_ascii file) && (f <? 8) && (1 <=? r) && (r <=? 8)
  then Some ((8 - r) * 8 + f) else None.

Definition parse (mv : string) : option move :=
  let squares_of f0 r0 f1 r1 promo :=
    match square f0 r0, square f1 r1 with
    | Some a, Some b => if a =? b then None else Some (a, b, promo)
    | _, _ => None
    end in
  match chars mv with
  | [f0; r0; f1; r1] => squares_of f0 r0 f1 r1 None
  | [f0; r0; f1; r1; p] =>
      if existsb (Ascii.eqb p) (chars "pnbrqk") then squares_of f0 r0 f1 r1 (Some p)
      else None
  | _ => None
  end.

Definition is_white (c : ascii) : bool :=
  (65 <=? nat_of_ascii c) && (nat_of_ascii c <=? 90).
Definition is_black (c : ascii) : bool :=
  (97 <=? nat_of_ascii c) && (nat_of_ascii c <=? 122).
Definition own (b : board) (c : ascii) : bool :=
  if white_to_move b then is_white c else is_black c.

Definition accepts (b : board) (m : move) : bool :=
  let '(a, t, _) := m in
  match squares b !! a, squares b !! t with
  | Some p, Some q => own b p && negb (own b q)
  | _, _ => false
  end.

Definition play (b : board) (m : move) : option board :=
  let '(a, t, promo) := m in
  match squares b !! a with
  | Some p =>
      if Ascii.eqb p FILL then None
      else
        let placed :=
          match promo with
          | Some q => if white_to_move b then ascii_of_nat (nat_of_ascii q - 32) else q
          | None => p
          end in
        Some {| squares := <[a := FILL]> (<[t := placed]> (squares b));
                white_to_move := negb (white_to_move b);
                other_fields := other_fields b |}
  | None => None
  end.

Definition render (b : board) : string :=
  text (join SPACE (Fen.decode_placement (squares b)
                    :: chars (if white_to_move b then "w" else "b")
                    :: other_fields b)).

Definition load (fen : string) : option board :=
  match split_on SPACE (chars fen) with
  | [p; t; c; e; h; f] =>
      let sq := encode_placement p in
      if (length sq =? 64) && Fen.valid_turn t
      then Some {| squares := sq;
                   white_to_move := String.eqb (text t) "w";
                   other_fields := [c; e; h; f] |}
      else None
  | _ => None
  end.

(** the board of the start position *)
Definition start_board : board :=
  {| squares := encode_placement (chars "rnbqkbnr/pppppppp/8/8/8/8/PPPPPPPP/RNBQKBNR");
     white_to_move := true;
     other_fields := [chars "KQkq"; chars "-"; chars "0"; chars "1"] |}.

(** only the game without moves, written ["*"], is read *)
Definition read_pgn (pgn : string) : option board :=
  if String.eqb pgn "*" then load Fen.START_FEN else None.

Definition engine : ChessEngine := {|
  Board := board;
  Move := move;
  Board_of_fen := load;
  from_uci := parse;
  is_legal := accepts;
  push := play;
  fen := render;
  read_game_end := read_pgn
|}.

End Placement.

(** ** The same engine with moves that can be written out

    For [parse_san] and [uci] a move is its own text in coordinates, and the
    text 0000 is the null move, which no board accepts as legal.  As in
    python-chess, [parse_san] reads the four null-move texts as the null
    move and takes a move in coordinates when it is legal. *)

Module TextMoves.

Definition NULL : string := "0000".

Definition read (mv : string) : option string :=
  if String.eqb mv NULL then Some mv
  else match Placement.parse mv with
       | Some _ => Some mv
       | None => None
       end.

Definition accepts (b : Placement.board) (mv : string) : bool :=
  match Placement.parse mv with
  | Some m => Placement.accepts b m
  | None => false
  end.

(** pushing the null move passes the turn *)
Definition play (b : Placement.board) (mv : string) : option Placement.board :=
  if String.eqb mv NULL
  then Some {| Placement.squares := Placement.squares b;
               Placement.white_to_move := negb (Placement.white_to_move b);
               Placement.other_fields := Placement.other_fields b |}
  else match Placement.parse mv with
       | Some m => Placement.play b m
       | None => None
       end.

Definition read_san (b : Placement.board) (san : string) : option string :=
  if existsb (String.eqb san) ["--"; "Z0"; "0000"; "@@@@"] then Some NULL
  else if accepts b san then Some san
  else None.

Definition engine : ChessEngine := {|
  Board := Placement.board;
  Move := string;
  Board_of_fen := Placement.load;
  from_uci := read;
  is_legal := accepts;
  push := play;
  fen := Placement.render;
  read_game_end := Placement.read_pgn
|}.

Definition san : SanNotation engine := {|
  parse_san := read_san : @Board engine -> string -> option (@Move engine);
  uci := fun move : @Move engine => move : string
|}.

End TextMoves.

(** ** [check_vocab.py]: the research vocabulary and the comparison *)

Module CheckVocab.

Definition research_vocab : list string :=
  ["-"; "."; "0"; "1"; "2"; "3"; "4"; "5"; "6"; "7"; "8"; "9";
   "B"; "K"; "N"; "P"; "Q"; "R";
   "a"; "b"; "c"; "d"; "e"; "f"; "g"; "h"; "k"; "n"; "p"; "q"; "r"; "w"].

(** [{token: i for i, token in enumerate(research_vocab)}]: a later
    occurrence of a token would replace an earlier one *)
Definition enumerate_dict (tokens : list string) : gmap string nat :=
  fold_left (fun d it => <[snd it := fst it]> d)
    (combine (seq 0 (length tokens)) tokens) ∅.

Definition research_vocab_dict : gmap string nat := enumerate_dict research_vocab.

(** the two kinds of line appended to [differences] *)
Inductive Difference : Type :=
| IdDiffers (token : string) (demo : Z) (research : nat)
| NotInResearch (token : string) (demo : Z).

(** the body of [for token, demo_id in demo_vocab.items()] *)
Definition difference_of (item : string * Z) : list Difference :=
  let '(token, demo_id) := item in
  match research_vocab_dict !! token with
  | Some research_id =>
      if negb (demo_id =? Z.of_nat research_id)%Z
      then [IdDiffers token demo_id research_id] else []
  | None =>
      if (demo_id <? 32)%Z then [NotInResearch token demo_id] else []
  end.

(** [demo_vocab] is the JSON object [tokenizer['model']['vocab']], its items
    in the order of the file *)
Definition differences (demo_vocab : list (string * Z)) : list Difference :=
  flat_map difference_of demo_vocab.

(** the character is a token of the research vocabulary *)
Definition in_research_vocab (c : ascii) : bool :=
  existsb (String.eqb (String c EmptyString)) research_vocab.

End CheckVocab.

(** ** [reference_implementation.py]: the generation loop of the
    environment task

    The model and the tokenizer are outside the repository: the greedy step
    ([session.run] on the ids so far, then [argmax] of the last logits) and
    [tokenizer.decode] of one id are parameters. *)

Module ReferenceImplementation.
Section Generation.
Variable next_token : list Z -> Z.
Variable decode_token : Z -> string.

(** [token_text == "+"] *)
Definition is_plus (token_id : Z) : bool := String.eqb (decode_token token_id) "+".

(** the [for i in range(150)] loop of [test_rookworld_environment] with
    [fuel] rounds left *)
Fixpoint environment_loop (fuel : nat) (generated_ids : list Z) (plus_count : nat)
    : list Z :=
  match fuel with
  | 0 => generated_ids
  | S fuel' =>
      let next_token_id := next_token generated_ids in
      let generated_ids := generated_ids ++ [next_token_id] in
      if is_plus next_token_id then
        if 4 <=? S plus_count then generated_ids                     (* break *)
        else environment_loop fuel' generated_ids (S plus_count)
      else environment_loop fuel' generated_ids plus_count
  end.

(** [generated_ids] after the loop, from the ids of the prompt *)
Definition environment_ids (prompt_ids : list Z) : list Z :=
  environment_loop 150 prompt_ids 0.

(** [text.split("B:")[-1]] when ["B:" in text]: what follows the last
    occurrence of the marker; [None] when the marker does not occur *)
Fixpoint after_last_marker (s : list ascii) : option (list ascii) :=
  match s with
  | [] => None
  | c :: rest =>
      match after_last_marker rest with
      | Some tail => Some tail
      | None =>
          match rest with
          | d :: tail =>
              if Ascii.eqb c (ch "B") && Ascii.eqb d (ch ":") then Some tail else None
          | [] => None
          end
      end
  end.

(** ["B:" in generated_text and len(generated_text.split("B:")[-1]) > 5] *)
Definition best_move_written (generated_text : string) : bool :=
  match after_last_marker (chars generated_text) with
  | Some tail => 5 <? length tail
  | None => false
  end.

(** [generated_text += token_text] over the ids appended so far *)
Definition generated_text_of (text : string) (new_ids : list Z) : string :=
  fold_left (fun text token_id => text +:+ decode_token token_id) new_ids text.

(** the [for i in range(100)] loop of [test_rook_lm_policy] and of
    [test_rookworld_policy] with [fuel] rounds left *)
Fixpoint policy_loop (fuel : nat) (generated_ids : list Z) (generated_text : string)
    : list Z :=
  match fuel with
  | 0 => generated_ids
  | S fuel' =>
      let next_token_id := next_token generated_ids in
      let generated_ids := generated_ids ++ [next_token_id] in
      let generated_text := generated_text +:+ decode_token next_token_id in
      if best_move_written generated_text then generated_ids         (* break *)
      else policy_loop fuel' generated_ids generated_text
  end.

Definition policy_ids (prompt_ids : list Z) : list Z :=
  policy_loop 100 prompt_ids EmptyString.

End Generation.
End ReferenceImplementation.

(** ** Concrete rows *)

Module Examples.

(** the start position with the moves e2e4, e7e5, g1f3 *)
Definition scenario_row : Row :=
  {[ "PuzzleId" := "s0001"; "FEN" := Fen.START_FEN;
     "Moves" := "e2e4 e7e5 g1f3"; "Rating" := "1200";
     "PGN" := "*"; "Solution" := "e5" ]}.

(** a solution whose second move is not a move text *)
Definition unparsable_row : Row :=
  {[ "PuzzleId" := "u0001"; "FEN" := Fen.START_FEN;
     "Moves" := "e2e4 xxxx e7e5 g1f3"; "Rating" := "1200";
     "PGN" := "*"; "Solution" := "Nf3" ]}.

(** a first move from a square to itself, and a rating that is no number *)
Definition same_square_row : Row :=
  {[ "PuzzleId" := "q0001"; "FEN" := Fen.START_FEN;
     "Moves" := "a1a1"; "Rating" := "unrated" ]}.

(** the same puzzle with a rating field that is no number *)
Definition unrated_row : Row := <["Rating" := "unrated"]> scenario_row.

(** the same puzzle under another id *)
Definition second_row : Row := <["PuzzleId" := "s0002"]> scenario_row.

(** a row without moves *)
Definition empty_row : Row :=
  {[ "PuzzleId" := "e0001"; "FEN" := Fen.START_FEN;
     "Moves" := EmptyString; "Rating" := "900"; "PGN" := "*"; "Solution" := "none" ]}.

(** the scenario row of a file that has the columns Themes and Popularity *)
Definition themed_row : Row :=
  <["Themes" := "mate mateIn2 short endgame"]> (<["Popularity" := "-12"]> scenario_row).

(** Big-Bench examples on the game without moves: a target in
    coordinates, and a target that is a null-move text *)
Definition coordinate_target_example : gmap string string :=
  {[ "input" := "*"; "target" := "e2e4" ]}.

Definition null_target_example : gmap string string :=
  {[ "input" := "*"; "target" := "--" ]}.

End Examples.

(** * Properties *)

(** ** The definitions at work *)

Example encode_start_position :
  process_fen_rook_style Fen.START_FEN
  = Ok "rnbqkbnrpppppppp................................PPPPPPPPRNBQKBNRwKQkq-.0..1..".
Proof. reflexivity. Qed.

Example encode_long_clock :
  process_fen_rook_style Fen.LONG_CLOCK_FEN
  = Ok "....k.......................................................K..RwK...-.100.120".
Proof. reflexivity. Qed.

Example decode_start_position :
  map text (Fen.decode_rook_style
    "rnbqkbnrpppppppp................................PPPPPPPPRNBQKBNRwKQkq-.0..1..")
  = ["rnbqkbnr/pppppppp/8/8/8/8/PPPPPPPP/RNBQKBNR"; "w"; "KQkq"; "-"; "0"; "1"].
Proof. reflexivity. Qed.

Example split_moves : split_ws "  e2e4 e7e5   g1f3 " = ["e2e4"; "e7e5"; "g1f3"].
Proof. reflexivity. Qed.

Example rating_buckets :
  map get_difficulty_from_rating [999; 1000; 1499; 1500; 1999; 2000; 2499; 2500]%Z
  = ["beginner"; "easy"; "easy"; "medium"; "medium"; "hard"; "hard"; "expert"].
Proof. reflexivity. Qed.

Example plausible_moves :
  map is_plausible_uci ["e2e4"; "e7e8q"; "a1a1"; "e7e8k"; "xxxx"; "e2"; EmptyString]
  = [true; true; true; false; false; false; false].
Proof. reflexivity. Qed.

(** the limit 1 stops the loop after the first puzzle that adds a record;
    the row without moves before it does not *)
Example limit_stops_the_loop :
  elements (seen_puzzles
    (lichess_rows (E := Placement.engine) true 1
       [Examples.empty_row; Examples.scenario_row; Examples.second_row]))
  = ["s0001"].
Proof. vm_compute. reflexivity. Qed.

Example limit_two_takes_both :
  map (fun p => puzzle_id (metadata p))
    (positions (gdm_rows (E := Placement.engine) 2
                  [Examples.scenario_row; Examples.empty_row; Examples.second_row]))
  = ["s0001"; "s0002"].
Proof. vm_compute. reflexivity. Qed.

(** ** Text helpers *)

Section TextFacts.

Lemma length_text (l : list ascii) : String.length (text l) = length l.
Proof. induction l as [|c l IH]; simpl; [reflexivity | now rewrite IH]. Qed.

Lemma chars_text (l : list ascii) : chars (text l) = l.
Proof. apply String.list_ascii_of_string_of_list_ascii. Qed.

Lemma text_chars (s : string) : text (chars s) = s.
Proof. apply String.string_of_list_ascii_of_string. Qed.

Lemma length_ljust (width : nat) (s : list ascii) :
  length (ljust width s) = Nat.max width (length s).
Proof. unfold ljust. rewrite length_app, repeat_length. lia. Qed.

Lemma split_on_nonempty (sep : ascii) (s : list ascii) : split_on sep s <> [].
Proof.
  destruct s as [|c s]; simpl; [discriminate|].
  destruct (Ascii.eqb c sep); [discriminate|].
  destruct (split_on sep s); discriminate.
Qed.

Lemma join_split_on (sep : ascii) (s : list ascii) :
  join sep (split_on sep s) = s.
Proof.
  induction s as [|c s IH]; simpl; [reflexivity|].
  pose proof (split_on_nonempty sep s) as Hn.
  destruct (Ascii.eqb_spec c sep) as [->|Hne];
    destruct (split_on sep s) as [|w ws]; try congruence.
  - simpl in *. now rewrite IH.
  - destruct ws as [|w' ws]; simpl in *; now rewrite <- IH.
Qed.

Lemma firstn_app_exact (n : nat) (a b : list ascii) :
  length a = n -> firstn n (a ++ b) = a.
Proof.
  intros <-. induction a as [|x a IH]; simpl; [apply firstn_O | now rewrite IH].
Qed.

Lemma skipn_app_exact (n : nat) (a b : list ascii) :
  length a = n -> skipn n (a ++ b) = b.
Proof. intros <-. induction a as [|x a IH]; simpl; auto. Qed.

(** a character found in [l] inherits what holds of all of [l] *)
Lemma existsb_forallb (P : ascii -> bool) (c : ascii) (l : list ascii) :
  existsb (Ascii.eqb c) l = true -> forallb P l = true -> P c = true.
Proof.
  induction l as [|x l IH]; simpl; [discriminate|].
  intros Hex Hall. apply andb_true_iff in Hall as [Hx Hl].
  apply orb_true_iff in Hex as [Heq|Hex]; [|now apply IH].
  apply Ascii.eqb_eq in Heq. now subst.
Qed.

Lemma digit_char_value (c : ascii) :
  is_digit c = true -> digit_char (digit_value c) = c.
Proof.
  unfold is_digit, digit_char, digit_value. intros H.
  apply andb_true_iff in H as [Hlo _]. apply Nat.leb_le in Hlo.
  replace (48 + (nat_of_ascii c - 48)) with (nat_of_ascii c) by lia.
  apply ascii_nat_embedding.
Qed.

Lemma is_digit_not_fill (c : ascii) :
  is_digit c = true -> Ascii.eqb c FILL = false.
Proof.
  intros H. destruct (Ascii.eqb_spec c FILL) as [->|]; [discriminate H | reflexivity].
Qed.

End TextFacts.

(** ** The encoder, field by field *)

Section EncoderFacts.

Lemma length_expand_digit (c : ascii) :
  length (expand_digit c) = if is_digit c then digit_value c else 1.
Proof. unfold expand_digit. destruct (is_digit c); [apply repeat_length | reflexivity]. Qed.

Lemma length_sub_digits (r : list ascii) :
  length (sub_digits r) = Fen.rank_squares r.
Proof.
  induction r as [|c r IH]; simpl; [reflexivity|].
  rewrite length_app, length_expand_digit. f_equal. exact IH.
Qed.

Lemma remove_slashes_fill (n : nat) :
  remove_slashes (repeat FILL n) = repeat FILL n.
Proof. induction n as [|n IH]; simpl; [reflexivity | f_equal; exact IH]. Qed.

Lemma remove_slashes_expand (c : ascii) :
  Ascii.eqb c SLASH = false -> remove_slashes (expand_digit c) = expand_digit c.
Proof.
  intros Hc. unfold expand_digit. destruct (is_digit c).
  - apply remove_slashes_fill.
  - simpl. now rewrite Hc.
Qed.

(** expanding the digits and dropping the separators works rank by rank *)
Lemma encode_placement_ranks (p : list ascii) :
  encode_placement p = concat (map sub_digits (split_on SLASH p)).
Proof.
  unfold encode_placement.
  induction p as [|c p IH]; [reflexivity|].
  cbn [sub_digits flat_map split_on].
  unfold remove_slashes in *. rewrite List.filter_app.
  fold (sub_digits p). rewrite IH.
  pose proof (split_on_nonempty SLASH p) as Hn.
  destruct (Ascii.eqb c SLASH) eqn:Hc.
  - apply Ascii.eqb_eq in Hc. subst c. reflexivity.
  - fold (remove_slashes (expand_digit c)). rewrite remove_slashes_expand by exact Hc.
    destruct (split_on SLASH p) as [|w ws]; [congruence|].
    cbn [map concat sub_digits flat_map]. now rewrite <- app_assoc.
Qed.

Lemma length_concat_uniform (w : nat) (L : list (list ascii)) :
  Forall (fun x => length x = w) L -> length (concat L) = length L * w.
Proof.
  induction 1 as [|x L Hx _ IH]; simpl; [reflexivity|].
  rewrite length_app, IH, Hx. reflexivity.
Qed.

Lemma valid_ranks_width (ranks : list (list ascii)) :
  forallb Fen.valid_rank ranks = true ->
  Forall (fun x => length x = 8) (map sub_digits ranks).
Proof.
  intros H. apply List.Forall_map, List.Forall_forall. intros r Hr.
  rewrite forallb_forall in H. specialize (H r Hr).
  unfold Fen.valid_rank in H. apply andb_true_iff in H as [_ Hsq].
  apply Nat.eqb_eq in Hsq. now rewrite length_sub_digits.
Qed.

Lemma length_encode_placement (p : list ascii) :
  Fen.valid_placement p = true -> length (encode_placement p) = 64.
Proof.
  unfold Fen.valid_placement. intros H.
  apply andb_true_iff in H as [Hlen Hranks]. apply Nat.eqb_eq in Hlen.
  rewrite encode_placement_ranks.
  rewrite (length_concat_uniform 8) by now apply valid_ranks_width.
  rewrite length_map, Hlen. reflexivity.
Qed.

Lemma valid_turn_cases (t : list ascii) :
  Fen.valid_turn t = true -> t = chars "w" \/ t = chars "b".
Proof.
  unfold Fen.valid_turn. simpl. rewrite !orb_true_iff, !String.eqb_eq.
  intros [H|[H|H]]; [left | right | discriminate];
    rewrite <- (chars_text t), H; reflexivity.
Qed.

Lemma valid_castling_cases (c : list ascii) :
  Fen.valid_castling c = true -> In c (map chars Fen.castling_fields).
Proof.
  unfold Fen.valid_castling. intros H.
  apply existsb_exists in H as (s & Hs & Heq).
  apply String.eqb_eq in Heq. subst s.
  rewrite <- (chars_text c) at 1. now apply in_map.
Qed.

Lemma length_valid_castling (c : list ascii) :
  Fen.valid_castling c = true -> length c <= 4.
Proof.
  intros H. apply valid_castling_cases in H. simpl in H.
  repeat (destruct H as [<-|H]; [simpl; lia|]). destruct H.
Qed.

Lemma length_valid_en_passant (e : list ascii) :
  Fen.valid_en_passant e = true -> length e <= 2.
Proof. destruct e as [|a [|b [|c e]]]; simpl; intros; (lia || discriminate). Qed.

Lemma length_encode_fields (p t c e h f : list ascii) :
  length (encode_fields p t c e h f)
  = length (encode_placement p) + length t + Nat.max 4 (length c)
    + Nat.max 2 (length e) + (Nat.max 2 (length h) + 1) + Nat.max 3 (length f).
Proof.
  unfold encode_fields. cbn [concat].
  rewrite !length_app, !length_ljust. simpl. lia.
Qed.

End EncoderFacts.

(** ** The inverse decoder undoes the encoder *)

Section DecoderFacts.
Import Fen.

Lemma compress_fill (v k : nat) (rest : list ascii) :
  compress k (repeat FILL v ++ rest) = compress (k + v) rest.
Proof.
  revert k. induction v as [|v IH]; intros k; simpl.
  - now rewrite Nat.add_0_r.
  - rewrite IH. f_equal. lia.
Qed.

Lemma piece_not_fill (c : ascii) :
  is_piece c = true -> Ascii.eqb c FILL = false /\ is_digit c = false.
Proof.
  intros H. split.
  - apply negb_true_iff.
    apply (existsb_forallb (fun x => negb (Ascii.eqb x FILL)) c _ H). reflexivity.
  - apply negb_true_iff.
    apply (existsb_forallb (fun x => negb (is_digit x)) c _ H). reflexivity.
Qed.

(** A well-formed rank is recovered from its squares; when it starts
    with a piece, a pending run is written out before it. *)
Lemma compress_sub_digits (r : list ascii) :
  rank_wf r = true ->
  compress 0 (sub_digits r) = r /\
  (starts_with_digit r = false -> forall k, compress k (sub_digits r) = flush k ++ r).
Proof.
  induction r as [|c r IH]; intros Hwf.
  - split; [reflexivity|]. intros _ k. simpl. now rewrite app_nil_r.
  - cbn [rank_wf] in Hwf. cbn [sub_digits flat_map]. fold (sub_digits r).
    destruct (is_piece c) eqn:Hp.
    + destruct (piece_not_fill c Hp) as [Hnf Hnd].
      destruct (IH Hwf) as [IH0 _].
      unfold expand_digit. rewrite Hnd. cbn [app compress]. rewrite Hnf, IH0.
      split; [reflexivity | intros _ k; reflexivity].
    + apply andb_true_iff in Hwf as [Hwf Hr]. apply andb_true_iff in Hwf as [Hgap Hnext].
      apply negb_true_iff in Hnext.
      unfold is_gap in Hgap.
      apply andb_true_iff in Hgap as [Hgap Hhi]. apply andb_true_iff in Hgap as [Hd Hlo].
      apply Nat.leb_le in Hlo.
      destruct (IH Hr) as [_ IHk].
      split.
      * unfold expand_digit. rewrite Hd, compress_fill, (IHk Hnext). simpl.
        assert (Hf : flush (digit_value c) = [digit_char (digit_value c)])
          by (destruct (digit_value c); [lia | reflexivity]).
        rewrite Hf, digit_char_value by exact Hd. reflexivity.
      * simpl. rewrite Hd. discriminate.
Qed.

Lemma chunks_concat (w : nat) (L : list (list ascii)) :
  Forall (fun x => length x = w) L -> chunks (length L) w (concat L) = L.
Proof.
  induction 1 as [|x L Hx _ IH]; simpl; [reflexivity|].
  rewrite (firstn_app_exact w x _ Hx), (skipn_app_exact w x _ Hx), IH. reflexivity.
Qed.

Lemma decode_encode_placement (p : list ascii) :
  valid_placement p = true -> decode_placement (encode_placement p) = p.
Proof.
  intros H. pose proof H as H'. unfold valid_placement in H'.
  apply andb_true_iff in H' as [Hlen Hranks]. apply Nat.eqb_eq in Hlen.
  unfold decode_placement. rewrite encode_placement_ranks.
  replace 8 with (length (map sub_digits (split_on SLASH p))) at 1
    by now rewrite length_map.
  rewrite chunks_concat by now apply valid_ranks_width.
  rewrite map_map.
  rewrite (map_ext_in _ (fun r => r)), map_id; [apply join_split_on|].
  intros r Hr. rewrite forallb_forall in Hranks. specialize (Hranks r Hr).
  unfold valid_rank in Hranks. apply andb_true_iff in Hranks as [Hwf _].
  exact (proj1 (compress_sub_digits r Hwf)).
Qed.

Lemma strip_fill_padding (s : list ascii) (k : nat) :
  no_fill s = true -> strip_fill (s ++ repeat FILL k) = s.
Proof.
  intros Hs. unfold strip_fill. rewrite List.filter_app.
  replace (List.filter _ (repeat FILL k)) with (@nil ascii).
  - rewrite app_nil_r. induction s as [|c s IH]; [reflexivity|].
    simpl in *. apply andb_true_iff in Hs as [Hc Hs]. rewrite Hc. f_equal. now apply IH.
  - induction k as [|k IH]; simpl; [reflexivity | exact IH].
Qed.

Lemma strip_fill_ljust (w : nat) (s : list ascii) :
  no_fill s = true -> strip_fill (ljust w s) = s.
Proof. apply strip_fill_padding. Qed.

Lemma no_fill_turn (t : list ascii) : valid_turn t = true -> no_fill t = true.
Proof. intros H. destruct (valid_turn_cases t H) as [->| ->]; reflexivity. Qed.

Lemma no_fill_castling (c : list ascii) : valid_castling c = true -> no_fill c = true.
Proof.
  intros H. apply valid_castling_cases in H. simpl in H.
  repeat (destruct H as [<-|H]; [reflexivity|]). destruct H.
Qed.

Lemma no_fill_en_passant (e : list ascii) : valid_en_passant e = true -> no_fill e = true.
Proof.
  destruct e as [|a [|b [|c e]]]; unfold valid_en_passant; try discriminate.
  - intros H. apply Ascii.eqb_eq in H. now subst.
  - intros H. apply andb_true_iff in H as [Ha Hb].
    cbn [no_fill forallb].
    rewrite (existsb_forallb (fun x => negb (Ascii.eqb x FILL)) a _ Ha eq_refl).
    rewrite (existsb_forallb (fun x => negb (Ascii.eqb x FILL)) b _ Hb eq_refl).
    reflexivity.
Qed.

Lemma no_fill_number (n : list ascii) : valid_number n = true -> no_fill n = true.
Proof.
  unfold valid_number. destruct n as [|d n]; [discriminate|].
  generalize (d :: n). clear. intros l H. unfold no_fill.
  induction l as [|c l IH]; [reflexivity|]. simpl in *.
  apply andb_true_iff in H as [Hc Hl].
  now rewrite (is_digit_not_fill c Hc), IH.
Qed.

(** cutting a string of six columns at the fixed offsets gives the columns *)
Lemma regroup (P T C E H F : list ascii) :
  length P = 64 -> length T = 1 -> length C = 4 ->
  length E = 2 -> length H = 3 -> length F = 3 ->
  let s := P ++ T ++ C ++ E ++ H ++ F in
  firstn 64 s = P /\ firstn 1 (skipn 64 s) = T /\ firstn 4 (skipn 65 s) = C /\
  firstn 2 (skipn 69 s) = E /\ firstn 3 (skipn 71 s) = H /\ firstn 3 (skipn 74 s) = F.
Proof.
  intros HP HT HC HE HH HF s. subst s.
  assert (S64 : skipn 64 (P ++ T ++ C ++ E ++ H ++ F) = T ++ C ++ E ++ H ++ F)
    by now apply skipn_app_exact.
  assert (S65 : skipn 65 (P ++ T ++ C ++ E ++ H ++ F) = C ++ E ++ H ++ F).
  { change 65 with (1 + 64). rewrite <- skipn_skipn, S64. now apply skipn_app_exact. }
  assert (S69 : skipn 69 (P ++ T ++ C ++ E ++ H ++ F) = E ++ H ++ F).
  { change 69 with (4 + 65). rewrite <- skipn_skipn, S65. now apply skipn_app_exact. }
  assert (S71 : skipn 71 (P ++ T ++ C ++ E ++ H ++ F) = H ++ F).
  { change 71 with (2 + 69). rewrite <- skipn_skipn, S69. now apply skipn_app_exact. }
  assert (S74 : skipn 74 (P ++ T ++ C ++ E ++ H ++ F) = F).
  { change 74 with (3 + 71). rewrite <- skipn_skipn, S71. now apply skipn_app_exact. }
  rewrite S64, S65, S69, S71, S74.
  repeat split; try now apply firstn_app_exact.
  rewrite <- (app_nil_r F) at 1. now apply firstn_app_exact.
Qed.

End DecoderFacts.

(** ** The encoder on six fields *)

Section EncoderClaims.
Import Fen.

Lemma process_fen_on_fields (fen : string) (p t c e h f : list ascii) :
  fields_of fen = [p; t; c; e; h; f] ->
  process_fen_rook_style fen = Ok (text (encode_fields p t c e h f)).
Proof. unfold process_fen_rook_style, fields_of. now intros ->. Qed.

Lemma valid_fen_fields (fen : string) :
  valid_fen fen = true ->
  exists p t c e h f,
    fields_of fen = [p; t; c; e; h; f] /\ valid_fields p t c e h f = true.
Proof.
  unfold valid_fen.
  destruct (fields_of fen) as [|p [|t [|c [|e [|h [|f [|g l]]]]]]]; try discriminate.
  intros H. now exists p, t, c, e, h, f.
Qed.

Lemma valid_fields_parts (p t c e h f : list ascii) :
  valid_fields p t c e h f = true ->
  valid_placement p = true /\ valid_turn t = true /\ valid_castling c = true /\
  valid_en_passant e = true /\ valid_number h = true /\ valid_number f = true.
Proof. unfold valid_fields. rewrite !andb_true_iff. tauto. Qed.

(** the six columns of the output and their widths, for a valid position
    whose clocks fit *)
Lemma encoder_columns (p t c e h f : list ascii) :
  valid_fields p t c e h f = true -> length h <= 2 -> length f <= 3 ->
  length (encode_placement p) = 64 /\ length t = 1 /\ length (ljust 4 c) = 4 /\
  length (ljust 2 e) = 2 /\ length (ljust 2 h ++ [FILL]) = 3 /\ length (ljust 3 f) = 3.
Proof.
  intros Hv Hh Hf.
  destruct (valid_fields_parts _ _ _ _ _ _ Hv) as (Hp & Ht & Hc & He & _ & _).
  pose proof (length_valid_castling c Hc). pose proof (length_valid_en_passant e He).
  rewrite length_app, !length_ljust. simpl.
  repeat split; try lia.
  - now apply length_encode_placement.
  - destruct (valid_turn_cases t Ht) as [->| ->]; reflexivity.
Qed.

(** the length of the output of a valid position, whatever its clocks *)
Lemma encoder_length_formula (fen : string) (p t c e h f : list ascii) :
  fields_of fen = [p; t; c; e; h; f] ->
  valid_fields p t c e h f = true ->
  exists out, process_fen_rook_style fen = Ok out /\
    String.length out = 72 + Nat.max 2 (length h) + Nat.max 3 (length f).
Proof.
  intros Hsplit Hv. exists (text (encode_fields p t c e h f)). split.
  { now apply process_fen_on_fields. }
  destruct (valid_fields_parts _ _ _ _ _ _ Hv) as (Hp & Ht & Hc & He & _ & _).
  pose proof (length_valid_castling c Hc). pose proof (length_valid_en_passant e He).
  rewrite length_text, length_encode_fields, (length_encode_placement p Hp).
  assert (length t = 1) by (destruct (valid_turn_cases t Ht) as [->| ->]; reflexivity).
  lia.
Qed.

End EncoderClaims.

(** C10.  [process_fen_rook_style] is defined exactly on the inputs that
    split on single spaces into six fields: with six fields it returns a
    string; with fewer or more the initial unpacking raises [ValueError]
    ("not enough values" or "too many values") and nothing else is run. *)
Theorem C10_six_fields_or_unpack_error (fen : string) :
  (length (Fen.fields_of fen) = 6 ->
   exists out, process_fen_rook_style fen = Ok out) /\
  (length (Fen.fields_of fen) < 6 ->
   process_fen_rook_style fen
   = Raise (ValueError_not_enough_values 6 (length (Fen.fields_of fen)))) /\
  (6 < length (Fen.fields_of fen) ->
   process_fen_rook_style fen = Raise (ValueError_too_many_values 6)).
Proof.
  unfold process_fen_rook_style, Fen.fields_of.
  destruct (split_on SPACE (chars fen)) as [|p [|t [|c [|e [|h [|f [|g l]]]]]]];
    cbn [length]; repeat split; intros Hn; try lia; try reflexivity.
  eexists; reflexivity.
Qed.

(** the start position, a three-field and a seven-field input *)
Lemma C10_six_fields_witness :
  (exists out, process_fen_rook_style Fen.START_FEN = Ok out) /\
  process_fen_rook_style "8/8 w -" = Raise (ValueError_not_enough_values 6 3) /\
  process_fen_rook_style "8/8 w - - 0 1 extra" = Raise (ValueError_too_many_values 6).
Proof.
  split; [|split].
  - apply (C10_six_fields_or_unpack_error Fen.START_FEN). reflexivity.
  - apply (C10_six_fields_or_unpack_error "8/8 w -"). vm_compute. lia.
  - apply (C10_six_fields_or_unpack_error "8/8 w - - 0 1 extra"). vm_compute. lia.
Defined.

(** C4 fails as stated: the halfmove clock of a valid position can have
    three digits, [ljust] never cuts, and the output is then 78 characters. *)
Lemma C4_long_clock_counterexample :
  Fen.valid_fen Fen.LONG_CLOCK_FEN = true /\
  ~ (exists out, process_fen_rook_style Fen.LONG_CLOCK_FEN = Ok out /\
                 String.length out = 77).
Proof.
  split; [reflexivity|].
  intros (out & Hout & Hlen). vm_compute in Hout.
  injection Hout as <-. vm_compute in Hlen. discriminate.
Qed.

(** C4, amended.  For every valid six-field position whose halfmove clock
    has at most two digits and whose fullmove number has at most three, the
    encoder's output has exactly 77 characters; for the start position the
    castling column is [KQkq] without padding and the en-passant column is
    [-.], one filler appended. *)
Theorem C4_encoder_length_77 :
  (forall fen : string,
     Fen.valid_fen fen = true -> Fen.clocks_fit fen = true ->
     exists out, process_fen_rook_style fen = Ok out /\ String.length out = 77) /\
  (exists out, process_fen_rook_style Fen.START_FEN = Ok out /\
     String.length out = 77 /\
     String.substring 65 4 out = "KQkq" /\ String.substring 69 2 out = "-.").
Proof.
  split.
  - intros fen Hv Hfit.
    destruct (valid_fen_fields fen Hv) as (p & t & c & e & h & f & Hsplit & Hfields).
    unfold Fen.clocks_fit in Hfit. rewrite Hsplit in Hfit.
    apply andb_true_iff in Hfit as [Hh Hf].
    apply Nat.leb_le in Hh. apply Nat.leb_le in Hf.
    exists (text (encode_fields p t c e h f)). split.
    + now apply process_fen_on_fields.
    + destruct (encoder_columns p t c e h f Hfields Hh Hf)
        as (Lp & Lt & Lc & Le & Lh & Lf).
      rewrite length_text. unfold encode_fields. cbn [concat].
      rewrite !length_app, Lp, Lt, Lc, Le, Lf.
      rewrite length_app in Lh. rewrite Lh. reflexivity.
  - eexists. split; [reflexivity|]. repeat split.
Qed.

(** the start position is valid and its clocks fit *)
Lemma C4_encoder_length_witness :
  exists out, process_fen_rook_style Fen.START_FEN = Ok out /\ String.length out = 77.
Proof.
  apply (proj1 C4_encoder_length_77 Fen.START_FEN); reflexivity.
Defined.

(** C5 fails as stated: with a three-digit halfmove clock the columns
    shift, and cutting at the fixed offsets returns [12] for the fullmove
    number [120]. *)
Lemma C5_long_clock_counterexample :
  Fen.valid_fen Fen.LONG_CLOCK_FEN = true /\
  ~ (exists out, process_fen_rook_style Fen.LONG_CLOCK_FEN = Ok out /\
                 Fen.decode_rook_style out = Fen.fields_of Fen.LONG_CLOCK_FEN).
Proof.
  split; [reflexivity|].
  intros (out & Hout & Hdec). vm_compute in Hout.
  injection Hout as <-. vm_compute in Hdec. discriminate.
Qed.

(** C5, amended.  For every valid six-field position whose halfmove clock
    has at most two digits and whose fullmove number has at most three,
    encoding and then decoding (cut at the widths 64/1/4/2/3/3, strip the
    filler, re-compress the placement and put the rank separators back)
    gives back the six fields. *)
Theorem C5_encode_decode_roundtrip (fen : string) :
  Fen.valid_fen fen = true -> Fen.clocks_fit fen = true ->
  exists out, process_fen_rook_style fen = Ok out /\
              Fen.decode_rook_style out = Fen.fields_of fen.
Proof.
  intros Hv Hfit.
  destruct (valid_fen_fields fen Hv) as (p & t & c & e & h & f & Hsplit & Hfields).
  unfold Fen.clocks_fit in Hfit. rewrite Hsplit in Hfit.
  apply andb_true_iff in Hfit as [Hh Hf].
  apply Nat.leb_le in Hh. apply Nat.leb_le in Hf.
  exists (text (encode_fields p t c e h f)). split.
  { now apply process_fen_on_fields. }
  destruct (encoder_columns p t c e h f Hfields Hh Hf) as (Lp & Lt & Lc & Le & Lh & Lf).
  destruct (valid_fields_parts _ _ _ _ _ _ Hfields) as (Vp & Vt & Vc & Ve & Vh & Vf).
  unfold Fen.decode_rook_style. rewrite chars_text, Hsplit.
  unfold encode_fields. cbn [concat]. rewrite app_nil_r.
  destruct (regroup _ _ _ _ _ _ Lp Lt Lc Le Lh Lf) as (R1 & R2 & R3 & R4 & R5 & R6).
  rewrite R1, R2, R3, R4, R5, R6.
  rewrite (decode_encode_placement p Vp).
  rewrite (strip_fill_ljust 4 c (no_fill_castling c Vc)).
  rewrite (strip_fill_ljust 2 e (no_fill_en_passant e Ve)).
  rewrite (strip_fill_ljust 3 f (no_fill_number f Vf)).
  replace (Fen.strip_fill t) with t.
  2:{ symmetry. rewrite <- (app_nil_r t) at 1.
      apply (strip_fill_padding t 0). now apply no_fill_turn. }
  replace (Fen.strip_fill (ljust 2 h ++ [FILL])) with h; [reflexivity|].
  symmetry. unfold ljust. rewrite <- app_assoc.
  change [FILL] with (repeat FILL 1). rewrite <- repeat_app.
  apply strip_fill_padding. now apply no_fill_number.
Qed.

(** the start position is recovered *)
Lemma C5_encode_decode_witness :
  exists out, process_fen_rook_style Fen.START_FEN = Ok out /\
              Fen.decode_rook_style out = Fen.fields_of Fen.START_FEN.
Proof.
  apply (C5_encode_decode_roundtrip Fen.START_FEN); reflexivity.
Defined.

(** ** Ratings *)

Section RatingFacts.

Lemma int_or_not_digit (default : Z) (s : string) :
  isdigit s = false -> int_or default s = default.
Proof. unfold int_or. now intros ->. Qed.

Lemma difficulty_buckets (r : Z) :
  ((r < 1000)%Z -> get_difficulty_from_rating r = "beginner") /\
  ((1000 <= r < 1500)%Z -> get_difficulty_from_rating r = "easy") /\
  ((1500 <= r < 2000)%Z -> get_difficulty_from_rating r = "medium") /\
  ((2000 <= r < 2500)%Z -> get_difficulty_from_rating r = "hard") /\
  ((2500 <= r)%Z -> get_difficulty_from_rating r = "expert").
Proof.
  unfold get_difficulty_from_rating.
  repeat split; intros H;
    destruct (Z.ltb_spec r 1000); try lia; try reflexivity;
    destruct (Z.ltb_spec r 1500); try lia; try reflexivity;
    destruct (Z.ltb_spec r 2000); try lia; try reflexivity;
    destruct (Z.ltb_spec r 2500); try lia; reflexivity.
Qed.

End RatingFacts.

(** ** The replay loops *)

Section ReplayFacts.
Context {E : ChessEngine}.
Variable mk : nat -> string -> string -> EvalPosition.

Lemma drop_eq_cons {A : Type} (l : list A) (i : nat) (x : A) (r : list A) :
  drop i l = x :: r -> l !! i = Some x /\ drop (S i) l = r.
Proof.
  revert l. induction i as [|i IH]; intros [|y l] H; simpl in *; try discriminate.
  - injection H as -> ->. split; [reflexivity | apply drop_0].
  - now apply IH.
Qed.

Lemma emitted_at_le (all : list string) (i i' : nat) (p : EvalPosition) :
  i <= i' -> emitted_at mk all i' p -> emitted_at mk all i p.
Proof.
  intros Hle (j & mv & b & m & ? & ? & ?). exists j, mv, b, m. repeat split; try tauto. lia.
Qed.

Lemma lichess_replay_emits (all : list string) :
  forall (rest : list string) (board : Board) (i : nat),
    drop i all = rest ->
    Forall (emitted_at mk all i) (lichess_replay mk board i rest).
Proof.
  induction rest as [|mv rest IH]; intros board i Hdrop; [constructor|].
  destruct (drop_eq_cons _ _ _ _ Hdrop) as [Hmv Hrest].
  cbn [lichess_replay]. apply Forall_app. split.
  - destruct (Nat.eqb_spec (i mod 2) 1) as [Hodd|]; [|constructor].
    destruct (from_uci mv) as [move|] eqn:Hp; [|constructor].
    destruct (is_legal board move) eqn:Hl; [|constructor].
    constructor; [|constructor].
    exists i, mv, board, move. repeat split; auto.
  - destruct (advance board mv) as [board'|]; [|constructor].
    eapply List.Forall_impl; [|apply (IH board' (S i) Hrest)].
    intros p. apply emitted_at_le. lia.
Qed.

Lemma gdm_replay_emits (all : list string) :
  forall (rest : list string) (board : Board) (i : nat),
    drop i all = rest ->
    Forall (emitted_at mk all i) (gdm_replay mk board i rest).
Proof.
  induction rest as [|mv rest IH]; intros board i Hdrop; [constructor|].
  destruct (drop_eq_cons _ _ _ _ Hdrop) as [Hmv Hrest].
  assert (Hnext : forall b', Forall (emitted_at mk all i) (gdm_replay mk b' (S i) rest)).
  { intros b'. eapply List.Forall_impl; [|apply (IH b' (S i) Hrest)].
    intros p. apply emitted_at_le. lia. }
  cbn [gdm_replay].
  destruct (Nat.eqb_spec (i mod 2) 1) as [Hodd|].
  - destruct (from_uci mv) as [move|] eqn:Hp; [|apply Hnext].
    apply Forall_app. split.
    + destruct (is_legal board move) eqn:Hl; [|constructor].
      constructor; [|constructor].
      exists i, mv, board, move. repeat split; auto.
    + destruct (advance board mv) as [board'|]; [apply Hnext | constructor].
  - simpl. destruct (advance board mv) as [board'|]; [apply Hnext | constructor].
Qed.

Lemma mod2_odd (i : nat) : (i mod 2 =? 1) = Nat.odd i.
Proof. rewrite <- Nat.bit0_mod, Nat.bit0_odd. now destruct (Nat.odd i). Qed.

Lemma odd_succ_negb (i : nat) : Nat.odd (S i) = negb (Nat.odd i).
Proof. now rewrite Nat.odd_succ, <- Nat.negb_odd. Qed.

(** at most one record for each odd index among [i], ..., [i + length rest - 1] *)
Lemma lichess_replay_count :
  forall (rest : list string) (board : Board) (i : nat),
    2 * length (lichess_replay mk board i rest)
    <= length rest + (if Nat.odd i then 1 else 0).
Proof.
  induction rest as [|mv rest IH]; intros board i.
  { simpl. lia. }
  cbn [lichess_replay]. rewrite length_app, mod2_odd.
  assert (Hrest : 2 * length (match advance board mv with
                              | Some b' => lichess_replay mk b' (S i) rest
                              | None => []
                              end) <= length rest + (if Nat.odd (S i) then 1 else 0)).
  { destruct (advance board mv); [apply IH | simpl; lia]. }
  rewrite odd_succ_negb in Hrest. cbn [length].
  destruct (Nat.odd i); cbn [negb] in Hrest.
  - destruct (from_uci mv) as [m|]; [destruct (is_legal board m)|]; simpl length; lia.
  - simpl length. lia.
Qed.

Lemma gdm_replay_count :
  forall (rest : list string) (board : Board) (i : nat),
    2 * length (gdm_replay mk board i rest)
    <= length rest + (if Nat.odd i then 1 else 0).
Proof.
  induction rest as [|mv rest IH]; intros board i.
  { simpl. lia. }
  cbn [gdm_replay length]. rewrite mod2_odd.
  assert (Hrest : 2 * length (match advance board mv with
                              | Some b' => gdm_replay mk b' (S i) rest
                              | None => []
                              end) <= length rest + (if Nat.odd (S i) then 1 else 0)).
  { destruct (advance board mv); [apply IH | simpl; lia]. }
  pose proof (IH board (S i)) as Hskip.
  rewrite odd_succ_negb in Hrest, Hskip.
  destruct (Nat.odd i); cbn [negb] in Hrest, Hskip.
  - destruct (from_uci mv) as [m|]; [|lia].
    rewrite length_app. destruct (is_legal board m); simpl length; lia.
  - simpl. lia.
Qed.

Lemma half_bound (n L : nat) : 2 * n <= L -> n <= (L + 1) / 2.
Proof. intros H. apply Nat.div_le_lower_bound; lia. Qed.

(** The Lichess loop over [pre ++ post]: the records of [pre], then, if
    every push of [pre] went through, those of [post] from the board
    reached. *)
Lemma lichess_replay_app (pre post : list string) :
  forall (board : Board) (i : nat),
    lichess_replay mk board i (pre ++ post)
    = lichess_replay mk board i pre ++
      match advance_all board pre with
      | Some board' => lichess_replay mk board' (i + length pre) post
      | None => []
      end.
Proof.
  induction pre as [|mv pre IH]; intros board i.
  - simpl. now rewrite Nat.add_0_r.
  - cbn [app lichess_replay advance_all length].
    rewrite <- app_assoc. f_equal.
    destruct (advance board mv) as [board'|]; [|reflexivity].
    rewrite IH. do 2 f_equal. now rewrite Nat.add_succ_r.
Qed.

(** In the Lichess loop nothing after the first move whose push fails is
    looked at, and what was appended before stays. *)
Lemma lichess_replay_stops (pre post : list string) (mv : string) (board board' : Board) :
  advance_all board pre = Some board' ->
  advance board' mv = None ->
  lichess_replay mk board 0 (pre ++ mv :: post)
  = lichess_replay mk board 0 (pre ++ [mv]).
Proof.
  intros Hpre Hmv. rewrite !lichess_replay_app, Hpre.
  cbn [lichess_replay]. now rewrite Hmv.
Qed.

(** ... and a move that does not parse, or is not legal, adds no record *)
Lemma lichess_replay_drops (pre post : list string) (mv : string) (board board' : Board) :
  advance_all board pre = Some board' ->
  from_uci mv = None ->
  lichess_replay mk board 0 (pre ++ mv :: post) = lichess_replay mk board 0 pre.
Proof.
  intros Hpre Hmv. rewrite lichess_replay_app, Hpre.
  cbn [lichess_replay]. unfold advance. rewrite Hmv.
  destruct (_ =? 1); simpl; now rewrite app_nil_r.
Qed.

End ReplayFacts.

(** ** The row loop: accounting of [positions] and [seen_puzzles] *)

Section RowLoopFacts.
Variable body : Row -> RowOutcome.

(** every record of a row carries the id that the row adds to [seen_puzzles] *)
Hypothesis body_tags :
  forall row id ps, body row = Fallthrough id ps ->
                    Forall (fun p => puzzle_id (metadata p) = id) ps.

Lemma ids_of_app (l1 l2 : list EvalPosition) :
  ids_of (l1 ++ l2) = ids_of l1 ∪ ids_of l2.
Proof. unfold ids_of. now rewrite map_app, list_to_set_app_L. Qed.

Lemma ids_of_tagged (id : string) (p : EvalPosition) (ps : list EvalPosition) :
  Forall (fun p => puzzle_id (metadata p) = id) (p :: ps) -> ids_of (p :: ps) = {[ id ]}.
Proof.
  unfold ids_of. intros H. apply set_eq. intros x.
  rewrite elem_of_list_to_set, list_elem_of_In, in_map_iff, elem_of_singleton.
  rewrite List.Forall_forall in H. split.
  - intros (q & <- & Hq). now apply H.
  - intros ->. exists p. split; [apply H|]; now left.
Qed.

Lemma record_puzzle_seen (id : string) (ps : list EvalPosition) (acc : Acc) :
  Forall (fun p => puzzle_id (metadata p) = id) ps ->
  seen_puzzles acc = ids_of (positions acc) ->
  seen_puzzles (record_puzzle id ps acc) = ids_of (positions (record_puzzle id ps acc)).
Proof.
  intros Htag Hacc. destruct ps as [|p ps]; [exact Hacc|].
  cbn [record_puzzle seen_puzzles positions].
  now rewrite ids_of_app, (ids_of_tagged id p ps Htag), Hacc.
Qed.

Lemma size_record_puzzle (id : string) (ps : list EvalPosition) (acc : Acc) :
  size (seen_puzzles (record_puzzle id ps acc)) <= S (size (seen_puzzles acc)).
Proof.
  destruct ps as [|p ps]; cbn [record_puzzle seen_puzzles]; [lia|].
  rewrite size_union_alt.
  assert (size ({[ id ]} ∖ seen_puzzles acc) <= size ({[ id ]} : gset string))
    by (apply subseteq_size, subseteq_difference_l; reflexivity).
  rewrite size_singleton in *. lia.
Qed.

(** the ids counted are exactly the ids of the records emitted *)
Lemma for_rows_seen (cap : nat) (rows : list Row) :
  forall acc, seen_puzzles acc = ids_of (positions acc) ->
    seen_puzzles (for_rows body cap rows acc)
    = ids_of (positions (for_rows body cap rows acc)).
Proof.
  induction rows as [|row rows IH]; intros acc Hacc; [exact Hacc|].
  cbn [for_rows]. destruct (body row) as [|id ps] eqn:Hrow; [now apply IH|].
  pose proof (record_puzzle_seen id ps acc (body_tags row id ps Hrow) Hacc) as Hrec.
  destruct (cap <=? _); [exact Hrec | now apply IH].
Qed.

(** with a limit of at least one the count never passes it *)
Lemma for_rows_cap (cap : nat) (rows : list Row) :
  forall acc, size (seen_puzzles acc) < cap ->
    size (seen_puzzles (for_rows body cap rows acc)) <= cap.
Proof.
  induction rows as [|row rows IH]; intros acc Hacc; cbn [for_rows]; [lia|].
  destruct (body row) as [|id ps]; [now apply IH|].
  pose proof (size_record_puzzle id ps acc) as Hsz.
  destruct (Nat.leb_spec cap (size (seen_puzzles (record_puzzle id ps acc))));
    [lia | now apply IH].
Qed.

(** a row that adds no record can be taken out of the input *)
Lemma for_rows_skip (cap : nat) (row : Row) (post : list Row) :
  row_positions (body row) = [] ->
  forall (pre : list Row) (acc : Acc),
    size (seen_puzzles acc) < cap ->
    for_rows body cap (pre ++ row :: post) acc = for_rows body cap (pre ++ post) acc.
Proof.
  intros Hrow. induction pre as [|r pre IH]; intros acc Hacc.
  - cbn [app for_rows]. destruct (body row) as [|id ps]; [reflexivity|].
    simpl in Hrow. subst ps. cbn [record_puzzle].
    destruct (Nat.leb_spec cap (size (seen_puzzles acc))); [lia | reflexivity].
  - cbn [app for_rows]. destruct (body r) as [|id ps]; [now apply IH|].
    destruct (Nat.leb_spec cap (size (seen_puzzles (record_puzzle id ps acc))));
      [reflexivity | now apply IH].
Qed.

(** ... and it leaves the count as it was *)
Lemma record_puzzle_nothing (id : string) (acc : Acc) : record_puzzle id [] acc = acc.
Proof. reflexivity. Qed.

Lemma for_rows_Forall (P : EvalPosition -> Prop) (cap : nat) (rows : list Row) :
  (forall row, Forall P (row_positions (body row))) ->
  forall acc, Forall P (positions acc) ->
    Forall P (positions (for_rows body cap rows acc)).
Proof.
  intros Hbody. induction rows as [|row rows IH]; intros acc Hacc; [exact Hacc|].
  cbn [for_rows]. specialize (Hbody row).
  destruct (body row) as [|id ps]; [now apply IH|].
  assert (Forall P (positions (record_puzzle id ps acc))).
  { destruct ps; [exact Hacc|]. cbn [record_puzzle positions].
    apply Forall_app. now split. }
  destruct (cap <=? _); [assumption | now apply IH].
Qed.

End RowLoopFacts.

(** ** The rows of the two converters *)

Section RowFacts.
Context {E : ChessEngine}.

Lemma lichess_row_emits (row : Row) (id : string) (ps : list EvalPosition) :
  lichess_row true row = Fallthrough id ps ->
  exists rating themes popularity moves,
    Forall (emitted_at (lichess_position id rating themes popularity moves) moves 0) ps.
Proof.
  unfold lichess_row.
  destruct (row !! "FEN") as [fen_s|]; [|discriminate].
  destruct (row !! "Moves") as [moves_s|]; [|discriminate].
  destruct (split_ws moves_s) as [|mv0 rest] eqn:Hm; [discriminate|].
  destruct (row !! "Rating") as [rating_s|]; [|discriminate].
  destruct (row !! "PuzzleId") as [pid|]; [|discriminate].
  destruct (Board_of_fen fen_s) as [board|]; intros H; injection H as <- <-.
  - exists (int_or 1500 rating_s), (split_ws (row_get row "Themes" EmptyString)),
      (int_or 0 (row_get row "Popularity" EmptyString)), (mv0 :: rest).
    exact (lichess_replay_emits _ (mv0 :: rest) (mv0 :: rest) board 0 (drop_0 _)).
  - exists 0%Z, [], 0%Z, []. constructor.
Qed.

Lemma gdm_row_emits (row : Row) (id : string) (ps : list EvalPosition) :
  gdm_row row = Fallthrough id ps ->
  exists rating solution moves,
    Forall (emitted_at (gdm_position id rating solution moves) moves 0) ps.
Proof.
  unfold gdm_row.
  destruct (row !! "PuzzleId") as [pid|]; [|discriminate].
  destruct (row !! "Rating") as [rating_s|]; [|discriminate].
  destruct (row !! "PGN") as [pgn|]; [|discriminate].
  destruct (row !! "Solution") as [solution|]; [|discriminate].
  destruct (row !! "FEN") as [base_fen|]; [|discriminate].
  destruct (row !! "Moves") as [moves_s|]; [|discriminate].
  destruct (read_game_end pgn) as [board|]; [|discriminate].
  destruct (negb _); [discriminate|].
  destruct (Board_of_fen base_fen) as [current|]; [|discriminate].
  intros H; injection H as <- <-.
  exists (int_or 1500 rating_s), solution, (split_ws moves_s).
  exact (gdm_replay_emits _ (split_ws moves_s) (split_ws moves_s) current 0 (drop_0 _)).
Qed.

Lemma lichess_row_tags (have_chess : bool) (row : Row) (id : string)
    (ps : list EvalPosition) :
  lichess_row have_chess row = Fallthrough id ps ->
  Forall (fun p => puzzle_id (metadata p) = id) ps.
Proof.
  destruct have_chess.
  - intros H. destruct (lichess_row_emits row id ps H) as (r & t & n & m & Hall).
    eapply List.Forall_impl; [|exact Hall].
    intros p (j & mv & b & mo & -> & _). reflexivity.
  - unfold lichess_row.
    destruct (row !! "FEN") as [fen_s|]; [|discriminate].
    destruct (row !! "Moves") as [moves_s|]; [|discriminate].
    destruct (split_ws moves_s) as [|mv0 rest]; [discriminate|].
    destruct (row !! "Rating") as [rating_s|]; [|discriminate].
    destruct (row !! "PuzzleId") as [pid|]; [|discriminate].
    destruct (is_plausible_uci mv0); intros H; injection H as <- <-;
      repeat constructor.
Qed.

(** without the board library a row yields at most one record, for its
    first move, and no index is stored *)
Lemma lichess_fallback_first_move (row : Row) (id : string) (ps : list EvalPosition) :
  lichess_row false row = Fallthrough id ps ->
  ps = [] \/
  exists p moves_s, ps = [p] /\ row !! "Moves" = Some moves_s /\
    head (split_ws moves_s) = Some (correct_move p) /\
    row !! "FEN" = Some (position_fen p) /\
    move_index_in_sequence (metadata p) = None.
Proof.
  unfold lichess_row.
  destruct (row !! "FEN") as [fen_s|]; [|discriminate].
  destruct (row !! "Moves") as [moves_s|]; [|discriminate].
  destruct (split_ws moves_s) as [|mv0 rest] eqn:Hm; [discriminate|].
  destruct (row !! "Rating") as [rating_s|]; [|discriminate].
  destruct (row !! "PuzzleId") as [pid|]; [|discriminate].
  destruct (is_plausible_uci mv0); intros H; injection H as <- <-; [right | now left].
  eexists _, moves_s. rewrite Hm. repeat split.
Qed.

Lemma gdm_row_tags (row : Row) (id : string) (ps : list EvalPosition) :
  gdm_row row = Fallthrough id ps ->
  Forall (fun p => puzzle_id (metadata p) = id) ps.
Proof.
  intros H. destruct (gdm_row_emits row id ps H) as (r & s & m & Hall).
  eapply List.Forall_impl; [|exact Hall].
  intros p (j & mv & b & mo & -> & _). reflexivity.
Qed.

End RowFacts.

(** ** The evaluation-point selector *)

Section SelectorClaims.
Context {E : ChessEngine}.

Lemma emitted_lichess_at_odd_index (id : string) (r n : Z) (t : list string)
    (moves : list string) (p : EvalPosition) :
  emitted_at (lichess_position id r t n moves) moves 0 p -> at_odd_index moves p.
Proof. intros (j & mv & b & m & -> & _ & Hodd & Hmv & _). now exists j. Qed.

Lemma emitted_gdm_at_odd_index (id : string) (r : Z) (sol : string)
    (moves : list string) (p : EvalPosition) :
  emitted_at (gdm_position id r sol moves) moves 0 p -> at_odd_index moves p.
Proof. intros (j & mv & b & m & -> & _ & Hodd & Hmv & _). now exists j. Qed.

(** C1.  From a solution of [L] moves both replay loops append at most
    [ceil(L/2)] records, and each record stores an odd zero-based index of
    the solution together with the move found at that index: the moves at
    indices 0, 2, 4, ... are only replayed. *)
Theorem C1_selector_odd_indices (puzzle_id : string) (rating popularity : Z)
    (themes : list string) (solution : string) (board : Board) (moves : list string) :
  (length (lichess_replay
             (lichess_position puzzle_id rating themes popularity moves) board 0 moves)
     <= (length moves + 1) / 2 /\
   Forall (at_odd_index moves)
     (lichess_replay
        (lichess_position puzzle_id rating themes popularity moves) board 0 moves)) /\
  (length (gdm_replay (gdm_position puzzle_id rating solution moves) board 0 moves)
     <= (length moves + 1) / 2 /\
   Forall (at_odd_index moves)
     (gdm_replay (gdm_position puzzle_id rating solution moves) board 0 moves)).
Proof.
  repeat split.
  - apply half_bound.
    pose proof (lichess_replay_count
                  (lichess_position puzzle_id rating themes popularity moves)
                  moves board 0) as H.
    simpl in H. lia.
  - eapply List.Forall_impl; [apply emitted_lichess_at_odd_index|].
    apply lichess_replay_emits, drop_0.
  - apply half_bound.
    pose proof (gdm_replay_count (gdm_position puzzle_id rating solution moves)
                  moves board 0) as H.
    simpl in H. lia.
  - eapply List.Forall_impl; [apply emitted_gdm_at_odd_index|].
    apply gdm_replay_emits, drop_0.
Qed.

(** C2.  A Lichess row with the start position and the moves
    e2e4 e7e5 g1f3 yields exactly one record: index 1, expected move e7e5,
    position the notation of the board after e2e4 alone.  The hypotheses
    say what the board library does on this input: the position loads,
    both moves parse, e2e4 can be pushed and e7e5 is then legal. *)
Theorem C2_start_position_scenario (row : Row) (id rating_s : string)
    (b0 b1 : Board) (m0 m1 : Move) :
  row !! "FEN" = Some Fen.START_FEN ->
  row !! "Moves" = Some "e2e4 e7e5 g1f3" ->
  row !! "Rating" = Some rating_s ->
  row !! "PuzzleId" = Some id ->
  Board_of_fen Fen.START_FEN = Some b0 ->
  from_uci "e2e4" = Some m0 ->
  push b0 m0 = Some b1 ->
  from_uci "e7e5" = Some m1 ->
  is_legal b1 m1 = true ->
  exists p,
    lichess_row true row = Fallthrough id [p] /\
    position_fen p = fen b1 /\
    correct_move p = "e7e5" /\
    move_index_in_sequence (metadata p) = Some 1.
Proof.
  intros HF HM HR HP HB H0 Hpush H1 Hlegal.
  exists (lichess_position id (int_or 1500 rating_s)
            (split_ws (row_get row "Themes" EmptyString))
            (int_or 0 (row_get row "Popularity" EmptyString))
            ["e2e4"; "e7e5"; "g1f3"] 1 (fen b1) "e7e5").
  split; [|repeat split].
  unfold lichess_row. rewrite HF, HM.
  change (split_ws "e2e4 e7e5 g1f3") with ["e2e4"; "e7e5"; "g1f3"].
  rewrite HR, HP, HB. f_equal.
  cbn [lichess_replay].
  change (0 mod 2 =? 1) with false. change (1 mod 2 =? 1) with true.
  change (2 mod 2 =? 1) with false.
  unfold advance. rewrite H0, Hpush, H1, Hlegal.
  destruct (push b1 m1) as [b2|]; [|reflexivity].
  destruct (from_uci "g1f3") as [m2|]; [|reflexivity].
  destruct (push b2 m2); reflexivity.
Qed.

(** C7, on [convert_gdm_correct]: a move at an odd index that does not
    parse runs [continue], so the replay goes on with the next move from
    the board it had; when the later moves parse and the move at index 3
    is legal there, a record for index 3 is appended.  The Lichess loop on
    the same moves stops at index 1 and appends nothing. *)
Theorem C7_gdm_replay_goes_on_after_unparsable_move
    (mk : nat -> string -> string -> EvalPosition)
    (b0 b1 b2 : Board) (mv0 mv1 mv2 mv3 : string) (m0 m2 m3 : Move) :
  from_uci mv0 = Some m0 -> push b0 m0 = Some b1 ->
  from_uci mv1 = None ->
  from_uci mv2 = Some m2 -> push b1 m2 = Some b2 ->
  from_uci mv3 = Some m3 -> is_legal b2 m3 = true ->
  gdm_replay mk b0 0 [mv0; mv1; mv2; mv3] = [mk 3 (fen b2) mv3] /\
  lichess_replay mk b0 0 [mv0; mv1; mv2; mv3] = [].
Proof.
  intros H0 P0 H1 H2 P2 H3 L3. split.
  - cbn [gdm_replay].
    change (0 mod 2 =? 1) with false. change (1 mod 2 =? 1) with true.
    change (2 mod 2 =? 1) with false. change (3 mod 2 =? 1) with true.
    unfold advance. rewrite H0, P0, H1, H2, P2, H3, L3.
    destruct (push b2 m3); reflexivity.
  - cbn [lichess_replay].
    change (0 mod 2 =? 1) with false. change (1 mod 2 =? 1) with true.
    unfold advance. rewrite H0, P0, H1. reflexivity.
Qed.

End SelectorClaims.

(** the scenario with the placement engine as board library *)
Lemma C2_start_position_witness :
  exists p,
    lichess_row (E := Placement.engine) true Examples.scenario_row
    = Fallthrough "s0001" [p] /\
    position_fen p = "rnbqkbnr/pppppppp/8/8/4P3/8/PPPP1PPP/RNBQKBNR b KQkq - 0 1" /\
    correct_move p = "e7e5" /\
    move_index_in_sequence (metadata p) = Some 1.
Proof.
  pose (b1 := default Placement.start_board
                (Placement.play Placement.start_board (52, 36, None))).
  refine (C2_start_position_scenario (E := Placement.engine)
            Examples.scenario_row "s0001" "1200" Placement.start_board b1
            (52, 36, None) (12, 28, None) _ _ _ _ _ _ _ _ _);
    vm_compute; reflexivity.
Defined.

(** the moves e2e4, xxxx, e7e5, g1f3 from the start position, with the
    placement engine as board library *)
Lemma C7_gdm_replay_witness :
  exists b2 : Placement.board,
    gdm_replay (E := Placement.engine) (gdm_position "u0001" 1200 "Nf3" [])
      Placement.start_board 0 ["e2e4"; "xxxx"; "e7e5"; "g1f3"]
    = [gdm_position "u0001" 1200 "Nf3" [] 3 (Placement.render b2) "g1f3"] /\
    lichess_replay (E := Placement.engine) (gdm_position "u0001" 1200 "Nf3" [])
      Placement.start_board 0 ["e2e4"; "xxxx"; "e7e5"; "g1f3"] = [].
Proof.
  pose (b1 := default Placement.start_board
                (Placement.play Placement.start_board (52, 36, None))).
  pose (b2 := default b1 (Placement.play b1 (12, 28, None))).
  exists b2.
  refine (C7_gdm_replay_goes_on_after_unparsable_move (E := Placement.engine)
            (gdm_position "u0001" 1200 "Nf3" []) Placement.start_board b1 b2
            "e2e4" "xxxx" "e7e5" "g1f3" (52, 36, None) (12, 28, None) (62, 45, None)
            _ _ _ _ _ _ _);
    vm_compute; reflexivity.
Defined.

(** ** The default rating *)

Section RatingClaims.
Context {E : ChessEngine}.

Lemma lichess_row_rated (have_chess : bool) (row : Row) (rating_s id : string)
    (ps : list EvalPosition) :
  row !! "Rating" = Some rating_s ->
  lichess_row have_chess row = Fallthrough id ps ->
  Forall (rated rating_s) ps.
Proof.
  intros Hr. unfold lichess_row.
  destruct (row !! "FEN") as [fen_s|]; [|discriminate].
  destruct (row !! "Moves") as [moves_s|]; [|discriminate].
  destruct (split_ws moves_s) as [|mv0 rest]; [discriminate|].
  rewrite Hr. destruct (row !! "PuzzleId") as [pid|]; [|discriminate].
  destruct have_chess.
  - destruct (Board_of_fen fen_s) as [board|]; intros H; injection H as <- <-;
      [|constructor].
    eapply List.Forall_impl;
      [|exact (lichess_replay_emits _ (mv0 :: rest) (mv0 :: rest) board 0 (drop_0 _))].
    intros p (j & mv & b & m & -> & _). split; reflexivity.
  - destruct (is_plausible_uci mv0); intros H; injection H as <- <-;
      repeat constructor.
Qed.

Lemma gdm_row_rated (row : Row) (rating_s id : string) (ps : list EvalPosition) :
  row !! "Rating" = Some rating_s ->
  gdm_row row = Fallthrough id ps ->
  Forall (rated rating_s) ps.
Proof.
  intros Hr. unfold gdm_row.
  destruct (row !! "PuzzleId") as [pid|]; [|discriminate].
  rewrite Hr.
  destruct (row !! "PGN") as [pgn|]; [|discriminate].
  destruct (row !! "Solution") as [solution|]; [|discriminate].
  destruct (row !! "FEN") as [base_fen|]; [|discriminate].
  destruct (row !! "Moves") as [moves_s|]; [|discriminate].
  destruct (read_game_end pgn) as [board|]; [|discriminate].
  destruct (negb _); [discriminate|].
  destruct (Board_of_fen base_fen) as [current|]; [|discriminate].
  intros H; injection H as <- <-.
  eapply List.Forall_impl;
    [|exact (gdm_replay_emits _ (split_ws moves_s) (split_ws moves_s) current 0
               (drop_0 _))].
  intros p (j & mv & b & m & -> & _). split; reflexivity.
Qed.

Lemma benchmarks_gdm_row_difficulty (row : Row) (rating_s : string)
    (ps : list EvalPosition) :
  row !! "Rating" = Some rating_s ->
  ConvertBenchmarks.gdm_row row = Some ps ->
  Forall (fun p => difficulty (metadata p)
                   = get_difficulty_from_rating (int_or 1500 rating_s)) ps.
Proof.
  intros Hr. unfold ConvertBenchmarks.gdm_row.
  destruct (row !! "FEN") as [fen_s|]; [|discriminate].
  destruct (row !! "Moves") as [moves_s|]; [|discriminate].
  destruct (split_ws moves_s) as [|mv0 rest]; [intros [= <-]; constructor|].
  destruct (Board_of_fen fen_s) as [board|]; [|discriminate].
  destruct (from_uci mv0) as [move|]; [|discriminate].
  destruct (is_legal board move); [|intros [= <-]; constructor].
  destruct (row !! "PuzzleId") as [pid|]; [|discriminate].
  rewrite Hr. destruct (row !! "Solution") as [solution|]; [|discriminate].
  intros [= <-]. repeat constructor.
Qed.

(** in [convert_gdm_puzzles] the stored rating of such a row is 0 *)
Lemma benchmarks_gdm_row_rating (row : Row) (rating_s : string)
    (ps : list EvalPosition) :
  row !! "Rating" = Some rating_s -> isdigit rating_s = false ->
  ConvertBenchmarks.gdm_row row = Some ps ->
  Forall (fun p => rating (metadata p) = 0%Z) ps.
Proof.
  intros Hr Hs. unfold ConvertBenchmarks.gdm_row.
  destruct (row !! "FEN") as [fen_s|]; [|discriminate].
  destruct (row !! "Moves") as [moves_s|]; [|discriminate].
  destruct (split_ws moves_s) as [|mv0 rest]; [intros [= <-]; constructor|].
  destruct (Board_of_fen fen_s) as [board|]; [|discriminate].
  destruct (from_uci mv0) as [move|]; [|discriminate].
  destruct (is_legal board move); [|intros [= <-]; constructor].
  destruct (row !! "PuzzleId") as [pid|]; [|discriminate].
  rewrite Hr. destruct (row !! "Solution") as [solution|]; [|discriminate].
  intros [= <-]. repeat constructor. simpl. now apply int_or_not_digit.
Qed.

(** C6, amended.  A rating field that is not a digit string is read as
    1500, and the bucket of 1500 is "medium": the records of such a row
    store rating 1500 and difficulty "medium" in [convert_lichess] and
    [convert_gdm_correct], and difficulty "medium" in
    [convert_benchmarks.convert_gdm_puzzles].  The buckets are: below 1000
    beginner, below 1500 easy, below 2000 medium, below 2500 hard, expert
    from 2500 on. *)
Theorem C6_unparsable_rating_is_1500_medium :
  (forall rating_s : string,
     isdigit rating_s = false ->
     int_or 1500 rating_s = 1500%Z /\
     get_difficulty_from_rating (int_or 1500 rating_s) = "medium") /\
  (forall r : Z,
     ((r < 1000)%Z -> get_difficulty_from_rating r = "beginner") /\
     ((1000 <= r < 1500)%Z -> get_difficulty_from_rating r = "easy") /\
     ((1500 <= r < 2000)%Z -> get_difficulty_from_rating r = "medium") /\
     ((2000 <= r < 2500)%Z -> get_difficulty_from_rating r = "hard") /\
     ((2500 <= r)%Z -> get_difficulty_from_rating r = "expert")) /\
  (forall (row : Row) (rating_s id : string) (ps : list EvalPosition),
     row !! "Rating" = Some rating_s -> isdigit rating_s = false ->
     (forall have_chess, lichess_row have_chess row = Fallthrough id ps ->
        Forall (fun p => rating (metadata p) = 1500%Z /\
                         difficulty (metadata p) = "medium") ps) /\
     (gdm_row row = Fallthrough id ps ->
        Forall (fun p => rating (metadata p) = 1500%Z /\
                         difficulty (metadata p) = "medium") ps) /\
     (ConvertBenchmarks.gdm_row row = Some ps ->
        Forall (fun p => difficulty (metadata p) = "medium") ps)).
Proof.
  split; [|split].
  - intros s Hs. now rewrite (int_or_not_digit 1500 s Hs).
  - apply difficulty_buckets.
  - intros row s id ps Hr Hs.
    pose proof (int_or_not_digit 1500 s Hs) as Hdef.
    split; [|split].
    + intros hc H. eapply List.Forall_impl; [|exact (lichess_row_rated hc _ _ _ _ Hr H)].
      intros p [H1 H2]. now rewrite H1, H2, Hdef.
    + intros H. eapply List.Forall_impl; [|exact (gdm_row_rated _ _ _ _ Hr H)].
      intros p [H1 H2]. now rewrite H1, H2, Hdef.
    + intros H. eapply List.Forall_impl;
        [|exact (benchmarks_gdm_row_difficulty _ _ _ Hr H)].
      intros p H1. simpl in H1. now rewrite H1, Hdef.
Qed.

End RatingClaims.

(** C6 fails as stated: the bucket of the default rating 1500 is "medium",
    not "easy" ([1500 < 1500] is false), and that is what the record of a
    row with an unreadable rating stores. *)
Lemma C6_default_bucket_counterexample :
  isdigit "unrated" = false /\
  get_difficulty_from_rating (int_or 1500 "unrated") <> "easy" /\
  exists p,
    lichess_row (E := Placement.engine) true Examples.unrated_row
    = Fallthrough "s0001" [p] /\
    rating (metadata p) = 1500%Z /\
    difficulty (metadata p) = "medium".
Proof.
  split; [reflexivity|]. split; [discriminate|].
  eexists. split; [vm_compute; reflexivity|]. split; reflexivity.
Qed.

(** a rating field that is not a number *)
Lemma C6_unparsable_rating_witness :
  int_or 1500 "n/a" = 1500%Z /\
  get_difficulty_from_rating (int_or 1500 "n/a") = "medium".
Proof.
  apply (proj1 (C6_unparsable_rating_is_1500_medium (E := Placement.engine)) "n/a").
  reflexivity.
Defined.

(** ** The limit on accepted puzzles *)

Section CapClaims.
Context {E : ChessEngine}.

Lemma acc0_seen : seen_puzzles acc0 = ids_of (positions acc0).
Proof. reflexivity. Qed.

Lemma acc0_below (cap : nat) : 1 <= cap -> size (seen_puzzles acc0) < cap.
Proof. intros H. unfold acc0. cbn [seen_puzzles]. rewrite size_empty. lia. Qed.

(** With a limit of at least one, the records emitted carry at most
    [cap] distinct puzzle ids, the ids counted are the ids of the records
    emitted, and a row that adds no record can be taken out of the input. *)
Lemma rows_within_limit (body : Row -> RowOutcome) (cap : nat) (rows : list Row) :
  (forall row id ps, body row = Fallthrough id ps ->
                     Forall (fun p => puzzle_id (metadata p) = id) ps) ->
  1 <= cap ->
  size (ids_of (positions (for_rows body cap rows acc0))) <= cap /\
  seen_puzzles (for_rows body cap rows acc0)
  = ids_of (positions (for_rows body cap rows acc0)) /\
  (forall pre row post,
     rows = pre ++ row :: post ->
     row_positions (body row) = [] ->
     for_rows body cap rows acc0 = for_rows body cap (pre ++ post) acc0).
Proof.
  intros Htags Hcap.
  pose proof (for_rows_seen body Htags cap rows acc0 acc0_seen) as Hseen.
  split; [|split].
  - rewrite <- Hseen. apply for_rows_cap, acc0_below, Hcap.
  - exact Hseen.
  - intros pre row post -> Hrow. apply for_rows_skip; [exact Hrow|].
    apply acc0_below, Hcap.
Qed.

(** C3.  Both converters compare [len(seen_puzzles)] with the literal 1000
    and take no argument, so 1000 is the limit of every run.  In every run
    of [convert_lichess] (with or without the board library) and of
    [convert_gdm_correct], on any rows, the records emitted carry at most
    1000 distinct puzzle ids; the ids counted in [seen_puzzles] are exactly
    the ids of the records emitted, so a row counts only if it added a
    record; and a row that adds no record can be removed from the input
    without changing the result: it neither counts nor stops the loop. *)
Theorem C3_cap_on_distinct_puzzles (have_chess : bool) (rows : list Row) :
  (size (ids_of (positions (lichess_rows have_chess PUZZLE_LIMIT rows))) <= PUZZLE_LIMIT /\
   seen_puzzles (lichess_rows have_chess PUZZLE_LIMIT rows)
   = ids_of (positions (lichess_rows have_chess PUZZLE_LIMIT rows)) /\
   (forall pre row post,
      rows = pre ++ row :: post ->
      row_positions (lichess_row have_chess row) = [] ->
      lichess_rows have_chess PUZZLE_LIMIT rows
      = lichess_rows have_chess PUZZLE_LIMIT (pre ++ post))) /\
  (size (ids_of (positions (gdm_rows PUZZLE_LIMIT rows))) <= PUZZLE_LIMIT /\
   seen_puzzles (gdm_rows PUZZLE_LIMIT rows)
   = ids_of (positions (gdm_rows PUZZLE_LIMIT rows)) /\
   (forall pre row post,
      rows = pre ++ row :: post ->
      row_positions (gdm_row row) = [] ->
      gdm_rows PUZZLE_LIMIT rows = gdm_rows PUZZLE_LIMIT (pre ++ post))).
Proof.
  assert (Hcap : 1 <= PUZZLE_LIMIT) by (unfold PUZZLE_LIMIT; lia).
  split.
  - exact (rows_within_limit (lichess_row have_chess) PUZZLE_LIMIT rows
             (lichess_row_tags have_chess) Hcap).
  - exact (rows_within_limit gdm_row PUZZLE_LIMIT rows gdm_row_tags Hcap).
Qed.

End CapClaims.

(** three rows, the second without moves: it can be taken out *)
Lemma C3_cap_witness :
  lichess_rows (E := Placement.engine) true PUZZLE_LIMIT
    [Examples.scenario_row; Examples.empty_row; Examples.unparsable_row]
  = lichess_rows (E := Placement.engine) true PUZZLE_LIMIT
      [Examples.scenario_row; Examples.unparsable_row].
Proof.
  refine (proj2 (proj2 (proj1 (C3_cap_on_distinct_puzzles (E := Placement.engine) true
                                 [Examples.scenario_row; Examples.empty_row;
                                  Examples.unparsable_row])))
            [Examples.scenario_row] Examples.empty_row [Examples.unparsable_row] _ _).
  - reflexivity.
  - reflexivity.
Defined.

(** ** Legality of the expected move *)

Section LegalityClaims.
Context {E : ChessEngine} {S : SanNotation E}.

Lemma emitted_legal (mk : nat -> string -> string -> EvalPosition)
    (moves : list string) (p : EvalPosition) :
  (forall j f mv, position_fen (mk j f mv) = f /\ correct_move (mk j f mv) = mv) ->
  emitted_at mk moves 0 p -> legal_at_creation p.
Proof.
  intros Hmk (j & mv & b & m & -> & _ & _ & _ & Hp & Hl).
  destruct (Hmk j (fen b) mv) as [Hf Hm].
  exists b, m. rewrite Hf, Hm. auto.
Qed.

Lemma lichess_row_legal (row : Row) :
  Forall legal_at_creation (row_positions (lichess_row true row)).
Proof.
  destruct (lichess_row true row) as [|id ps] eqn:H; [constructor|].
  destruct (lichess_row_emits row id ps H) as (r & t & n & m & Hall).
  eapply List.Forall_impl; [|exact Hall].
  intros p. apply emitted_legal. now intros.
Qed.

Lemma gdm_row_legal (row : Row) :
  Forall legal_at_creation (row_positions (gdm_row row)).
Proof.
  destruct (gdm_row row) as [|id ps] eqn:H; [constructor|].
  destruct (gdm_row_emits row id ps H) as (r & s & m & Hall).
  eapply List.Forall_impl; [|exact Hall].
  intros p. apply emitted_legal. now intros.
Qed.

Lemma benchmarks_lichess_row_legal (row : Row) (ps : list EvalPosition) :
  ConvertBenchmarks.lichess_row row = Some ps -> Forall legal_at_creation ps.
Proof.
  unfold ConvertBenchmarks.lichess_row.
  destruct (row !! "FEN") as [fen_s|]; [|discriminate].
  destruct (row !! "Moves") as [moves_s|]; [|discriminate].
  destruct (split_ws moves_s) as [|mv0 rest]; [intros [= <-]; constructor|].
  destruct (Board_of_fen fen_s) as [board|] eqn:Hb; [|discriminate].
  destruct (from_uci mv0) as [move|] eqn:Hm; [|discriminate].
  destruct (is_legal board move) eqn:Hl; [|intros [= <-]; constructor].
  destruct (row !! "Rating") as [rating_s|]; [|discriminate].
  destruct (row !! "PuzzleId") as [pid|]; [|discriminate].
  intros [= <-]. constructor; [|constructor].
  exists board, move. simpl. auto.
Qed.

Lemma benchmarks_gdm_row_legal (row : Row) (ps : list EvalPosition) :
  ConvertBenchmarks.gdm_row row = Some ps -> Forall legal_at_creation ps.
Proof.
  unfold ConvertBenchmarks.gdm_row.
  destruct (row !! "FEN") as [fen_s|]; [|discriminate].
  destruct (row !! "Moves") as [moves_s|]; [|discriminate].
  destruct (split_ws moves_s) as [|mv0 rest]; [intros [= <-]; constructor|].
  destruct (Board_of_fen fen_s) as [board|] eqn:Hb; [|discriminate].
  destruct (from_uci mv0) as [move|] eqn:Hm; [|discriminate].
  destruct (is_legal board move) eqn:Hl; [|intros [= <-]; constructor].
  destruct (row !! "PuzzleId") as [pid|]; [|discriminate].
  destruct (row !! "Rating") as [rating_s|]; [|discriminate].
  destruct (row !! "Solution") as [solution|]; [|discriminate].
  intros [= <-]. constructor; [|constructor].
  exists board, move. simpl. auto.
Qed.

Lemma benchmarks_lichess_rows_legal (rows : list Row) :
  forall positions, Forall legal_at_creation positions ->
    Forall legal_at_creation (ConvertBenchmarks.lichess_rows rows positions).
Proof.
  induction rows as [|row rows IH]; intros positions Hp; [exact Hp|].
  cbn [ConvertBenchmarks.lichess_rows].
  destruct (ConvertBenchmarks.lichess_row row) as [ps|] eqn:Hrow; [|now apply IH].
  assert (Forall legal_at_creation (positions ++ ps))
    by (apply Forall_app; split; [exact Hp | now apply benchmarks_lichess_row_legal with row]).
  destruct (1000 <=? _); [assumption | now apply IH].
Qed.

Lemma benchmarks_gdm_rows_legal (rows : list Row) :
  forall positions, Forall legal_at_creation positions ->
    Forall legal_at_creation (ConvertBenchmarks.gdm_rows rows positions).
Proof.
  induction rows as [|row rows IH]; intros positions Hp; [exact Hp|].
  cbn [ConvertBenchmarks.gdm_rows].
  destruct (ConvertBenchmarks.gdm_row row) as [ps|] eqn:Hrow; [|now apply IH].
  assert (Forall legal_at_creation (positions ++ ps))
    by (apply Forall_app; split; [exact Hp | now apply benchmarks_gdm_row_legal with row]).
  destruct (1000 <=? _); [assumption | now apply IH].
Qed.

Lemma action_row_legal (row : Row) (ps : list ConvertGdmAction.ActionPosition) :
  ConvertGdmAction.action_row row = Some ps ->
  Forall (fun p => legal_move_at (ConvertGdmAction.action_fen p)
                     (ConvertGdmAction.action_correct_move p)) ps.
Proof.
  unfold ConvertGdmAction.action_row.
  destruct (row !! "PuzzleId") as [pid|]; [|discriminate].
  destruct (row !! "Rating") as [rating_s|]; [|discriminate].
  destruct (row !! "FEN") as [base_fen|]; [|discriminate].
  destruct (row !! "Moves") as [moves_s|]; [|discriminate].
  destruct (split_ws moves_s) as [|mv0 rest]; [intros [= <-]; constructor|].
  destruct (Board_of_fen base_fen) as [board|] eqn:Hb; [|discriminate].
  destruct (from_uci mv0) as [move|] eqn:Hm; [|discriminate].
  destruct (is_legal board move) eqn:Hl; [|intros [= <-]; constructor].
  intros [= <-]. constructor; [|constructor].
  exists board, move. simpl. auto.
Qed.

Lemma action_rows_legal (rows : list Row) :
  forall positions,
    Forall (fun p => legal_move_at (ConvertGdmAction.action_fen p)
                       (ConvertGdmAction.action_correct_move p)) positions ->
    Forall (fun p => legal_move_at (ConvertGdmAction.action_fen p)
                       (ConvertGdmAction.action_correct_move p))
      (ConvertGdmAction.action_rows rows positions).
Proof.
  induction rows as [|row rows IH]; intros positions Hp; [exact Hp|].
  cbn [ConvertGdmAction.action_rows].
  destruct (ConvertGdmAction.action_row row) as [ps|] eqn:Hrow; [|now apply IH].
  assert (Forall (fun p => legal_move_at (ConvertGdmAction.action_fen p)
                             (ConvertGdmAction.action_correct_move p)) (positions ++ ps))
    by (apply Forall_app; split; [exact Hp | now apply action_row_legal with row]).
  destruct (1000 <=? _); [assumption | now apply IH].
Qed.

(** a record of [convert_bigbench_checkmate] holds the text of the final
    board and the text of the move that [parse_san] read from the target
    on that board *)
Lemma checkmate_example_parsed (example : gmap string string)
    (p : ConvertBenchmarks.CheckmatePosition) :
  ConvertBenchmarks.checkmate_example example = Some p ->
  exists (board : Board) (move : Move),
    fen board = ConvertBenchmarks.checkmate_fen p /\
    parse_san board (ConvertBenchmarks.target_san (ConvertBenchmarks.checkmate_metadata p))
    = Some move /\
    uci move = ConvertBenchmarks.checkmate_correct_move p.
Proof.
  unfold ConvertBenchmarks.checkmate_example.
  destruct (example !! "input") as [input|]; [|discriminate].
  destruct (read_game_end input) as [board|]; [|discriminate].
  destruct (example !! "target") as [target|]; [|discriminate].
  destruct (parse_san board target) as [move|] eqn:Hsan; [|discriminate].
  intros [= <-]. exists board, move. simpl. auto.
Qed.

Lemma bigbench_examples_Forall (P : ConvertBenchmarks.CheckmatePosition -> Prop)
    (examples : list (gmap string string)) :
  (forall example p, ConvertBenchmarks.checkmate_example example = Some p -> P p) ->
  Forall P (ConvertBenchmarks.bigbench_examples examples).
Proof.
  intros HP. induction examples as [|example rest IH]; [constructor|].
  cbn [ConvertBenchmarks.bigbench_examples].
  destruct (ConvertBenchmarks.checkmate_example example) as [p|] eqn:Hex; [|exact IH].
  constructor; [now apply HP with example | exact IH].
Qed.

(** C8, amended.  On every path that tests the move with the board
    library, every record emitted has an expected move that is legal in the
    board its position stands for: the runs of [convert_lichess] with
    [HAVE_CHESS] true, of [convert_gdm_correct], of [convert_gdm_action],
    and of [convert_gdm_puzzles] and [convert_lichess_puzzles] in
    [convert_benchmarks].  [convert_bigbench_checkmate] does not test the
    move: each record holds the text of the final board and the text of
    the move that [parse_san] read from the target on that board; as
    python-chess returns from [parse_san] a legal move or the null move, and
    reads back what [uci] writes, the expected move is legal in that board
    or is the null move 0000. *)
Theorem C8_emitted_moves_are_legal :
  (forall cap rows,
     Forall legal_at_creation (positions (lichess_rows true cap rows))) /\
  (forall cap rows,
     Forall legal_at_creation (positions (gdm_rows cap rows))) /\
  (forall rows,
     Forall legal_at_creation (ConvertBenchmarks.lichess_rows rows [])) /\
  (forall rows,
     Forall legal_at_creation (ConvertBenchmarks.gdm_rows rows [])) /\
  (forall rows,
     Forall (fun p => legal_move_at (ConvertGdmAction.action_fen p)
                        (ConvertGdmAction.action_correct_move p))
       (ConvertGdmAction.convert_gdm_action rows)) /\
  (forall examples,
     Forall (fun p => exists (board : Board) (move : Move),
                 fen board = ConvertBenchmarks.checkmate_fen p /\
                 parse_san board
                   (ConvertBenchmarks.target_san (ConvertBenchmarks.checkmate_metadata p))
                 = Some move /\
                 uci move = ConvertBenchmarks.checkmate_correct_move p)
       (ConvertBenchmarks.bigbench_examples examples)) /\
  ((forall (board : Board) (san : string) (move : Move),
      parse_san board san = Some move ->
      (is_legal board move = true \/ uci move = "0000") /\
      from_uci (uci move) = Some move) ->
   forall examples,
     Forall (fun p => legal_move_at (ConvertBenchmarks.checkmate_fen p)
                        (ConvertBenchmarks.checkmate_correct_move p) \/
                      ConvertBenchmarks.checkmate_correct_move p = "0000")
       (ConvertBenchmarks.bigbench_examples examples)).
Proof.
  repeat split.
  - intros cap rows. apply for_rows_Forall; [apply lichess_row_legal | constructor].
  - intros cap rows. apply for_rows_Forall; [apply gdm_row_legal | constructor].
  - intros rows. apply benchmarks_lichess_rows_legal. constructor.
  - intros rows. apply benchmarks_gdm_rows_legal. constructor.
  - intros rows. apply action_rows_legal. constructor.
  - intros examples. apply bigbench_examples_Forall. apply checkmate_example_parsed.
  - intros Hsan examples. apply bigbench_examples_Forall. intros example p Hex.
    destruct (checkmate_example_parsed example p Hex) as (board & move & Hf & Hp & Hu).
    destruct (Hsan board _ move Hp) as [[Hlegal|Hnull] Hback].
    + left. exists board, move. rewrite <- Hu. auto.
    + right. now rewrite <- Hu.
Qed.

End LegalityClaims.

(** C8 fails as stated on the two paths that do not ask the board whether
    the move is legal.  On the fallback branch of [convert_lichess], without
    the board library, only the shape of the first move is tested, and
    [a1a1] has that shape although no board accepts it as a move.  In
    [convert_bigbench_checkmate] the target [--] is read as the null move
    and written out as 0000, which is legal on no board. *)
Lemma C8_unchecked_move_counterexample :
  (exists p,
     positions (lichess_rows (E := Placement.engine) false PUZZLE_LIMIT
                  [Examples.same_square_row]) = [p] /\
     correct_move p = "a1a1" /\
     ~ legal_at_creation (E := Placement.engine) p) /\
  (exists p,
     ConvertBenchmarks.bigbench_examples (S := TextMoves.san)
       [Examples.null_target_example] = [p] /\
     ConvertBenchmarks.checkmate_fen p = Fen.START_FEN /\
     ConvertBenchmarks.checkmate_correct_move p = "0000" /\
     ~ legal_move_at (E := TextMoves.engine) (ConvertBenchmarks.checkmate_fen p)
         (ConvertBenchmarks.checkmate_correct_move p)).
Proof.
  split.
  - eexists. split; [vm_compute; reflexivity|]. split; [reflexivity|].
    intros (b & m & _ & Hparse & _). vm_compute in Hparse. discriminate.
  - eexists. split; [vm_compute; reflexivity|]. split; [reflexivity|].
    split; [reflexivity|].
    intros (b & m & _ & Hparse & Hlegal).
    cbn [ConvertBenchmarks.checkmate_correct_move] in Hparse.
    vm_compute in Hparse. injection Hparse as <-.
    vm_compute in Hlegal. discriminate.
Qed.

(** two Big-Bench examples on an engine for which the two facts about
    [parse_san] hold: the target [e2e4] gives a legal move, the target [--]
    the null move *)
Lemma C8_emitted_moves_witness :
  Forall (fun p => legal_move_at (E := TextMoves.engine)
                     (ConvertBenchmarks.checkmate_fen p)
                     (ConvertBenchmarks.checkmate_correct_move p) \/
                   ConvertBenchmarks.checkmate_correct_move p = "0000")
    (ConvertBenchmarks.bigbench_examples (S := TextMoves.san)
       [Examples.coordinate_target_example; Examples.null_target_example]).
Proof.
  refine (proj2 (proj2 (proj2 (proj2 (proj2 (proj2
            (C8_emitted_moves_are_legal (S := TextMoves.san))))))) _
            [Examples.coordinate_target_example; Examples.null_target_example]).
  intros board san move. cbn [parse_san uci from_uci is_legal TextMoves.san TextMoves.engine].
  unfold TextMoves.read_san, TextMoves.read, TextMoves.accepts.
  destruct (existsb (String.eqb san) ["--"; "Z0"; "0000"; "@@@@"]).
  - intros [= <-]. split; [now right | reflexivity].
  - destruct (Placement.parse san) as [m|] eqn:Hm; [|discriminate].
    destruct (Placement.accepts board m) eqn:Ha; [|discriminate].
    intros [= <-]. split; [left; now rewrite Hm|].
    rewrite Hm. now destruct (String.eqb san TextMoves.NULL).
Defined.

(** ** Decompression failures *)

Section DecompressionClaims.
Context {E : ChessEngine}.

(** after a successful decompression the artifact is written *)
Lemma convert_lichess_writes (have_chess : bool) (temp : string)
    (written : list Row) (files : Files) :
  snd (ConvertLichess.convert_lichess_puzzles have_chess temp
         (ZstdExited 0 written) files) !! ConvertLichess.OUTPUT
  = Some (JsonFile (ConvertLichess.benchmark_data
                      (positions (lichess_rows have_chess PUZZLE_LIMIT written)))).
Proof.
  unfold ConvertLichess.convert_lichess_puzzles. cbn [Z.eqb negb snd].
  apply lookup_insert_eq.
Qed.

Lemma lookup_after_temp (temp path : string) (d d' : FileData) (files : Files) :
  temp <> path ->
  delete temp (<[temp := d']> (<[temp := d]> files)) !! path = files !! path.
Proof.
  intros Hne. rewrite lookup_delete_ne by exact Hne.
  now rewrite !lookup_insert_ne by exact Hne.
Qed.

Lemma lookup_after_temp1 (temp path : string) (d : FileData) (files : Files) :
  temp <> path -> delete temp (<[temp := d]> files) !! path = files !! path.
Proof.
  intros Hne. rewrite lookup_delete_ne by exact Hne.
  now rewrite lookup_insert_ne by exact Hne.
Qed.

(** C9.  When decompression fails (zstd ends with a non-zero code or
    cannot be started) both Lichess converters stop before the row loop:
    [convert_lichess] returns 0 or lets the error of [subprocess.run]
    through, [convert_benchmarks] raises; the artifact path holds what it
    held before the run, and the temporary file is gone. *)
Theorem C9_failed_decompression_writes_no_artifact (have_chess benchmarks_dir : bool)
    (temp : string) (zstd : ZstdRun) (files : Files) :
  decompression_failed zstd ->
  temp <> ConvertLichess.OUTPUT ->
  ((fst (ConvertLichess.convert_lichess_puzzles have_chess temp zstd files) = Ok 0 \/
    fst (ConvertLichess.convert_lichess_puzzles have_chess temp zstd files)
    = Raise FileNotFoundError) /\
   snd (ConvertLichess.convert_lichess_puzzles have_chess temp zstd files)
     !! ConvertLichess.OUTPUT = files !! ConvertLichess.OUTPUT /\
   snd (ConvertLichess.convert_lichess_puzzles have_chess temp zstd files)
     !! temp = None) /\
  ((exists e, fst (ConvertBenchmarks.convert_lichess_puzzles benchmarks_dir temp zstd files)
              = Raise e) /\
   snd (ConvertBenchmarks.convert_lichess_puzzles benchmarks_dir temp zstd files)
     !! ConvertBenchmarks.OUTPUT = files !! ConvertBenchmarks.OUTPUT /\
   snd (ConvertBenchmarks.convert_lichess_puzzles benchmarks_dir temp zstd files)
     !! temp = None).
Proof.
  intros Hfail Hne.
  unfold ConvertLichess.convert_lichess_puzzles,
    ConvertBenchmarks.convert_lichess_puzzles.
  change ConvertBenchmarks.OUTPUT with ConvertLichess.OUTPUT.
  destruct zstd as [returncode written|]; cbn [decompression_failed] in Hfail.
  - destruct (Z.eqb_spec returncode 0) as [->|_]; [contradiction|].
    cbn [negb fst snd]. split; [split; [now left | split] | split; [|split]].
    + now apply lookup_after_temp.
    + apply lookup_delete_eq.
    + now exists (CalledProcessError returncode).
    + now apply lookup_after_temp.
    + apply lookup_delete_eq.
  - cbn [fst snd]. split; [split; [now right | split] | split; [|split]].
    + now apply lookup_after_temp1.
    + apply lookup_delete_eq.
    + now exists FileNotFoundError.
    + now apply lookup_after_temp1.
    + apply lookup_delete_eq.
Qed.

End DecompressionClaims.

(** zstd ends with exit code 1; no file exists before the run *)
Lemma C9_failed_decompression_witness :
  snd (ConvertLichess.convert_lichess_puzzles (E := Placement.engine) true
         "/tmp/tmpk3x9.csv" (ZstdExited 1 []) ∅) !! ConvertLichess.OUTPUT = None.
Proof.
  refine (proj1 (proj2 (proj1
            (C9_failed_decompression_writes_no_artifact (E := Placement.engine) true
               true "/tmp/tmpk3x9.csv" (ZstdExited 1 []) ∅ _ _)))).
  - simpl. discriminate.
  - discriminate.
Defined.

(** * Further properties of the converters *)

(** ** The encoder: alphabet, columns, length, injectivity *)

Section EncoderExtras.
Import Fen.

Lemma fill_clean (n : nat) : Forall clean (repeat FILL n).
Proof. induction n; simpl; constructor; [split; reflexivity | assumption]. Qed.

Lemma expand_digit_clean (c : ascii) :
  Forall clean (remove_slashes (expand_digit c)).
Proof.
  unfold expand_digit. destruct (is_digit c) eqn:Hd.
  - rewrite remove_slashes_fill. apply fill_clean.
  - simpl. destruct (Ascii.eqb c SLASH) eqn:Hs; simpl; repeat constructor; assumption.
Qed.

Lemma encode_placement_clean (p : list ascii) : Forall clean (encode_placement p).
Proof.
  unfold encode_placement. induction p as [|c p IH]; [constructor|].
  cbn [sub_digits flat_map]. unfold remove_slashes in *. rewrite List.filter_app.
  apply Forall_app. split; [apply expand_digit_clean | exact IH].
Qed.

Lemma encode_placement_fixed (l : list ascii) :
  Forall clean l -> encode_placement l = l.
Proof.
  unfold encode_placement. induction 1 as [|c l [Hs Hd] _ IH]; [reflexivity|].
  cbn [sub_digits flat_map]. unfold expand_digit. rewrite Hd.
  cbn [app remove_slashes List.filter]. rewrite Hs. cbn [negb]. f_equal. exact IH.
Qed.

(** X1.  Whatever the placement field holds, its encoding contains no rank
    separator and no digit, and encoding it once more changes nothing. *)
Theorem X1_placement_has_no_separator_or_digit (position : list ascii) :
  Forall (fun c => Ascii.eqb c SLASH = false /\ is_digit c = false)
    (encode_placement position) /\
  encode_placement (encode_placement position) = encode_placement position.
Proof.
  split; [apply encode_placement_clean|].
  apply encode_placement_fixed, encode_placement_clean.
Qed.

Lemma column_text (start width : nat) (l : list ascii) :
  column start width (text l) = firstn width (skipn start l).
Proof. unfold column. now rewrite chars_text. Qed.

Lemma ljust_plus_fill (h : list ascii) :
  length h <= 2 -> ljust 2 h ++ [FILL] = h ++ repeat FILL (3 - length h).
Proof.
  intros Hh. unfold ljust. rewrite <- app_assoc. f_equal.
  change [FILL] with (repeat FILL 1). rewrite <- repeat_app. f_equal. lia.
Qed.

(** X2.  For a valid position whose clocks fit, the six fields stand at
    the offsets 0, 64, 65, 69, 71 and 74 of the output: the expanded
    placement, the side to move, and each further field followed by its
    filler characters (the padding is on the right). *)
Theorem X2_fields_stand_in_fixed_columns (fen : string) (p t c e h f : list ascii) :
  fields_of fen = [p; t; c; e; h; f] ->
  valid_fields p t c e h f = true ->
  length h <= 2 -> length f <= 3 ->
  exists out,
    process_fen_rook_style fen = Ok out /\
    column 0 64 out = encode_placement p /\
    column 64 1 out = t /\
    column 65 4 out = c ++ repeat FILL (4 - length c) /\
    column 69 2 out = e ++ repeat FILL (2 - length e) /\
    column 71 3 out = h ++ repeat FILL (3 - length h) /\
    column 74 3 out = f ++ repeat FILL (3 - length f).
Proof.
  intros Hsplit Hv Hh Hf.
  exists (text (encode_fields p t c e h f)). split.
  { now apply process_fen_on_fields. }
  destruct (encoder_columns p t c e h f Hv Hh Hf) as (Lp & Lt & Lc & Le & Lh & Lf).
  rewrite !column_text. unfold encode_fields. cbn [concat]. rewrite app_nil_r.
  destruct (regroup _ _ _ _ _ _ Lp Lt Lc Le Lh Lf) as (R1 & R2 & R3 & R4 & R5 & R6).
  rewrite drop_0, R1, R2, R3, R4, R5, R6.
  rewrite (ljust_plus_fill h Hh). repeat split.
Qed.

(** the start position *)
Lemma X2_fixed_columns_witness :
  exists out,
    process_fen_rook_style START_FEN = Ok out /\
    column 0 64 out
    = chars "rnbqkbnrpppppppp................................PPPPPPPPRNBQKBNR" /\
    column 64 1 out = chars "w" /\
    column 65 4 out = chars "KQkq" /\
    column 69 2 out = chars "-." /\
    column 71 3 out = chars "0.." /\
    column 74 3 out = chars "1..".
Proof.
  refine (X2_fields_stand_in_fixed_columns START_FEN
            (chars "rnbqkbnr/pppppppp/8/8/8/8/PPPPPPPP/RNBQKBNR") (chars "w")
            (chars "KQkq") (chars "-") (chars "0") (chars "1") _ _ _ _).
  - reflexivity.
  - reflexivity.
  - simpl. lia.
  - simpl. lia.
Defined.

(** X3.  The output for a valid position has at least 77 characters, and
    exactly 77 if and only if the halfmove clock has at most two digits and
    the fullmove number at most three. *)
Theorem X3_length_77_iff_clocks_fit (fen : string) :
  valid_fen fen = true ->
  exists out,
    process_fen_rook_style fen = Ok out /\
    77 <= String.length out /\
    (String.length out = 77 <-> clocks_fit fen = true).
Proof.
  intros Hv.
  destruct (valid_fen_fields fen Hv) as (p & t & c & e & h & f & Hsplit & Hfields).
  destruct (encoder_length_formula fen p t c e h f Hsplit Hfields) as (out & Hout & Hlen).
  exists out. split; [exact Hout|]. split; [lia|].
  unfold clocks_fit. rewrite Hsplit, andb_true_iff, !Nat.leb_le. lia.
Qed.

Lemma X3_length_witness :
  exists out,
    process_fen_rook_style LONG_CLOCK_FEN = Ok out /\
    77 <= String.length out /\
    (String.length out = 77 <-> clocks_fit LONG_CLOCK_FEN = true).
Proof. apply (X3_length_77_iff_clocks_fit LONG_CLOCK_FEN). reflexivity. Defined.

(** the fields of a valid position whose clocks fit are read back from
    the encoded fields *)
Lemma decode_encode_fields (p t c e h f : list ascii) :
  valid_fields p t c e h f = true -> length h <= 2 -> length f <= 3 ->
  decode_rook_style (text (encode_fields p t c e h f)) = [p; t; c; e; h; f].
Proof.
  intros Hv Hh Hf.
  destruct (encoder_columns p t c e h f Hv Hh Hf) as (Lp & Lt & Lc & Le & Lh & Lf).
  destruct (valid_fields_parts _ _ _ _ _ _ Hv) as (Vp & Vt & Vc & Ve & Vh & Vf).
  unfold decode_rook_style. rewrite chars_text.
  unfold encode_fields. cbn [concat]. rewrite app_nil_r.
  destruct (regroup _ _ _ _ _ _ Lp Lt Lc Le Lh Lf) as (R1 & R2 & R3 & R4 & R5 & R6).
  rewrite R1, R2, R3, R4, R5, R6, (ljust_plus_fill h Hh).
  rewrite (decode_encode_placement p Vp).
  rewrite (strip_fill_ljust 4 c (no_fill_castling c Vc)).
  rewrite (strip_fill_ljust 2 e (no_fill_en_passant e Ve)).
  rewrite (strip_fill_ljust 3 f (no_fill_number f Vf)).
  rewrite (strip_fill_padding h _ (no_fill_number h Vh)).
  assert (Ht : strip_fill t = t).
  { pose proof (strip_fill_padding t 0 (no_fill_turn t Vt)) as H.
    cbn [repeat] in H. now rewrite app_nil_r in H. }
  now rewrite Ht.
Qed.

Lemma fen_of_fields (fen : string) : text (join SPACE (fields_of fen)) = fen.
Proof. unfold fields_of. now rewrite join_split_on, text_chars. Qed.

(** X4.  Two valid positions whose clocks fit and which are encoded to
    the same string are the same position text. *)
Theorem X4_encoder_is_injective (fen1 fen2 : string) :
  valid_fen fen1 = true -> clocks_fit fen1 = true ->
  valid_fen fen2 = true -> clocks_fit fen2 = true ->
  process_fen_rook_style fen1 = process_fen_rook_style fen2 ->
  fen1 = fen2.
Proof.
  intros V1 C1 V2 C2 Heq.
  destruct (valid_fen_fields fen1 V1) as (p1 & t1 & c1 & e1 & h1 & f1 & S1 & F1).
  destruct (valid_fen_fields fen2 V2) as (p2 & t2 & c2 & e2 & h2 & f2 & S2 & F2).
  unfold clocks_fit in C1, C2. rewrite S1 in C1. rewrite S2 in C2.
  apply andb_true_iff in C1 as [Hh1 Hf1]. apply andb_true_iff in C2 as [Hh2 Hf2].
  apply Nat.leb_le in Hh1, Hf1, Hh2, Hf2.
  rewrite (process_fen_on_fields fen1 _ _ _ _ _ _ S1) in Heq.
  rewrite (process_fen_on_fields fen2 _ _ _ _ _ _ S2) in Heq.
  injection Heq as Heq.
  pose proof (decode_encode_fields _ _ _ _ _ _ F1 Hh1 Hf1) as D1.
  pose proof (decode_encode_fields _ _ _ _ _ _ F2 Hh2 Hf2) as D2.
  rewrite Heq, D2 in D1.
  rewrite <- (fen_of_fields fen1), <- (fen_of_fields fen2), S1, S2, D1. reflexivity.
Qed.

Lemma X4_encoder_injective_witness : START_FEN = START_FEN.
Proof. apply (X4_encoder_is_injective START_FEN START_FEN); reflexivity. Defined.

End EncoderExtras.

(** ** The encoder writes tokens of the research vocabulary only *)

Section VocabularyExtras.
Import Fen CheckVocab.

Lemma forallb_fill (n : nat) : forallb in_research_vocab (repeat FILL n) = true.
Proof. induction n; simpl; [reflexivity | exact IHn]. Qed.

Lemma digit_in_vocab (c : ascii) : is_digit c = true -> in_research_vocab c = true.
Proof.
  intros Hd. rewrite <- (digit_char_value c Hd).
  unfold is_digit in Hd. apply andb_true_iff in Hd as [_ Hhi]. apply Nat.leb_le in Hhi.
  assert (Hv : digit_value c <= 9) by (unfold digit_value; lia).
  revert Hv. generalize (digit_value c). clear. intros v Hv.
  do 10 (destruct v as [|v]; [reflexivity|]). lia.
Qed.

Lemma forallb_ljust (w : nat) (s : list ascii) :
  forallb in_research_vocab s = true ->
  forallb in_research_vocab (ljust w s) = true.
Proof. intros Hs. unfold ljust. now rewrite forallb_app, Hs, forallb_fill. Qed.

Lemma rank_in_vocab (r : list ascii) :
  rank_wf r = true -> forallb in_research_vocab (sub_digits r) = true.
Proof.
  induction r as [|c r IH]; [reflexivity|].
  cbn [rank_wf sub_digits flat_map]. fold (sub_digits r).
  rewrite forallb_app. unfold expand_digit.
  destruct (is_piece c) eqn:Hp.
  - intros Hr. destruct (piece_not_fill c Hp) as [_ Hnd]. rewrite Hnd, (IH Hr).
    cbn [forallb].
    now rewrite (existsb_forallb in_research_vocab c _ Hp eq_refl).
  - intros H. apply andb_true_iff in H as [H Hr]. apply andb_true_iff in H as [Hg _].
    unfold is_gap in Hg. apply andb_true_iff in Hg as [Hg _].
    apply andb_true_iff in Hg as [Hd _].
    now rewrite Hd, forallb_fill, (IH Hr).
Qed.

Lemma placement_in_vocab (p : list ascii) :
  valid_placement p = true -> forallb in_research_vocab (encode_placement p) = true.
Proof.
  unfold valid_placement. intros H. apply andb_true_iff in H as [_ Hranks].
  rewrite encode_placement_ranks.
  induction (split_on SLASH p) as [|r ranks IH]; [reflexivity|].
  cbn [forallb] in Hranks. apply andb_true_iff in Hranks as [Hr Hranks].
  cbn [map concat]. rewrite forallb_app, (IH Hranks).
  unfold valid_rank in Hr. apply andb_true_iff in Hr as [Hwf _].
  now rewrite (rank_in_vocab r Hwf).
Qed.

Lemma number_in_vocab (n : list ascii) :
  valid_number n = true -> forallb in_research_vocab n = true.
Proof.
  unfold valid_number. destruct n as [|d n]; [discriminate|].
  generalize (d :: n). clear. intros l H.
  induction l as [|c l IH]; [reflexivity|]. cbn [forallb] in *.
  apply andb_true_iff in H as [Hc Hl]. now rewrite (digit_in_vocab c Hc), IH.
Qed.

Lemma castling_in_vocab (c : list ascii) :
  valid_castling c = true -> forallb in_research_vocab c = true.
Proof.
  intros H. apply valid_castling_cases in H. simpl in H.
  repeat (destruct H as [<-|H]; [reflexivity|]). destruct H.
Qed.

Lemma en_passant_in_vocab (e : list ascii) :
  valid_en_passant e = true -> forallb in_research_vocab e = true.
Proof.
  destruct e as [|a [|b [|c e]]]; unfold valid_en_passant; try discriminate.
  - intros H. apply Ascii.eqb_eq in H. now subst.
  - intros H. apply andb_true_iff in H as [Ha Hb]. cbn [forallb].
    rewrite (existsb_forallb in_research_vocab a _ Ha eq_refl).
    now rewrite (existsb_forallb in_research_vocab b _ Hb eq_refl).
Qed.

(** X5.  Every character that the encoder writes for a valid position is
    one of the 32 tokens of the research vocabulary listed in
    [check_vocab.py], whatever the length of the clocks. *)
Theorem X5_encoder_output_in_research_vocab (fen : string) :
  valid_fen fen = true ->
  exists out,
    process_fen_rook_style fen = Ok out /\
    forallb in_research_vocab (chars out) = true.
Proof.
  intros Hv.
  destruct (valid_fen_fields fen Hv) as (p & t & c & e & h & f & Hsplit & Hfields).
  destruct (valid_fields_parts _ _ _ _ _ _ Hfields) as (Vp & Vt & Vc & Ve & Vh & Vf).
  exists (text (encode_fields p t c e h f)). split.
  { now apply process_fen_on_fields. }
  rewrite chars_text. unfold encode_fields. cbn [concat].
  rewrite !forallb_app, (placement_in_vocab p Vp).
  rewrite (forallb_ljust 4 c (castling_in_vocab c Vc)).
  rewrite (forallb_ljust 2 e (en_passant_in_vocab e Ve)).
  rewrite (forallb_ljust 2 h (number_in_vocab h Vh)).
  rewrite (forallb_ljust 3 f (number_in_vocab f Vf)).
  destruct (valid_turn_cases t Vt) as [->| ->]; reflexivity.
Qed.

Lemma X5_research_vocab_witness :
  exists out,
    process_fen_rook_style LONG_CLOCK_FEN = Ok out /\
    forallb in_research_vocab (chars out) = true.
Proof. apply (X5_encoder_output_in_research_vocab LONG_CLOCK_FEN). reflexivity. Defined.

End VocabularyExtras.

(** ** [check_vocab.py]: when the comparison reports no difference *)

Section VocabularyComparison.
Import CheckVocab.

Lemma enumerate_lookup (tokens : list string) :
  forall (k : nat) (d : gmap string nat) (t : string),
    (~ In t tokens ->
     fold_left (fun d it => <[snd it := fst it]> d)
       (combine (seq k (length tokens)) tokens) d !! t = d !! t) /\
    (NoDup tokens -> forall i, tokens !! i = Some t ->
     fold_left (fun d it => <[snd it := fst it]> d)
       (combine (seq k (length tokens)) tokens) d !! t = Some (k + i)).
Proof.
  induction tokens as [|x l IH]; intros k d t.
  - split; [reflexivity | intros _ i Hi; discriminate].
  - cbn [length seq combine fold_left fst snd]. split.
    + intros Hnot.
      destruct (IH (S k) (<[x := k]> d) t) as [IHa _].
      rewrite IHa by (intros Hin; apply Hnot; now right).
      apply lookup_insert_ne. intros ->. apply Hnot. now left.
    + intros Hnd [|i] Hi.
      * injection Hi as ->. apply NoDup_cons in Hnd as [Hx _].
        destruct (IH (S k) (<[t := k]> d) t) as [IHa _].
        rewrite IHa by (intros Hin; apply Hx; now apply list_elem_of_In).
        rewrite lookup_insert_eq. f_equal. lia.
      * apply NoDup_cons in Hnd as [_ Hl].
        destruct (IH (S k) (<[x := k]> d) t) as [_ IHb].
        rewrite (IHb Hl i Hi). f_equal. lia.
Qed.

Lemma research_vocab_NoDup : NoDup research_vocab.
Proof. apply (bool_decide_unpack _). vm_compute. exact I. Qed.

(** the dictionary gives a token its position in the list, and nothing else *)
Lemma research_vocab_dict_lookup (t : string) (i : nat) :
  research_vocab_dict !! t = Some i <-> research_vocab !! i = Some t.
Proof.
  unfold research_vocab_dict, enumerate_dict.
  destruct (enumerate_lookup research_vocab 0 ∅ t) as [Hout Hin].
  split.
  - intros Hd. destruct (In_dec string_dec t research_vocab) as [Hi|Hni].
    + apply list_elem_of_In, list_elem_of_lookup in Hi as [j Hj].
      rewrite (Hin research_vocab_NoDup j Hj) in Hd. injection Hd as <-. exact Hj.
    + rewrite (Hout Hni), lookup_empty in Hd. discriminate.
  - intros Hi. now rewrite (Hin research_vocab_NoDup i Hi).
Qed.

Lemma research_vocab_dict_none (t : string) :
  research_vocab_dict !! t = None <-> ~ In t research_vocab.
Proof.
  split.
  - intros Hd Hi. apply list_elem_of_In, list_elem_of_lookup in Hi as [j Hj].
    apply research_vocab_dict_lookup in Hj. congruence.
  - intros Hni. destruct (research_vocab_dict !! t) as [i|] eqn:Hd; [|reflexivity].
    apply research_vocab_dict_lookup in Hd. exfalso. apply Hni.
    apply list_elem_of_In, list_elem_of_lookup. eauto.
Qed.

(** X6.  The comparison of [check_vocab.py] finds no difference exactly
    when every token of the demo vocabulary that stands in the research
    list has the position in that list as its id, and every other token
    has an id of 32 or more. *)
Theorem X6_no_difference_iff_core_ids_agree (demo_vocab : list (string * Z)) :
  differences demo_vocab = [] <->
  Forall (fun item =>
            (forall i, research_vocab !! i = Some (fst item) ->
                       snd item = Z.of_nat i) /\
            (~ In (fst item) research_vocab -> (32 <= snd item)%Z))
    demo_vocab.
Proof.
  unfold differences. induction demo_vocab as [|[token id] l IH].
  - split; [constructor | reflexivity].
  - cbn [flat_map]. rewrite Forall_cons, <- IH. cbn [fst snd].
    split.
    + intros H. apply app_eq_nil in H as [Hitem Hl]. split; [|exact Hl].
      unfold difference_of in Hitem.
      destruct (research_vocab_dict !! token) as [r|] eqn:Hd.
      * apply research_vocab_dict_lookup in Hd.
        destruct (Z.eqb_spec id (Z.of_nat r)) as [->|]; [|discriminate].
        split.
        -- intros i Hi. f_equal.
           apply (NoDup_lookup research_vocab r i token research_vocab_NoDup Hd Hi).
        -- intros Hni. exfalso. apply Hni.
           apply list_elem_of_In, list_elem_of_lookup. eauto.
      * apply research_vocab_dict_none in Hd.
        destruct (Z.ltb_spec id 32); [discriminate|].
        split; [|intros _; assumption].
        intros i Hi. exfalso. apply Hd.
        apply list_elem_of_In, list_elem_of_lookup. eauto.
    + intros [[Hin Hout] Hl]. rewrite Hl, app_nil_r.
      unfold difference_of.
      destruct (research_vocab_dict !! token) as [r|] eqn:Hd.
      * apply research_vocab_dict_lookup in Hd. rewrite (Hin r Hd), Z.eqb_refl.
        reflexivity.
      * apply research_vocab_dict_none in Hd. specialize (Hout Hd).
        destruct (Z.ltb_spec id 32); [lia | reflexivity].
Qed.

End VocabularyComparison.

(** ** The replay loops compared, and what a record stands for *)

Section ReplayExtras.
Context {E : ChessEngine}.

(** X7.  On a solution whose moves all parse the loop of
    [convert_gdm_correct] and the loop of [convert_lichess] append the same
    records: they differ only through the [continue] taken at a move that
    does not parse. *)
Theorem X7_replay_loops_agree_when_moves_parse
    (mk : nat -> string -> string -> EvalPosition) (moves : list string) :
  Forall (fun mv => from_uci mv <> None) moves ->
  forall (board : Board) (i : nat),
    gdm_replay mk board i moves = lichess_replay mk board i moves.
Proof.
  induction 1 as [|mv rest Hmv _ IH]; intros board i; [reflexivity|].
  cbn [gdm_replay lichess_replay].
  destruct (from_uci mv) as [move|] eqn:Hp; [|congruence].
  assert (Hnext : match advance board mv with
                  | Some b' => gdm_replay mk b' (S i) rest
                  | None => []
                  end
                  = match advance board mv with
                    | Some b' => lichess_replay mk b' (S i) rest
                    | None => []
                    end)
    by (destruct (advance board mv); [apply IH | reflexivity]).
  destruct (i mod 2 =? 1); now rewrite Hnext.
Qed.

Lemma length_filter_odd (n : nat) :
  forall i, length (List.filter Nat.odd (seq i n))
            = Nat.div2 (n + Nat.b2n (Nat.odd i)).
Proof.
  induction n as [|n IH]; intros i.
  - simpl. now destruct (Nat.odd i).
  - cbn [seq List.filter]. specialize (IH (S i)). rewrite odd_succ_negb in IH.
    destruct (Nat.odd i); cbn [negb Nat.b2n length] in *; rewrite IH.
    + rewrite Nat.add_0_r. replace (S n + 1) with (S (S n)) by lia. reflexivity.
    + rewrite Nat.add_0_r. f_equal. lia.
Qed.

Lemma lichess_replay_indices (mk : nat -> string -> string -> EvalPosition)
    (proj : EvalPosition -> option nat) :
  (forall j f mv, proj (mk j f mv) = Some j) ->
  forall (moves : list string) (board : Board) (i : nat),
    replays_legally board i moves = true ->
    map proj (lichess_replay mk board i moves)
    = map Some (List.filter Nat.odd (seq i (length moves))).
Proof.
  intros Hproj. induction moves as [|mv rest IH]; intros board i Hok; [reflexivity|].
  cbn [replays_legally] in Hok. cbn [lichess_replay length seq List.filter].
  unfold advance. destruct (from_uci mv) as [move|]; [|discriminate].
  apply andb_true_iff in Hok as [Hlegal Hrest].
  destruct (push board move) as [board'|]; [|discriminate].
  rewrite map_app, (IH board' (S i) Hrest), <- mod2_odd.
  destruct (i mod 2 =? 1); [|reflexivity].
  rewrite Hlegal. cbn [map app]. now rewrite Hproj.
Qed.

Lemma gdm_replay_indices (mk : nat -> string -> string -> EvalPosition)
    (proj : EvalPosition -> option nat) :
  (forall j f mv, proj (mk j f mv) = Some j) ->
  forall (moves : list string) (board : Board) (i : nat),
    replays_legally board i moves = true ->
    map proj (gdm_replay mk board i moves)
    = map Some (List.filter Nat.odd (seq i (length moves))).
Proof.
  intros Hproj. induction moves as [|mv rest IH]; intros board i Hok; [reflexivity|].
  cbn [replays_legally] in Hok. cbn [gdm_replay length seq List.filter].
  unfold advance. destruct (from_uci mv) as [move|]; [|discriminate].
  apply andb_true_iff in Hok as [Hlegal Hrest].
  destruct (push board move) as [board'|]; [|discriminate].
  rewrite <- mod2_odd.
  destruct (i mod 2 =? 1).
  - rewrite Hlegal, map_app, (IH board' (S i) Hrest). cbn [map app]. now rewrite Hproj.
  - cbn [app]. apply (IH board' (S i) Hrest).
Qed.

(** X8.  When a whole solution replays (every move parses and is pushed,
    every move at an odd index is legal where it is played), both loops
    append one record for each odd index 1, 3, 5, ... below its length, in
    this order: floor(L/2) records. *)
Theorem X8_full_replay_covers_all_odd_indices (puzzle_id : string)
    (rating popularity : Z) (themes : list string) (solution : string)
    (board : Board) (moves : list string) :
  replays_legally board 0 moves = true ->
  map (fun p => move_index_in_sequence (metadata p))
    (lichess_replay (lichess_position puzzle_id rating themes popularity moves)
       board 0 moves)
  = map Some (List.filter Nat.odd (seq 0 (length moves))) /\
  map (fun p => move_index_in_sequence (metadata p))
    (gdm_replay (gdm_position puzzle_id rating solution moves) board 0 moves)
  = map Some (List.filter Nat.odd (seq 0 (length moves))) /\
  length (lichess_replay (lichess_position puzzle_id rating themes popularity moves)
            board 0 moves) = length moves / 2.
Proof.
  intros Hok.
  pose proof (lichess_replay_indices
                (lichess_position puzzle_id rating themes popularity moves)
                (fun p => move_index_in_sequence (metadata p))
                (fun j f mv => eq_refl) moves board 0 Hok) as Hidx.
  split; [exact Hidx|]. split.
  - exact (gdm_replay_indices (gdm_position puzzle_id rating solution moves)
             (fun p => move_index_in_sequence (metadata p))
             (fun j f mv => eq_refl) moves board 0 Hok).
  - apply (f_equal (@length _)) in Hidx. rewrite !length_map in Hidx.
    rewrite Hidx, length_filter_odd, Nat.div2_div. simpl. now rewrite Nat.add_0_r.
Qed.

End ReplayExtras.

(** the scenario moves: all three parse *)
Lemma X7_replay_loops_witness :
  gdm_replay (E := Placement.engine) (gdm_position "s0001" 1200 "e5" [])
    Placement.start_board 0 ["e2e4"; "e7e5"; "g1f3"]
  = lichess_replay (E := Placement.engine) (gdm_position "s0001" 1200 "e5" [])
      Placement.start_board 0 ["e2e4"; "e7e5"; "g1f3"].
Proof.
  apply (X7_replay_loops_agree_when_moves_parse (E := Placement.engine)).
  repeat constructor; discriminate.
Defined.

(** the scenario moves replay in full: one record, index 1 *)
Lemma X8_full_replay_witness :
  map (fun p => move_index_in_sequence (metadata p))
    (lichess_replay (E := Placement.engine)
       (lichess_position "s0001" 1200 [] 0 ["e2e4"; "e7e5"; "g1f3"])
       Placement.start_board 0 ["e2e4"; "e7e5"; "g1f3"])
  = [Some 1].
Proof.
  refine (proj1 (X8_full_replay_covers_all_odd_indices (E := Placement.engine)
                   "s0001" 1200 0 [] "e5" Placement.start_board
                   ["e2e4"; "e7e5"; "g1f3"] _)).
  vm_compute. reflexivity.
Defined.

Section ReplayPositions.
Context {E : ChessEngine}.

Lemma advance_all_snoc (board : Board) (pre : list string) (mv : string) :
  advance_all board (pre ++ [mv])
  = match advance_all board pre with
    | Some b => advance b mv
    | None => None
    end.
Proof.
  revert board. induction pre as [|x pre IH]; intros board; cbn [app advance_all].
  - now destruct (advance board mv).
  - destruct (advance board x); [apply IH | reflexivity].
Qed.

Lemma lichess_replay_boards (mk : nat -> string -> string -> EvalPosition)
    (board0 : Board) :
  forall (rest pre : list string) (board : Board),
    advance_all board0 pre = Some board ->
    Forall (fun p => exists (j : nat) (bj : Board) (mv : string),
                p = mk j (fen bj) mv /\
                advance_all board0 (firstn j (pre ++ rest)) = Some bj /\
                (pre ++ rest) !! j = Some mv)
      (lichess_replay mk board (length pre) rest).
Proof.
  induction rest as [|mv rest IH]; intros pre board Hpre; [constructor|].
  cbn [lichess_replay]. apply Forall_app. split.
  - destruct (_ =? 1); [|constructor].
    destruct (from_uci mv) as [move|]; [|constructor].
    destruct (is_legal board move); [|constructor].
    constructor; [|constructor].
    exists (length pre), board, mv. split; [reflexivity|]. split.
    + now rewrite take_app_length.
    + now apply list_lookup_middle.
  - destruct (advance board mv) as [board'|] eqn:Hadv; [|constructor].
    specialize (IH (pre ++ [mv]) board').
    rewrite advance_all_snoc, Hpre, <- app_assoc, length_app in IH.
    cbn [length app] in IH. rewrite Nat.add_1_r in IH. now apply IH.
Qed.

(** X9.  In [convert_lichess] the position stored with a record of index
    [j] is the notation of the board reached from the puzzle's board by
    pushing exactly the first [j] moves of the solution, and the expected
    move is the move number [j]. *)
Theorem X9_position_is_board_after_prefix (puzzle_id : string)
    (rating popularity : Z) (themes : list string)
    (board : Board) (moves : list string) :
  Forall (fun p => exists (j : nat) (bj : Board),
              move_index_in_sequence (metadata p) = Some j /\
              advance_all board (firstn j moves) = Some bj /\
              position_fen p = fen bj /\
              moves !! j = Some (correct_move p))
    (lichess_replay (lichess_position puzzle_id rating themes popularity moves)
       board 0 moves).
Proof.
  eapply List.Forall_impl;
    [|exact (lichess_replay_boards _ board moves [] board eq_refl)].
  intros p (j & bj & mv & -> & Hadv & Hmv). exists j, bj. now repeat split.
Qed.

(** X10.  In [convert_lichess], once the moves [pre] have been pushed and
    the push of the next move fails, the moves after it play no part: the
    records are those of [pre] followed by this move alone, and those of
    [pre] when the move does not even parse. *)
Theorem X10_lichess_replay_halts_at_failed_push
    (mk : nat -> string -> string -> EvalPosition)
    (pre post : list string) (mv : string) (board board' : Board) :
  advance_all board pre = Some board' ->
  advance board' mv = None ->
  lichess_replay mk board 0 (pre ++ mv :: post)
  = lichess_replay mk board 0 (pre ++ [mv]) /\
  (from_uci mv = None ->
   lichess_replay mk board 0 (pre ++ mv :: post) = lichess_replay mk board 0 pre).
Proof.
  intros Hpre Hfail. split.
  - now apply lichess_replay_stops with board'.
  - intros Hparse. now apply lichess_replay_drops with board'.
Qed.

End ReplayPositions.

(** after e2e4 the text xxxx cannot be pushed; e7e5 and g1f3 are ignored *)
Lemma X10_lichess_replay_halts_witness :
  lichess_replay (E := Placement.engine) (gdm_position "u0001" 1200 "Nf3" [])
    Placement.start_board 0 (["e2e4"] ++ "xxxx" :: ["e7e5"; "g1f3"])
  = lichess_replay (E := Placement.engine) (gdm_position "u0001" 1200 "Nf3" [])
      Placement.start_board 0 (["e2e4"] ++ ["xxxx"]).
Proof.
  pose (b1 := default Placement.start_board
                (Placement.play Placement.start_board (52, 36, None))).
  refine (proj1 (X10_lichess_replay_halts_at_failed_push (E := Placement.engine)
                   (gdm_position "u0001" 1200 "Nf3" [])
                   ["e2e4"] ["e7e5"; "g1f3"] "xxxx" Placement.start_board b1 _ _));
    vm_compute; reflexivity.
Defined.

(** ** The row loop: order, truncation, skipped rows *)

Section RowLoopExtras.
Variable body : Row -> RowOutcome.

Lemma positions_record_puzzle (id : string) (ps : list EvalPosition) (acc : Acc) :
  positions (record_puzzle id ps acc) = positions acc ++ ps.
Proof. destruct ps; [symmetry; apply app_nil_r | reflexivity]. Qed.

Lemma for_rows_prefix (cap : nat) (rows : list Row) :
  forall acc, exists k,
    k <= length rows /\
    positions (for_rows body cap rows acc)
    = positions acc ++ concat (map (fun r => row_positions (body r)) (firstn k rows)).
Proof.
  induction rows as [|row rows IH]; intros acc.
  - exists 0. split; [lia|]. simpl. now rewrite app_nil_r.
  - cbn [for_rows]. destruct (body row) as [|id ps] eqn:Hrow.
    + destruct (IH acc) as (k & Hk & Hpos). exists (S k). split; [simpl; lia|].
      cbn [firstn map concat]. now rewrite Hrow.
    + destruct (cap <=? _).
      * exists 1. split; [simpl; lia|].
        cbn [firstn map concat]. rewrite Hrow, positions_record_puzzle. simpl.
        now rewrite app_nil_r.
      * destruct (IH (record_puzzle id ps acc)) as (k & Hk & Hpos).
        exists (S k). split; [simpl; lia|].
        cbn [firstn map concat]. rewrite Hrow, Hpos, positions_record_puzzle.
        simpl. now rewrite app_assoc.
Qed.

Lemma size_record_puzzle_le (id : string) (ps : list EvalPosition) (acc : Acc) :
  size (seen_puzzles (record_puzzle id ps acc)) <= S (size (seen_puzzles acc)).
Proof.
  destruct ps as [|p ps]; cbn [record_puzzle seen_puzzles]; [lia|].
  rewrite size_union_alt.
  assert (size ({[ id ]} ∖ seen_puzzles acc) <= size ({[ id ]} : gset string))
    by (apply subseteq_size, subseteq_difference_l; reflexivity).
  rewrite size_singleton in *. lia.
Qed.

Lemma for_rows_all (cap : nat) (rows : list Row) :
  forall acc,
    size (seen_puzzles acc) + length rows <= cap ->
    positions (for_rows body cap rows acc)
    = positions acc ++ concat (map (fun r => row_positions (body r)) rows).
Proof.
  induction rows as [|row rows IH]; intros acc Hsz.
  - simpl. now rewrite app_nil_r.
  - cbn [for_rows map concat length] in *. destruct (body row) as [|id ps].
    + apply IH. lia.
    + pose proof (size_record_puzzle_le id ps acc) as Hle. cbn [row_positions].
      destruct (Nat.leb_spec cap (size (seen_puzzles (record_puzzle id ps acc)))).
      * destruct rows; [|simpl in Hsz; lia].
        rewrite positions_record_puzzle. simpl. now rewrite app_nil_r.
      * rewrite IH by lia. rewrite positions_record_puzzle. now rewrite app_assoc.
Qed.

Lemma for_rows_stop_or_all (cap : nat) (rows : list Row) :
  forall acc,
    size (seen_puzzles acc) < cap ->
    size (seen_puzzles (for_rows body cap rows acc)) = cap \/
    positions (for_rows body cap rows acc)
    = positions acc ++ concat (map (fun r => row_positions (body r)) rows).
Proof.
  induction rows as [|row rows IH]; intros acc Hsz.
  - right. simpl. now rewrite app_nil_r.
  - cbn [for_rows map concat]. destruct (body row) as [|id ps].
    + now apply IH.
    + pose proof (size_record_puzzle_le id ps acc) as Hle. cbn [row_positions].
      destruct (Nat.leb_spec cap (size (seen_puzzles (record_puzzle id ps acc)))).
      * left. lia.
      * destruct (IH (record_puzzle id ps acc)) as [Hstop|Hall]; [assumption|now left|].
        right. rewrite Hall, positions_record_puzzle. now rewrite app_assoc.
Qed.

Lemma for_rows_continue (cap : nat) (row : Row) (post : list Row) :
  body row = Continue ->
  forall (pre : list Row) (acc : Acc),
    for_rows body cap (pre ++ row :: post) acc = for_rows body cap (pre ++ post) acc.
Proof.
  intros Hrow. induction pre as [|r pre IH]; intros acc.
  - cbn [app for_rows]. now rewrite Hrow.
  - cbn [app for_rows]. destruct (body r) as [|id ps]; [apply IH|].
    destruct (cap <=? _); [reflexivity | apply IH].
Qed.

End RowLoopExtras.

Section RunExtras.
Context {E : ChessEngine}.

(** X11.  The records of a run are the records of the first [k] rows of
    the input for some [k], row after row in the order of the input, and
    within a row in the order of the solution: nothing is reordered and no
    row behind the stopping point contributes. *)
Theorem X11_output_is_a_prefix_of_the_input (have_chess : bool) (cap : nat)
    (rows : list Row) :
  (exists k, k <= length rows /\
     positions (lichess_rows have_chess cap rows)
     = concat (map (fun r => row_positions (lichess_row have_chess r)) (firstn k rows))) /\
  (exists k, k <= length rows /\
     positions (gdm_rows cap rows)
     = concat (map (fun r => row_positions (gdm_row r)) (firstn k rows))).
Proof.
  split.
  - destruct (for_rows_prefix (lichess_row have_chess) cap rows acc0) as (k & Hk & H).
    exists k. split; [exact Hk | exact H].
  - destruct (for_rows_prefix gdm_row cap rows acc0) as (k & Hk & H).
    exists k. split; [exact Hk | exact H].
Qed.

(** X12.  An input with at most [cap] rows (at most 1000 for the
    converters) is never cut short: the run emits the records of every
    row. *)
Theorem X12_short_input_is_converted_in_full (have_chess : bool) (cap : nat)
    (rows : list Row) :
  length rows <= cap ->
  positions (lichess_rows have_chess cap rows)
  = concat (map (fun r => row_positions (lichess_row have_chess r)) rows) /\
  positions (gdm_rows cap rows)
  = concat (map (fun r => row_positions (gdm_row r)) rows).
Proof.
  intros Hlen. unfold lichess_rows, gdm_rows.
  assert (Hsz : size (seen_puzzles acc0) + length rows <= cap).
  { unfold acc0. cbn [seen_puzzles]. rewrite size_empty. lia. }
  split.
  - now rewrite (for_rows_all (lichess_row have_chess) cap rows acc0 Hsz).
  - now rewrite (for_rows_all gdm_row cap rows acc0 Hsz).
Qed.

(** X13.  With a limit of at least one, a run that does not emit the
    records of every row has accepted exactly [cap] distinct puzzles: the
    loop leaves early only when the limit is reached. *)
Theorem X13_early_stop_means_limit_reached (have_chess : bool) (cap : nat)
    (rows : list Row) :
  1 <= cap ->
  (size (seen_puzzles (lichess_rows have_chess cap rows)) = cap \/
   positions (lichess_rows have_chess cap rows)
   = concat (map (fun r => row_positions (lichess_row have_chess r)) rows)) /\
  (size (seen_puzzles (gdm_rows cap rows)) = cap \/
   positions (gdm_rows cap rows)
   = concat (map (fun r => row_positions (gdm_row r)) rows)).
Proof.
  intros Hcap. unfold lichess_rows, gdm_rows.
  assert (Hsz : size (seen_puzzles acc0) < cap).
  { unfold acc0. cbn [seen_puzzles]. rewrite size_empty. lia. }
  split.
  - exact (for_rows_stop_or_all (lichess_row have_chess) cap rows acc0 Hsz).
  - exact (for_rows_stop_or_all gdm_row cap rows acc0 Hsz).
Qed.

End RunExtras.

(** three rows, limit 1000 *)
Lemma X12_short_input_witness :
  positions (lichess_rows (E := Placement.engine) true PUZZLE_LIMIT
               [Examples.scenario_row; Examples.empty_row; Examples.second_row])
  = concat (map (fun r => row_positions (lichess_row (E := Placement.engine) true r))
              [Examples.scenario_row; Examples.empty_row; Examples.second_row]).
Proof.
  refine (proj1 (X12_short_input_is_converted_in_full (E := Placement.engine) true
                   PUZZLE_LIMIT
                   [Examples.scenario_row; Examples.empty_row; Examples.second_row] _)).
  unfold PUZZLE_LIMIT. simpl. lia.
Defined.

(** limit 1 on two puzzles: the run stops with one puzzle accepted *)
Lemma X13_early_stop_witness :
  size (seen_puzzles (lichess_rows (E := Placement.engine) true 1
                        [Examples.scenario_row; Examples.second_row])) = 1 \/
  positions (lichess_rows (E := Placement.engine) true 1
               [Examples.scenario_row; Examples.second_row])
  = concat (map (fun r => row_positions (lichess_row (E := Placement.engine) true r))
              [Examples.scenario_row; Examples.second_row]).
Proof.
  refine (proj1 (X13_early_stop_means_limit_reached (E := Placement.engine) true 1
                   [Examples.scenario_row; Examples.second_row] _)).
  lia.
Defined.

(** ** Rows that are skipped *)

Section SkippedRows.
Context {E : ChessEngine}.

Lemma split_ws_aux_blank (l : list ascii) :
  forallb is_space l = true -> split_ws_aux [] l = [].
Proof.
  induction l as [|c l IH]; [reflexivity|]. cbn [forallb split_ws_aux].
  intros H. apply andb_true_iff in H as [Hc Hl]. now rewrite Hc, IH.
Qed.

Lemma split_ws_blank (s : string) :
  forallb is_space (chars s) = true -> split_ws s = [].
Proof. intros H. unfold split_ws. now rewrite split_ws_aux_blank. Qed.

Lemma lichess_row_missing (have_chess : bool) (row : Row) :
  row !! "FEN" = None \/ row !! "Moves" = None \/
  row !! "Rating" = None \/ row !! "PuzzleId" = None ->
  lichess_row have_chess row = Continue.
Proof.
  unfold lichess_row. intros [H|[H|[H|H]]]; rewrite ?H.
  - reflexivity.
  - now destruct (row !! "FEN").
  - destruct (row !! "FEN"); [|reflexivity]. destruct (row !! "Moves"); [|reflexivity].
    now destruct (split_ws _).
  - destruct (row !! "FEN"); [|reflexivity]. destruct (row !! "Moves"); [|reflexivity].
    destruct (split_ws _); [reflexivity|]. now destruct (row !! "Rating").
Qed.

Lemma gdm_row_missing (row : Row) :
  row !! "PuzzleId" = None \/ row !! "Rating" = None \/ row !! "PGN" = None \/
  row !! "Solution" = None \/ row !! "FEN" = None \/ row !! "Moves" = None ->
  gdm_row row = Continue.
Proof.
  unfold gdm_row. intros H.
  destruct (row !! "PuzzleId"); [|reflexivity].
  destruct (row !! "Rating"); [|reflexivity].
  destruct (row !! "PGN"); [|reflexivity].
  destruct (row !! "Solution"); [|reflexivity].
  destruct (row !! "FEN"); [|reflexivity].
  destruct (row !! "Moves"); [|reflexivity].
  destruct H as [H|[H|[H|[H|[H|H]]]]]; discriminate.
Qed.

(** X14.  A row that lacks one of the columns a converter reads (FEN,
    Moves, Rating, PuzzleId for [convert_lichess]; also PGN and Solution for
    [convert_gdm_correct]) is passed over: whatever the limit and wherever
    the row stands, the run gives the same records and the same counted ids
    as the input without that row. *)
Theorem X14_row_with_missing_column_is_passed_over (have_chess : bool) (cap : nat)
    (pre post : list Row) (row : Row) :
  (row !! "FEN" = None \/ row !! "Moves" = None \/
   row !! "Rating" = None \/ row !! "PuzzleId" = None ->
   lichess_rows have_chess cap (pre ++ row :: post)
   = lichess_rows have_chess cap (pre ++ post)) /\
  (row !! "PuzzleId" = None \/ row !! "Rating" = None \/ row !! "PGN" = None \/
   row !! "Solution" = None \/ row !! "FEN" = None \/ row !! "Moves" = None ->
   gdm_rows cap (pre ++ row :: post) = gdm_rows cap (pre ++ post)).
Proof.
  split; intros H.
  - apply for_rows_continue. now apply lichess_row_missing.
  - apply for_rows_continue. now apply gdm_row_missing.
Qed.

(** X15.  A row whose Moves column is empty or holds only white space
    yields no record in either converter and, under a limit of at least
    one, can be removed from the input without changing the run: a puzzle
    without solution moves does not count. *)
Theorem X15_row_without_moves_yields_nothing (have_chess : bool) (cap : nat)
    (pre post : list Row) (row : Row) (moves_s : string) :
  row !! "Moves" = Some moves_s ->
  forallb is_space (chars moves_s) = true ->
  row_positions (lichess_row have_chess row) = [] /\
  row_positions (gdm_row row) = [] /\
  (1 <= cap ->
   lichess_rows have_chess cap (pre ++ row :: post)
   = lichess_rows have_chess cap (pre ++ post) /\
   gdm_rows cap (pre ++ row :: post) = gdm_rows cap (pre ++ post)).
Proof.
  intros Hm Hblank. pose proof (split_ws_blank moves_s Hblank) as Hsplit.
  assert (Hl : row_positions (lichess_row have_chess row) = []).
  { unfold lichess_row. rewrite Hm, Hsplit. now destruct (row !! "FEN"). }
  assert (Hg : row_positions (gdm_row row) = []).
  { unfold gdm_row. rewrite Hm, Hsplit.
    destruct (row !! "PuzzleId"); [|reflexivity].
    destruct (row !! "Rating"); [|reflexivity].
    destruct (row !! "PGN") as [pgn|]; [|reflexivity].
    destruct (row !! "Solution"); [|reflexivity].
    destruct (row !! "FEN") as [base|]; [|reflexivity].
    destruct (read_game_end pgn) as [b|]; [|reflexivity].
    destruct (negb _); [reflexivity|].
    now destruct (Board_of_fen base). }
  split; [exact Hl|]. split; [exact Hg|].
  intros Hcap.
  assert (Hsz : size (seen_puzzles acc0) < cap).
  { unfold acc0. cbn [seen_puzzles]. rewrite size_empty. lia. }
  split; apply for_rows_skip; assumption.
Qed.

End SkippedRows.

(** a row with no column at all between two puzzles *)
Lemma X14_missing_column_witness :
  lichess_rows (E := Placement.engine) true PUZZLE_LIMIT
    ([Examples.scenario_row] ++ ∅ :: [Examples.second_row])
  = lichess_rows (E := Placement.engine) true PUZZLE_LIMIT
      ([Examples.scenario_row] ++ [Examples.second_row]).
Proof.
  refine (proj1 (X14_row_with_missing_column_is_passed_over (E := Placement.engine)
                   true PUZZLE_LIMIT [Examples.scenario_row] [Examples.second_row] ∅) _).
  left. reflexivity.
Defined.

(** the row with an empty Moves column *)
Lemma X15_row_without_moves_witness :
  row_positions (lichess_row (E := Placement.engine) true Examples.empty_row) = [].
Proof.
  refine (proj1 (X15_row_without_moves_yields_nothing (E := Placement.engine) true
                   PUZZLE_LIMIT [] [] Examples.empty_row EmptyString _ _));
    reflexivity.
Defined.

(** ** Ratings and the other metadata of a record *)

Section MetadataExtras.
Context {E : ChessEngine}.

Lemma int_of_digits_nonneg (s : string) : (0 <= int_of_digits s)%Z.
Proof.
  unfold int_of_digits. generalize (chars s). intros l.
  assert (H : forall (acc : Z), (0 <= acc)%Z ->
            (0 <= fold_left (fun a c => (10 * a + Z.of_nat (digit_value c))%Z) l acc)%Z).
  { induction l as [|c l IH]; intros acc Hacc; [exact Hacc|].
    cbn [fold_left]. apply IH. lia. }
  apply H. lia.
Qed.

Lemma int_or_nonneg (default : Z) (s : string) :
  (0 <= default)%Z -> (0 <= int_or default s)%Z.
Proof.
  intros Hd. unfold int_or. destruct (isdigit s); [apply int_of_digits_nonneg | exact Hd].
Qed.

Lemma lichess_row_has_rating (have_chess : bool) (row : Row) (id : string)
    (ps : list EvalPosition) :
  lichess_row have_chess row = Fallthrough id ps ->
  exists rating_s, row !! "Rating" = Some rating_s.
Proof.
  unfold lichess_row.
  destruct (row !! "FEN"); [|discriminate].
  destruct (row !! "Moves"); [|discriminate].
  destruct (split_ws _); [discriminate|].
  destruct (row !! "Rating") as [r|]; [eauto | discriminate].
Qed.

Lemma gdm_row_has_rating (row : Row) (id : string) (ps : list EvalPosition) :
  gdm_row row = Fallthrough id ps ->
  exists rating_s, row !! "Rating" = Some rating_s.
Proof.
  unfold gdm_row.
  destruct (row !! "PuzzleId"); [|discriminate].
  destruct (row !! "Rating") as [r|]; [eauto | discriminate].
Qed.

Lemma rated_in_order (rating_s : string) (p : EvalPosition) :
  rated rating_s p -> rating_in_order p.
Proof.
  intros [Hr Hd]. split.
  - rewrite Hr. now apply int_or_nonneg.
  - now rewrite Hd, Hr.
Qed.

Lemma benchmarks_lichess_row_in_order (row : Row) (ps : list EvalPosition) :
  ConvertBenchmarks.lichess_row row = Some ps -> Forall rating_in_order ps.
Proof.
  unfold ConvertBenchmarks.lichess_row.
  destruct (row !! "FEN") as [fen_s|]; [|discriminate].
  destruct (row !! "Moves") as [moves_s|]; [|discriminate].
  destruct (split_ws moves_s) as [|mv0 rest]; [intros [= <-]; constructor|].
  destruct (Board_of_fen fen_s) as [board|]; [|discriminate].
  destruct (from_uci mv0) as [move|]; [|discriminate].
  destruct (is_legal board move); [|intros [= <-]; constructor].
  destruct (row !! "Rating") as [rating_s|]; [|discriminate].
  destruct (row !! "PuzzleId") as [pid|]; [|discriminate].
  intros [= <-]. constructor; [|constructor].
  split; [now apply int_or_nonneg | reflexivity].
Qed.

Lemma benchmarks_lichess_rows_in_order (rows : list Row) :
  forall positions, Forall rating_in_order positions ->
    Forall rating_in_order (ConvertBenchmarks.lichess_rows rows positions).
Proof.
  induction rows as [|row rows IH]; intros positions Hp; [exact Hp|].
  cbn [ConvertBenchmarks.lichess_rows].
  destruct (ConvertBenchmarks.lichess_row row) as [ps|] eqn:Hrow; [|now apply IH].
  assert (Forall rating_in_order (positions ++ ps))
    by (apply Forall_app; split;
        [exact Hp | now apply benchmarks_lichess_row_in_order with row]).
  destruct (1000 <=? _); [assumption | now apply IH].
Qed.

(** X16.  In [convert_lichess], [convert_gdm_correct] and
    [convert_benchmarks.convert_lichess_puzzles] every record of a run
    stores a rating that is not negative (a sign or any other character
    that is not a digit makes the field count as 1500) and the difficulty
    that [get_difficulty_from_rating] gives for the stored rating. *)
Theorem X16_stored_rating_and_difficulty_agree (have_chess : bool) (cap : nat)
    (rows : list Row) :
  Forall (fun p => (0 <= rating (metadata p))%Z /\
                   difficulty (metadata p)
                   = get_difficulty_from_rating (rating (metadata p)))
    (positions (lichess_rows have_chess cap rows)) /\
  Forall (fun p => (0 <= rating (metadata p))%Z /\
                   difficulty (metadata p)
                   = get_difficulty_from_rating (rating (metadata p)))
    (positions (gdm_rows cap rows)) /\
  Forall (fun p => (0 <= rating (metadata p))%Z /\
                   difficulty (metadata p)
                   = get_difficulty_from_rating (rating (metadata p)))
    (ConvertBenchmarks.lichess_rows rows []).
Proof.
  split; [|split].
  - apply (for_rows_Forall (lichess_row have_chess) rating_in_order); [|constructor].
    intros row. destruct (lichess_row have_chess row) as [|id ps] eqn:Hrow; [constructor|].
    destruct (lichess_row_has_rating _ _ _ _ Hrow) as [rating_s Hr].
    eapply List.Forall_impl; [apply (rated_in_order rating_s)|].
    exact (lichess_row_rated have_chess row rating_s id ps Hr Hrow).
  - apply (for_rows_Forall gdm_row rating_in_order); [|constructor].
    intros row. destruct (gdm_row row) as [|id ps] eqn:Hrow; [constructor|].
    destruct (gdm_row_has_rating _ _ _ Hrow) as [rating_s Hr].
    eapply List.Forall_impl; [apply (rated_in_order rating_s)|].
    exact (gdm_row_rated row rating_s id ps Hr Hrow).
  - apply benchmarks_lichess_rows_in_order. constructor.
Qed.

(** X17.  In [convert_benchmarks.convert_gdm_puzzles] the two fallbacks
    differ: a row whose rating is not a digit string gets the stored rating
    0 and the difficulty "medium" (the bucket of 1500), which is not the
    bucket of the stored rating. *)
Theorem X17_gdm_puzzles_stores_zero_but_buckets_1500 (row : Row) (rating_s : string)
    (ps : list EvalPosition) :
  row !! "Rating" = Some rating_s -> isdigit rating_s = false ->
  ConvertBenchmarks.gdm_row row = Some ps ->
  Forall (fun p => rating (metadata p) = 0%Z /\
                   difficulty (metadata p) = "medium" /\
                   difficulty (metadata p)
                   <> get_difficulty_from_rating (rating (metadata p))) ps.
Proof.
  intros Hr Hs Hrow.
  pose proof (benchmarks_gdm_row_rating row rating_s ps Hr Hs Hrow) as H0.
  pose proof (benchmarks_gdm_row_difficulty row rating_s ps Hr Hrow) as Hd.
  rewrite (int_or_not_digit 1500 rating_s Hs) in Hd.
  rewrite List.Forall_forall in *. intros p Hp.
  specialize (H0 p Hp). specialize (Hd p Hp). simpl in Hd.
  rewrite H0, Hd. repeat split. discriminate.
Qed.

(** what a record of a row stores under ["themes"] and ["popularity"] *)
Lemma lichess_row_themes (have_chess : bool) (row : Row) :
  Forall (fun p =>
            themes (metadata p)
            = Some (firstn 3 (split_ws (row_get row "Themes" EmptyString))) /\
            popularity (metadata p)
            = Some (int_or 0 (row_get row "Popularity" EmptyString)))
    (row_positions (lichess_row have_chess row)).
Proof.
  unfold lichess_row.
  destruct (row !! "FEN") as [fen_s|]; [|constructor].
  destruct (row !! "Moves") as [moves_s|]; [|constructor].
  destruct (split_ws moves_s) as [|mv0 rest]; [constructor|].
  destruct (row !! "Rating") as [rating_s|]; [|constructor].
  destruct (row !! "PuzzleId") as [pid|]; [|constructor].
  destruct have_chess.
  - destruct (Board_of_fen fen_s) as [board|]; [|constructor].
    cbn [row_positions].
    eapply List.Forall_impl;
      [|exact (lichess_replay_emits _ (mv0 :: rest) (mv0 :: rest) board 0 (drop_0 _))].
    intros p (j & mv & b & m & -> & _). split; reflexivity.
  - destruct (is_plausible_uci mv0); repeat constructor.
Qed.

(** X18.  Every record of a run of [convert_lichess] stores at most three
    themes and a popularity that is not negative.  For a row whose Themes
    and Popularity columns hold a text, the themes stored are the first
    three words of the Themes column, and the popularity stored is the
    number in the Popularity column if that is a string of digits and 0
    otherwise (a negative popularity is stored as 0). *)
Theorem X18_themes_and_popularity (have_chess : bool) (cap : nat) (rows : list Row) :
  Forall (fun p => exists l n,
              themes (metadata p) = Some l /\ length l <= 3 /\
              popularity (metadata p) = Some n /\ (0 <= n)%Z)
    (positions (lichess_rows have_chess cap rows)) /\
  (forall row themes_s popularity_s,
     row !! "Themes" = Some themes_s ->
     row !! "Popularity" = Some popularity_s ->
     Forall (fun p => themes (metadata p) = Some (firstn 3 (split_ws themes_s)) /\
                      popularity (metadata p) = Some (int_or 0 popularity_s))
       (row_positions (lichess_row have_chess row))).
Proof.
  split.
  - apply for_rows_Forall; [|constructor]. intros row.
    eapply List.Forall_impl; [|exact (lichess_row_themes have_chess row)].
    intros p [Ht Hp]. eexists _, _. split; [exact Ht|]. split.
    + rewrite length_take. lia.
    + split; [exact Hp|]. now apply int_or_nonneg.
  - intros row themes_s popularity_s HT HP.
    pose proof (lichess_row_themes have_chess row) as Hall.
    unfold row_get in Hall. rewrite HT, HP in Hall. exact Hall.
Qed.

End MetadataExtras.

(** the scenario row with four themes and the popularity -12 *)
Lemma X18_themes_witness :
  Forall (fun p => themes (metadata p) = Some ["mate"; "mateIn2"; "short"] /\
                   popularity (metadata p) = Some 0%Z)
    (row_positions (lichess_row (E := Placement.engine) true Examples.themed_row)).
Proof.
  refine (proj2 (X18_themes_and_popularity (E := Placement.engine) true PUZZLE_LIMIT [])
            Examples.themed_row "mate mateIn2 short endgame" "-12" _ _);
    reflexivity.
Defined.

(** a row of [convert_gdm_puzzles] with the rating text "unrated" *)
Lemma X17_gdm_puzzles_witness :
  exists ps,
    ConvertBenchmarks.gdm_row (E := Placement.engine) Examples.unrated_row = Some ps /\
    ps <> [] /\
    Forall (fun p => rating (metadata p) = 0%Z /\
                     difficulty (metadata p) = "medium" /\
                     difficulty (metadata p)
                     <> get_difficulty_from_rating (rating (metadata p))) ps.
Proof.
  eexists. split; [vm_compute; reflexivity|]. split; [discriminate|].
  refine (X17_gdm_puzzles_stores_zero_but_buckets_1500 (E := Placement.engine)
            Examples.unrated_row "unrated" _ _ _ _); vm_compute; reflexivity.
Defined.

(** ** The first-move converters of [convert_benchmarks.py] *)

Section FirstMoveExtras.
Context {E : ChessEngine}.

Lemma benchmarks_lichess_row_first_move (row : Row) (ps : list EvalPosition) :
  ConvertBenchmarks.lichess_row row = Some ps ->
  length ps <= 1 /\ Forall (first_move_of row) ps.
Proof.
  unfold ConvertBenchmarks.lichess_row.
  destruct (row !! "FEN") as [fen_s|] eqn:HF; [|discriminate].
  destruct (row !! "Moves") as [moves_s|] eqn:HM; [|discriminate].
  destruct (split_ws moves_s) as [|mv0 rest] eqn:Hs;
    [intros [= <-]; split; [simpl; lia | constructor]|].
  destruct (Board_of_fen fen_s) as [board|]; [|discriminate].
  destruct (from_uci mv0) as [move|]; [|discriminate].
  destruct (is_legal board move); [|intros [= <-]; split; [simpl; lia | constructor]].
  destruct (row !! "Rating") as [rating_s|]; [|discriminate].
  destruct (row !! "PuzzleId") as [pid|]; [|discriminate].
  intros [= <-]. split; [simpl; lia|]. constructor; [|constructor].
  exists moves_s. rewrite Hs. repeat split; assumption.
Qed.

Lemma benchmarks_gdm_row_first_move (row : Row) (ps : list EvalPosition) :
  ConvertBenchmarks.gdm_row row = Some ps ->
  length ps <= 1 /\ Forall (first_move_of row) ps.
Proof.
  unfold ConvertBenchmarks.gdm_row.
  destruct (row !! "FEN") as [fen_s|] eqn:HF; [|discriminate].
  destruct (row !! "Moves") as [moves_s|] eqn:HM; [|discriminate].
  destruct (split_ws moves_s) as [|mv0 rest] eqn:Hs;
    [intros [= <-]; split; [simpl; lia | constructor]|].
  destruct (Board_of_fen fen_s) as [board|]; [|discriminate].
  destruct (from_uci mv0) as [move|]; [|discriminate].
  destruct (is_legal board move); [|intros [= <-]; split; [simpl; lia | constructor]].
  destruct (row !! "PuzzleId") as [pid|]; [|discriminate].
  destruct (row !! "Rating") as [rating_s|]; [|discriminate].
  destruct (row !! "Solution") as [solution|]; [|discriminate].
  intros [= <-]. split; [simpl; lia|]. constructor; [|constructor].
  exists moves_s. rewrite Hs. repeat split; assumption.
Qed.

(** a loop of the shape of the two first-move loops *)
Lemma first_move_loop (body : Row -> option (list EvalPosition))
    (loop : list Row -> list EvalPosition -> list EvalPosition) :
  (forall rows positions,
     loop rows positions
     = match rows with
       | [] => positions
       | row :: rest =>
           match body row with
           | None => loop rest positions
           | Some ps =>
               if 1000 <=? length (positions ++ ps) then positions ++ ps
               else loop rest (positions ++ ps)
           end
       end) ->
  (forall row ps, body row = Some ps -> length ps <= 1 /\ Forall (first_move_of row) ps) ->
  forall rows positions,
    length positions < 1000 ->
    length (loop rows positions) <= 1000 /\
    (forall p, In p (loop rows positions) ->
               In p positions \/ exists row, In row rows /\ first_move_of row p).
Proof.
  intros Hloop Hbody. induction rows as [|row rows IH]; intros positions Hlen.
  - rewrite Hloop. split; [lia | auto].
  - rewrite Hloop. destruct (body row) as [ps|] eqn:Hrow.
    + destruct (Hbody row ps Hrow) as [Hone Hfirst].
      assert (Hnew : forall p, In p (positions ++ ps) ->
                In p positions \/ exists r, In r (row :: rows) /\ first_move_of r p).
      { intros p Hp. apply in_app_or in Hp as [Hp|Hp]; [now left|].
        right. exists row. split; [now left|].
        rewrite List.Forall_forall in Hfirst. now apply Hfirst. }
      destruct (Nat.leb_spec 1000 (length (positions ++ ps))) as [Hfull|Hroom].
      * split; [rewrite length_app in *; lia | exact Hnew].
      * destruct (IH (positions ++ ps) Hroom) as [Hle Hin]. split; [exact Hle|].
        intros p Hp. destruct (Hin p Hp) as [Hp'|(r & Hr & Hf)]; [now apply Hnew|].
        right. exists r. split; [now right | exact Hf].
    + destruct (IH positions Hlen) as [Hle Hin]. split; [exact Hle|].
      intros p Hp. destruct (Hin p Hp) as [Hp'|(r & Hr & Hf)]; [now left|].
      right. exists r. split; [now right | exact Hf].
Qed.

(** X19.  The two first-move converters of [convert_benchmarks.py] never
    emit more than 1000 records, and every record repeats a row of the
    input: its position is that row's FEN column as written and its
    expected move is the first word of that row's Moves column. *)
Theorem X19_first_move_converters (rows : list Row) :
  (length (ConvertBenchmarks.lichess_rows rows []) <= 1000 /\
   forall p, In p (ConvertBenchmarks.lichess_rows rows []) ->
             exists row, In row rows /\ first_move_of row p) /\
  (length (ConvertBenchmarks.gdm_rows rows []) <= 1000 /\
   forall p, In p (ConvertBenchmarks.gdm_rows rows []) ->
             exists row, In row rows /\ first_move_of row p).
Proof.
  split.
  - destruct (first_move_loop ConvertBenchmarks.lichess_row
                ConvertBenchmarks.lichess_rows) with (rows := rows) (positions := @nil EvalPosition)
      as [Hle Hin].
    + intros [|r rs] ps; reflexivity.
    + apply benchmarks_lichess_row_first_move.
    + simpl. lia.
    + split; [exact Hle|]. intros p Hp. destruct (Hin p Hp) as [[]|H]; exact H.
  - destruct (first_move_loop ConvertBenchmarks.gdm_row
                ConvertBenchmarks.gdm_rows) with (rows := rows) (positions := @nil EvalPosition)
      as [Hle Hin].
    + intros [|r rs] ps; reflexivity.
    + apply benchmarks_gdm_row_first_move.
    + simpl. lia.
    + split; [exact Hle|]. intros p Hp. destruct (Hin p Hp) as [[]|H]; exact H.
Qed.

End FirstMoveExtras.

(** ** The files a Lichess run touches *)

Section FileExtras.
Context {E : ChessEngine}.


End FileExtras.


(** ** The buckets are ordered *)

(** X21.  A higher rating never gets an easier bucket: along beginner,
    easy, medium, hard, expert the result of [get_difficulty_from_rating]
    rises with the rating. *)
Theorem X21_difficulty_is_monotone (r1 r2 : Z) :
  (r1 <= r2)%Z ->
  difficulty_rank (get_difficulty_from_rating r1)
  <= difficulty_rank (get_difficulty_from_rating r2).
Proof.
  intros Hle. unfold get_difficulty_from_rating.
  destruct (Z.ltb_spec r1 1000); destruct (Z.ltb_spec r2 1000); try lia;
    try (cbn; lia);
    destruct (Z.ltb_spec r1 1500); destruct (Z.ltb_spec r2 1500); try lia;
    try (cbn; lia);
    destruct (Z.ltb_spec r1 2000); destruct (Z.ltb_spec r2 2000); try lia;
    try (cbn; lia);
    destruct (Z.ltb_spec r1 2500); destruct (Z.ltb_spec r2 2500); try lia;
    cbn; lia.
Qed.

Lemma X21_difficulty_monotone_witness :
  difficulty_rank (get_difficulty_from_rating 1499)
  <= difficulty_rank (get_difficulty_from_rating 1500).
Proof. apply X21_difficulty_is_monotone. lia. Defined.

(** ** The branch of [convert_lichess] without the board library *)

(** X22.  With [HAVE_CHESS] false the row body never asks the board
    library: it gives the same outcome for any two libraries.  A row then
    yields at most one record; the record repeats the FEN column and the
    first move of the row, that move has the shape of a move text, and
    neither an index nor the solution is stored. *)
Theorem X22_fallback_row (E1 E2 : ChessEngine) (row : Row) :
  lichess_row (E := E1) false row = lichess_row (E := E2) false row /\
  (forall id ps,
     lichess_row (E := E1) false row = Fallthrough id ps ->
     length ps <= 1 /\
     Forall (fun p => first_move_of row p /\
                      is_plausible_uci (correct_move p) = true /\
                      move_index_in_sequence (metadata p) = None /\
                      solution_sequence (metadata p) = None) ps).
Proof.
  split; [reflexivity|].
  intros id ps. unfold lichess_row.
  destruct (row !! "FEN") as [fen_s|] eqn:HF; [|discriminate].
  destruct (row !! "Moves") as [moves_s|] eqn:HM; [|discriminate].
  destruct (split_ws moves_s) as [|mv0 rest] eqn:Hs; [discriminate|].
  destruct (row !! "Rating") as [rating_s|]; [|discriminate].
  destruct (row !! "PuzzleId") as [pid|]; [|discriminate].
  destruct (is_plausible_uci mv0) eqn:Hpl; intros H; injection H as <- <-.
  - split; [simpl; lia|]. constructor; [|constructor].
    split; [|repeat split; assumption].
    exists moves_s. rewrite Hs. repeat split; assumption.
  - split; [simpl; lia | constructor].
Qed.

(** the row whose first move goes from a1 to a1 *)
Lemma X22_fallback_row_witness :
  length (row_positions
            (lichess_row (E := Placement.engine) false Examples.same_square_row)) <= 1.
Proof.
  destruct (lichess_row (E := Placement.engine) false Examples.same_square_row)
    as [|id ps] eqn:Hrow; [simpl; lia|].
  exact (proj1 (proj2 (X22_fallback_row Placement.engine Placement.engine
                         Examples.same_square_row) id ps Hrow)).
Defined.

(** ** Every record describes itself *)

Section SelfDescribingRecords.
Context {E : ChessEngine}.

Lemma lichess_row_self_describing (row : Row) :
  Forall self_describing (row_positions (lichess_row true row)).
Proof.
  destruct (lichess_row true row) as [|id ps] eqn:H; [constructor|].
  destruct (lichess_row_emits row id ps H) as (r & t & n & moves & Hall).
  eapply List.Forall_impl; [|exact Hall].
  intros p (j & mv & b & m & -> & _ & Hodd & Hmv & _).
  exists moves, j. repeat split; try assumption.
  now apply lookup_lt_Some with mv.
Qed.

Lemma gdm_row_self_describing (row : Row) :
  Forall self_describing (row_positions (gdm_row row)).
Proof.
  destruct (gdm_row row) as [|id ps] eqn:H; [constructor|].
  destruct (gdm_row_emits row id ps H) as (r & s & moves & Hall).
  eapply List.Forall_impl; [|exact Hall].
  intros p (j & mv & b & m & -> & _ & Hodd & Hmv & _).
  exists moves, j. repeat split; try assumption.
  now apply lookup_lt_Some with mv.
Qed.

(** X23.  Every record of a run of [convert_lichess] (with the board
    library) or of [convert_gdm_correct] describes itself: it stores the
    whole solution, the length of the solution as total, and an odd index
    below the total at which the stored solution has the expected move. *)
Theorem X23_records_describe_themselves (cap : nat) (rows : list Row) :
  Forall (fun p => exists (moves : list string) (i : nat),
              solution_sequence (metadata p) = Some moves /\
              total_moves_in_sequence (metadata p) = Some (length moves) /\
              move_index_in_sequence (metadata p) = Some i /\
              i mod 2 = 1 /\ i < length moves /\
              moves !! i = Some (correct_move p))
    (positions (lichess_rows true cap rows)) /\
  Forall (fun p => exists (moves : list string) (i : nat),
              solution_sequence (metadata p) = Some moves /\
              total_moves_in_sequence (metadata p) = Some (length moves) /\
              move_index_in_sequence (metadata p) = Some i /\
              i mod 2 = 1 /\ i < length moves /\
              moves !! i = Some (correct_move p))
    (positions (gdm_rows cap rows)).
Proof.
  split.
  - apply (for_rows_Forall (lichess_row true) self_describing);
      [apply lichess_row_self_describing | constructor].
  - apply (for_rows_Forall gdm_row self_describing);
      [apply gdm_row_self_describing | constructor].
Qed.

End SelfDescribingRecords.

(** ** [reference_implementation.py]: what the environment loop generates *)

Section GenerationExtras.
Import ReferenceImplementation.
Variable next_token : list Z -> Z.
Variable decode_token : Z -> string.

Lemma environment_loop_spec (fuel : nat) :
  forall (ids : list Z) (count : nat),
    count < 4 ->
    exists new,
      environment_loop next_token decode_token fuel ids count = ids ++ new /\
      length new <= fuel /\
      (0 < fuel -> 0 < length new) /\
      (forall k tok, new !! k = Some tok -> tok = next_token (ids ++ firstn k new)) /\
      count + length (List.filter (is_plus decode_token) new) <= 4 /\
      (length new < fuel ->
       count + length (List.filter (is_plus decode_token) new) = 4 /\
       exists tok, last new = Some tok /\ is_plus decode_token tok = true).
Proof.
  induction fuel as [|fuel IH]; intros ids count Hcount.
  - exists []. cbn [environment_loop]. rewrite app_nil_r. simpl.
    repeat split; try lia. intros k tok Hk. discriminate.
  - cbn [environment_loop]. set (next := next_token ids).
    assert (Hgreedy : forall new',
              (forall k tok, new' !! k = Some tok ->
                             tok = next_token ((ids ++ [next]) ++ firstn k new')) ->
              forall k tok, (next :: new') !! k = Some tok ->
                            tok = next_token (ids ++ firstn k (next :: new'))).
    { intros new' H [|k] tok Hk.
      - injection Hk as <-. simpl. now rewrite app_nil_r.
      - simpl in *. rewrite (H k tok Hk), <- app_assoc. reflexivity. }
    destruct (is_plus decode_token next) eqn:Hplus.
    + destruct (Nat.leb_spec 4 (S count)) as [Hfull|Hroom].
      * exists [next]. cbn [List.filter length last]. rewrite Hplus. cbn [length].
        split; [reflexivity|]. split; [lia|]. split; [lia|]. split.
        { apply (Hgreedy []). intros k tok Hk. discriminate. }
        split; [lia|]. intros _. split; [lia|]. now exists next.
      * destruct (IH (ids ++ [next]) (S count) Hroom)
          as (new' & Heq & Hlen & Hpos & Hg & Hle & Hstop).
        exists (next :: new'). rewrite Heq, <- app_assoc.
        cbn [List.filter length app]. rewrite Hplus. cbn [length].
        split; [reflexivity|]. split; [lia|]. split; [lia|].
        split; [now apply Hgreedy|]. split; [lia|].
        intros Hshort. destruct Hstop as [Hfour (tok & Hlast & Htok)]; [lia|].
        split; [lia|]. exists tok. split; [|exact Htok].
        destruct new'; [discriminate | exact Hlast].
    + destruct (IH (ids ++ [next]) count Hcount)
        as (new' & Heq & Hlen & Hpos & Hg & Hle & Hstop).
      exists (next :: new'). rewrite Heq, <- app_assoc.
      cbn [List.filter length app]. rewrite Hplus.
      split; [reflexivity|]. split; [lia|]. split; [lia|].
      split; [now apply Hgreedy|]. split; [lia|].
      intros Hshort. destruct Hstop as [Hfour (tok & Hlast & Htok)]; [lia|].
      split; [lia|]. exists tok. split; [|exact Htok].
      destruct new'; [discriminate | exact Hlast].
Qed.

(** X24.  The environment loop of [reference_implementation.py] keeps the
    ids of the prompt and appends between 1 and 150 ids, each one the
    greedy step on everything before it; at most four of the new ids decode
    to "+", and when fewer than 150 ids were appended there are exactly
    four and the last id appended is one of them. *)
Theorem X24_environment_loop_generates (prompt_ids : list Z) :
  exists new,
    environment_ids next_token decode_token prompt_ids = prompt_ids ++ new /\
    1 <= length new <= 150 /\
    (forall k tok, new !! k = Some tok ->
                   tok = next_token (prompt_ids ++ firstn k new)) /\
    length (List.filter (is_plus decode_token) new) <= 4 /\
    (length new < 150 ->
     length (List.filter (is_plus decode_token) new) = 4 /\
     exists tok, last new = Some tok /\ decode_token tok = "+").
Proof.
  destruct (environment_loop_spec 150 prompt_ids 0) as
    (new & Heq & Hlen & Hpos & Hg & Hle & Hstop); [lia|].
  exists new. split; [exact Heq|]. split; [lia|]. split; [exact Hg|].
  split; [lia|]. intros Hshort.
  destruct (Hstop Hshort) as [Hfour (tok & Hlast & Htok)].
  split; [lia|]. exists tok. split; [exact Hlast|].
  unfold is_plus in Htok. now apply String.eqb_eq in Htok.
Qed.

End GenerationExtras.

(** a model that only writes "+" stops after four ids; one that never does
    runs all 150 rounds *)
Example environment_loop_stops_at_fourth_plus :
  ReferenceImplementation.environment_ids (fun _ => 10%Z) (fun _ => "+") [1; 2]%Z
  = [1; 2; 10; 10; 10; 10]%Z.
Proof. reflexivity. Qed.

Example environment_loop_runs_out :
  length (ReferenceImplementation.environment_ids (fun _ => 10%Z) (fun _ => "e")
            [1; 2]%Z) = 152.
Proof. reflexivity. Qed.

(** ** [reference_implementation.py]: where the policy loops stop *)

Section PolicyExtras.
Import ReferenceImplementation.
Variable next_token : list Z -> Z.
Variable decode_token : Z -> string.

Example marker_tail :
  map (option_map text)
    [after_last_marker (chars "M: e2e4 B: e2e4"); after_last_marker (chars "B:B:x");
     after_last_marker (chars "M: e2e4 B"); after_last_marker (chars "e2e4 B:")]
  = [Some " e2e4"; Some "x"; None; Some EmptyString].
Proof. reflexivity. Qed.

Lemma policy_loop_spec (fuel : nat) :
  forall (ids : list Z) (text : string),
    exists new,
      policy_loop next_token decode_token fuel ids text = ids ++ new /\
      length new <= fuel /\
      (0 < fuel -> 0 < length new) /\
      (forall k tok, new !! k = Some tok -> tok = next_token (ids ++ firstn k new)) /\
      (length new < fuel ->
       best_move_written (generated_text_of decode_token text new) = true) /\
      (forall k, 0 < k < length new ->
         best_move_written (generated_text_of decode_token text (firstn k new)) = false).
Proof.
  induction fuel as [|fuel IH]; intros ids text.
  - exists []. cbn [policy_loop]. rewrite app_nil_r. simpl.
    repeat split; try lia. intros k tok Hk. discriminate.
  - cbn [policy_loop]. set (next := next_token ids).
    assert (Hgreedy : forall new',
              (forall k tok, new' !! k = Some tok ->
                             tok = next_token ((ids ++ [next]) ++ firstn k new')) ->
              forall k tok, (next :: new') !! k = Some tok ->
                            tok = next_token (ids ++ firstn k (next :: new'))).
    { intros new' H [|k] tok Hk.
      - injection Hk as <-. simpl. now rewrite app_nil_r.
      - simpl in *. rewrite (H k tok Hk), <- app_assoc. reflexivity. }
    destruct (best_move_written (text +:+ decode_token next)) eqn:Hstop.
    + exists [next]. cbn [length].
      split; [reflexivity|]. split; [lia|]. split; [lia|]. split.
      { apply (Hgreedy []). intros k tok Hk. discriminate. }
      split; [intros _; exact Hstop | intros k Hk; lia].
    + destruct (IH (ids ++ [next]) (text +:+ decode_token next))
        as (new' & Heq & Hlen & Hpos & Hg & Hend & Hbefore).
      exists (next :: new'). rewrite Heq, <- app_assoc. cbn [length app].
      split; [reflexivity|]. split; [lia|]. split; [lia|].
      split; [now apply Hgreedy|]. split.
      * intros Hshort. apply Hend. lia.
      * intros [|k] Hk; [lia|]. cbn [firstn generated_text_of fold_left].
        destruct k as [|k]; [exact Hstop|]. apply (Hbefore (S k)). lia.
Qed.

(** X25.  The policy loops of [reference_implementation.py] keep the ids
    of the prompt and append between 1 and 100 ids, each the greedy step on
    everything before it.  They stop at the first round after which the text
    generated so far contains "B:" with more than five characters behind its
    last occurrence: the test fails after every earlier round, and it holds
    at the end whenever fewer than 100 ids were appended. *)
Theorem X25_policy_loop_stops_at_first_best_move (prompt_ids : list Z) :
  exists new,
    policy_ids next_token decode_token prompt_ids = prompt_ids ++ new /\
    1 <= length new <= 100 /\
    (forall k tok, new !! k = Some tok ->
                   tok = next_token (prompt_ids ++ firstn k new)) /\
    (length new < 100 ->
     best_move_written (generated_text_of decode_token EmptyString new) = true) /\
    (forall k, 0 < k < length new ->
       best_move_written (generated_text_of decode_token EmptyString (firstn k new))
       = false).
Proof.
  destruct (policy_loop_spec 100 prompt_ids EmptyString)
    as (new & Heq & Hlen & Hpos & Hg & Hend & Hbefore).
  exists new. split; [exact Heq|]. split; [lia|]. split; [exact Hg|].
  split; [exact Hend | exact Hbefore].
Qed.

End PolicyExtras.

(** a model that writes "B:" once and then only "e": the loop stops when
    six characters stand behind the marker *)
Example policy_loop_stops_after_six_characters :
  ReferenceImplementation.policy_ids
    (fun ids => if (length ids =? 2)%nat then 33%Z else 68%Z)
    (fun t => if (t =? 33)%Z then "B:" else "e") [1; 2]%Z
  = [1; 2; 33; 68; 68; 68; 68; 68; 68]%Z.
Proof. reflexivity. Qed.
